(** * Blunt: threaded video source and sink, time model, crop orchestrator

    A shallow embedding of [blunt.py] (classes [TimeStamp], [VideoTime],
    [VideoStream], [VideoWriter], [VideoCropper], functions
    [frame_videotime] and [open_video]) and of [read_crops] and the
    frame loop of [scripts/video_crop.py].

    Conventions of the embedding.
    - In the time model ([TimeStamp], [VideoTime], [frame_videotime])
      Python [float] values are modelled by exact rationals ([Q]); every
      concrete input used there is one on which binary64 arithmetic and
      rational arithmetic agree.
    - The elapsed time of the frame loop is a binary64 [float] as in the
      program: module [Binary64] rounds each quotient and each sum to
      the nearest [float].
    - Python exceptions are modelled by the error monad [result].
    - A thread is modelled by a program counter stored in the object, one
      constructor per statement or condition of the thread's function; a
      schedule is a list of thread identifiers and [run] interleaves the
      threads one statement at a time.
    - The decode and encode handles of OpenCV are external to the
      repository; they are modelled by the small record [Camera] and by
      the list of frames handed to the encoder. *)

From Stdlib Require Import String Ascii DecimalString.
From Stdlib Require Import ZArith QArith Qround Qabs Qpower List Bool Lia Lqa.
From Stdlib Require DecimalPos DecimalN.
Import ListNotations.

Set Implicit Arguments.
Open Scope Z_scope.

(** ** Python exceptions and the error monad *)

Inductive exn : Type :=
| TypeError
| ValueError
| ZeroDivisionError
| AttributeError
| RuntimeError
| IOError (msg : string).

(** The outcome of a call: it returns a value, it raises, or it waits
    for ever on another thread. *)
Inductive result (A : Type) : Type :=
| Ok (a : A)
| Raise (e : exn)
| Blocks.

Arguments Ok {A} a.
Arguments Raise {A} e.
Arguments Blocks {A}.

Definition bind {A B : Type} (m : result A) (k : A -> result B) : result B :=
  match m with
  | Ok a => k a
  | Raise e => Raise e
  | Blocks => Blocks
  end.

(** A call made on every element of a list in turn, as [map] does with a
    function that may raise. *)
Fixpoint for_each {A B : Type} (f : A -> result B) (l : list A) : result (list B) :=
  match l with
  | [] => Ok []
  | a :: rest =>
      match f a with
      | Ok b =>
          match for_each f rest with
          | Ok bs => Ok (b :: bs)
          | Raise e => Raise e
          | Blocks => Blocks
          end
      | Raise e => Raise e
      | Blocks => Blocks
      end
  end.

Declare Scope py_scope.
Delimit Scope py_scope with py.
Notation "x <- m ;; k" := (bind m (fun x => k))
  (at level 61, m at next level, right associativity) : py_scope.
Open Scope py_scope.

(** ** Strings and numbers as Python prints and reads them *)

Module PyText.

(** [s.split(c)] for a one-character separator. *)
Fixpoint split_on (c : ascii) (s : string) : list string :=
  match s with
  | EmptyString => [EmptyString]
  | String a rest =>
      if Ascii.eqb a c then EmptyString :: split_on c rest
      else match split_on c rest with
           | [] => [String a EmptyString]
           | w :: ws => String a w :: ws
           end
  end.

(** ["{}".format(n)] for an [int]. *)
Definition str_int (n : Z) : string := NilZero.string_of_int (Z.to_int n).

(** Left padding with zeros up to [width] characters, after the sign:
    the [0] flag of a format specification. *)
Definition zero_pad (width : nat) (negative : bool) (digits : string) : string :=
  let sign := if negative then "-"%string else EmptyString in
  let used := (String.length sign + String.length digits)%nat in
  let fill := string_of_list_ascii (repeat "0"%char (width - used)) in
  (sign ++ fill ++ digits)%string.

(** ["{:02d}".format(n)]. *)
Definition fmt_02d (n : Z) : string :=
  zero_pad 2 (n <? 0) (NilZero.string_of_uint (N.to_uint (Z.abs_N n))).

(** Rounding of a non-negative rational to the nearest integer, ties to
    even: what the [f] presentation type does on the exact value. *)
Definition round_half_even (q : Q) : Z :=
  let n := Qnum q in
  let d := Zpos (Qden q) in
  let fl := n / d in
  let twice := 2 * (n mod d) in
  if twice <? d then fl
  else if d <? twice then fl + 1
  else if Z.even fl then fl else fl + 1.

(** ["{:02.3f}".format(x)]: three digits after the point, and a minimum
    total width of two characters (which a number with three decimals
    always exceeds, so that the [0] flag never adds anything). *)
Definition fmt_02_3f (x : Q) : string :=
  let negative := match Qcompare x 0 with Lt => true | _ => false end in
  let thousandths := round_half_even (Qmult (Qabs x) (inject_Z 1000)) in
  let ip := NilZero.string_of_uint (N.to_uint (Z.to_N (thousandths / 1000))) in
  let fp := NilZero.string_of_uint (N.to_uint (Z.to_N (thousandths mod 1000))) in
  let fp3 := zero_pad 3 false fp in
  zero_pad 2 negative (ip ++ "." ++ fp3)%string.

(** Value of a string of decimal digits; [Raise ValueError] on any other
    character. *)
Definition digits (s : string) : result Z :=
  match NilEmpty.uint_of_string s with
  | Some d => Ok (Z.of_uint d)
  | None => Raise ValueError
  end.

(** [float(s)] on plain decimal literals: an optional sign, digits, and an
    optional fractional part; at least one digit. Exponents, surrounding
    blanks, [inf] and [nan], which Python also reads, are outside the
    model and are not used by the program on the inputs studied here. *)
Definition float_unsigned (s : string) : result Q :=
  match split_on "."%char s with
  | [ip] =>
      if String.eqb ip EmptyString then Raise ValueError
      else (n <- digits ip ;; Ok (inject_Z n))
  | [ip; fp] =>
      if String.eqb ip EmptyString && String.eqb fp EmptyString
      then Raise ValueError
      else (n <- digits ip ;;
            m <- digits fp ;;
            Ok (Qred (Qplus (inject_Z n)
                            (Qmake m (Z.to_pos (10 ^ Z.of_nat (String.length fp)))))))
  | _ => Raise ValueError
  end.

Definition float (s : string) : result Q :=
  match s with
  | String "-"%char rest => q <- float_unsigned rest ;; Ok (Qopp q)
  | String "+"%char rest => float_unsigned rest
  | _ => float_unsigned s
  end.

(** [int(x)] for a float: truncation towards zero. *)
Definition int (x : Q) : Z := Z.quot (Qnum x) (Zpos (Qden x)).

End PyText.

(** ** TimeModel: [TimeStamp], [VideoTime], [frame_videotime] *)

Module Time.
Import PyText.

(** [class TimeStamp]: the three attributes hold the same instant in three
    units. *)
Record TimeStamp : Type := mkTimeStamp {
  hours : Q;
  minutes : Q;
  seconds : Q
}.

(** [class VideoTime(TimeStamp)]. *)
Record VideoTime : Type := mkVideoTime {
  stamp : TimeStamp;
  fps : Q;
  frame_number : Z
}.

(** The argument [e] of [TimeStamp.__init__], by its dynamic type. *)
Inductive expression : Type :=
| OfStr (s : string)
| OfTimeStamp (t : TimeStamp)
| OfVideoTime (v : VideoTime)
| OfOther.

(** [TimeStamp.__str__]. *)
Definition TimeStamp_str (self : TimeStamp) : string :=
  let h := int (hours self) in
  let m := int (minutes self) - h * 60 in
  let s := Qminus (Qminus (seconds self) (inject_Z (h * 3600))) (inject_Z (m * 60)) in
  (str_int h ++ ":" ++ fmt_02d m ++ ":" ++ fmt_02_3f s)%string.

(** The frame rate as [VideoTime.__str__] prints it. Python prints the
    shortest decimal that reads back as the same float; the model prints
    three decimals instead. The program only ever reads back the text
    before the first blank of [VideoTime.__str__], which the rate
    follows. *)
Definition str_rate (x : Q) : string := fmt_02_3f x.

(** [VideoTime.__str__]. *)
Definition VideoTime_str (self : VideoTime) : string :=
  (TimeStamp_str (stamp self) ++ " (" ++ str_rate (fps self) ++ " frame/s)")%string.

(** The body of [TimeStamp.__init__] once [e] is a [str]. *)
Definition TimeStamp_of_str (e : string) : result TimeStamp :=
  match map float (split_on ":"%char e) with
  | [Ok h; Ok m; Ok s] =>
      Ok {| hours := Qred (h + m / 60 + s / 3600);
            minutes := Qred (h * 60 + m + s / 60);
            seconds := Qred (h * 3600 + m * 60 + s) |}
  | _ => Raise ValueError
  end.

(** [TimeStamp.__init__]. *)
Definition TimeStamp_init (e : expression) : result TimeStamp :=
  match e with
  | OfStr s => TimeStamp_of_str s
  | OfTimeStamp t => TimeStamp_of_str (TimeStamp_str t)
  | OfVideoTime v => TimeStamp_of_str (hd EmptyString (split_on " "%char (VideoTime_str v)))
  | OfOther => Raise TypeError
  end.

(** [VideoTime.__init__]. *)
Definition VideoTime_init (e : expression) (rate : Q) : result VideoTime :=
  t <- TimeStamp_init e ;;
  Ok {| stamp := t; fps := rate; frame_number := int (seconds t * rate) + 1 |}.

(** [frame_videotime]: the division by [float(fps)] raises on a zero
    rate. *)
Definition frame_videotime (n : Z) (rate : Q) : result VideoTime :=
  t <- VideoTime_init (OfStr "0:0:0") rate ;;
  if Qeq_bool rate 0 then Raise ZeroDivisionError
  else
    let s := Qred (inject_Z n / rate) in
    let m := Qred (s / 60) in
    let h := Qred (m / 60) in
    Ok {| stamp := {| hours := h; minutes := m; seconds := s |};
          fps := fps t;
          frame_number := n |}.


(** Parse then format. *)
Definition parse_format (s : string) : result string :=
  t <- TimeStamp_init (OfStr s) ;; Ok (TimeStamp_str t).

End Time.

(** ** Frames and Python slicing *)

Module Image.
Section Slicing.
Variable A : Type.

(** The position a slice bound [i] denotes in a sequence of length [len]:
    a negative bound counts from the end, and every bound is clamped to
    the sequence. *)
Definition clamp_bound (len i : Z) : Z :=
  if i <? 0 then Z.max 0 (i + len) else Z.min i len.

(** [l[a:b]]. *)
Definition slice (a b : Z) (l : list A) : list A :=
  let len := Z.of_nat (length l) in
  let lo := clamp_bound len a in
  let hi := clamp_bound len b in
  firstn (Z.to_nat (hi - lo)) (skipn (Z.to_nat lo) l).

End Slicing.

(** A decoded frame: rows of pixels. *)
Definition image (pixel : Type) : Type := list (list pixel).

(** [frame[y:y+h, x:x+w]]. *)
Definition crop {pixel : Type} (x y w h : Z) (frame : image pixel) : image pixel :=
  map (slice x (x + w)) (slice y (y + h) frame).

Definition height {pixel : Type} (frame : image pixel) : Z := Z.of_nat (length frame).

(** Every row of [frame] has [w] pixels. *)
Definition has_width {pixel : Type} (w : Z) (frame : image pixel) : Prop :=
  Forall (fun row => Z.of_nat (length row) = w) frame.

(** A [rows] by [cols] frame whose pixel at row [r], column [c] is
    [f r c]. *)
Definition synthetic {pixel : Type} (rows cols : nat) (f : nat -> nat -> pixel) : image pixel :=
  map (fun r => map (f r) (seq 0 cols)) (seq 0 rows).

End Image.

(** ** FrameSink: [VideoWriter] and [VideoCropper] *)

Module Sink.
Import Image.

(** Where the worker thread [self.t] stands in [VideoWriter.writer]. *)
Inductive writer_pc (frame : Type) : Type :=
| Unstarted                      (* the thread object exists, [start] not called *)
| WhileRunning                   (* [while self.running():] *)
| IfQueued                       (* [if not self.Q.empty():] *)
| Get                            (* [frame = self.Q.get()] *)
| Count (f : frame)              (* [self.frame_number += 1] *)
| Encode (f : frame)             (* [self.vw.write(frame)] *)
| WhileDrain                     (* [while not self.Q.empty():] *)
| DrainGet                       (* [frame = self.Q.get()] *)
| DrainCount (f : frame)         (* [self.frame_number += 1] *)
| DrainEncode (f : frame)        (* [self.vw.write(frame)] *)
| Release                        (* [self.vw.release()] *)
| Exited.                        (* [writer] has returned *)

Arguments Unstarted {frame}.
Arguments WhileRunning {frame}.
Arguments IfQueued {frame}.
Arguments Get {frame}.
Arguments WhileDrain {frame}.
Arguments DrainGet {frame}.
Arguments Release {frame}.
Arguments Exited {frame}.

Section Writer.
Variable pixel : Type.
Local Abbreviation frame := (image pixel) (only parsing).

(** [Queue(maxsize=128)]. *)
Definition maxsize : nat := 128.

(** A [VideoWriter]; [origin] is [Some (x, y)] for a [VideoCropper].
    [encoded] and [released] are the state of the encode handle [self.vw]:
    the frames handed to [self.vw.write], oldest first, and whether
    [self.vw.release()] has run. *)
Record VideoWriter : Type := mkVideoWriter {
  fname : string;
  fourcc : string;
  dimension : Z * Z;
  fps : Z;
  color : bool;
  origin : option (Z * Z);
  encoded : list frame;
  released : bool;
  Q : list frame;
  stopped : bool;
  t : writer_pc frame;
  frame_number : Z
}.

Definition with_t (self : VideoWriter) (pc : writer_pc frame) : VideoWriter :=
  mkVideoWriter (fname self) (fourcc self) (dimension self) (fps self) (color self)
    (origin self) (encoded self) (released self) (Q self) (stopped self) pc
    (frame_number self).

Definition with_Q (self : VideoWriter) (q : list frame) : VideoWriter :=
  mkVideoWriter (fname self) (fourcc self) (dimension self) (fps self) (color self)
    (origin self) (encoded self) (released self) q (stopped self) (t self)
    (frame_number self).

Definition with_stopped (self : VideoWriter) (b : bool) : VideoWriter :=
  mkVideoWriter (fname self) (fourcc self) (dimension self) (fps self) (color self)
    (origin self) (encoded self) (released self) (Q self) b (t self)
    (frame_number self).

Definition with_frame_number (self : VideoWriter) (n : Z) : VideoWriter :=
  mkVideoWriter (fname self) (fourcc self) (dimension self) (fps self) (color self)
    (origin self) (encoded self) (released self) (Q self) (stopped self) (t self) n.

Definition with_encoded (self : VideoWriter) (l : list frame) : VideoWriter :=
  mkVideoWriter (fname self) (fourcc self) (dimension self) (fps self) (color self)
    (origin self) l (released self) (Q self) (stopped self) (t self)
    (frame_number self).

Definition with_released (self : VideoWriter) (b : bool) : VideoWriter :=
  mkVideoWriter (fname self) (fourcc self) (dimension self) (fps self) (color self)
    (origin self) (encoded self) b (Q self) (stopped self) (t self)
    (frame_number self).

(** [VideoWriter.__init__]. The four-character code is unpacked into the
    four arguments of [cv2.VideoWriter_fourcc]. *)
Definition VideoWriter_init (name code : string) (w h rate : Z) (col : bool)
  : result VideoWriter :=
  if Nat.eqb (String.length code) 4 then
    Ok (mkVideoWriter name code (w, h) rate col None [] false [] false Unstarted 0)
  else Raise TypeError.

(** [VideoCropper.__init__]. *)
Definition VideoCropper_init (name code : string) (x y w h rate : Z) (col : bool)
  : result VideoWriter :=
  self <- VideoWriter_init name code w h rate col ;;
  Ok (mkVideoWriter (fname self) (fourcc self) (dimension self) (fps self) (color self)
        (Some (x, y)) (encoded self) (released self) (Q self) (stopped self) (t self)
        (frame_number self)).

(** [self.running()]. *)
Definition running (self : VideoWriter) : bool := negb (stopped self).

(** [self.t.is_alive()]. *)
Definition is_alive (pc : writer_pc frame) : bool :=
  match pc with
  | Unstarted | Exited => false
  | _ => true
  end.

(** [self.Q.full()], which in Python 2 tests whether the queue holds
    exactly [maxsize] items, and [self.Q.empty()]. *)
Definition full (q : list frame) : bool := Nat.eqb (length q) maxsize.
Definition empty (q : list frame) : bool :=
  match q with [] => true | _ => false end.

(** What [write] hands to the queue: the frame itself for a
    [VideoWriter], [frame[self.y:self.y+self.h, self.x:self.x+self.w]]
    for a [VideoCropper]. *)
Definition queued_form (self : VideoWriter) (f : frame) : frame :=
  match origin self with
  | None => f
  | Some (x, y) => crop x y (fst (dimension self)) (snd (dimension self)) f
  end.

(** One statement of [VideoWriter.writer], run by the worker thread. A
    [get] on an empty queue waits. *)
Definition writer (self : VideoWriter) : VideoWriter :=
  match t self with
  | Unstarted => self
  | WhileRunning =>
      if running self then with_t self IfQueued else with_t self WhileDrain
  | IfQueued =>
      if negb (empty (Q self)) then with_t self Get else with_t self WhileRunning
  | Get =>
      match Q self with
      | [] => self
      | f :: q => with_t (with_Q self q) (Count f)
      end
  | Count f => with_t (with_frame_number self (frame_number self + 1)) (Encode f)
  | Encode f => with_t (with_encoded self (encoded self ++ [f])) WhileRunning
  | WhileDrain =>
      if negb (empty (Q self)) then with_t self DrainGet else with_t self Release
  | DrainGet =>
      match Q self with
      | [] => self
      | f :: q => with_t (with_Q self q) (DrainCount f)
      end
  | DrainCount f => with_t (with_frame_number self (frame_number self + 1)) (DrainEncode f)
  | DrainEncode f => with_t (with_encoded self (encoded self ++ [f])) WhileDrain
  | Release => with_t (with_released self true) Exited
  | Exited => self
  end.

(** *** The calling thread *)

(** The calls a client makes on a sink. *)
Inductive call : Type :=
| Start
| Write (f : frame)
| Stop.

(** Where the calling thread stands. *)
Inductive caller_pc : Type :=
| Between                        (* no call in progress *)
| WriteFull (f : frame)          (* [write]: [while self.Q.full(): pass] *)
| WritePut (f : frame)           (* [write]: [self.Q.put(...)] *)
| Join                           (* [stop]: [self.t.join()] *)
| Raised (e : exn).              (* an exception left the call *)

(** A sink, its caller, the calls still to make, and the frames whose
    [write] has put them in the queue (in their queued form). *)
Record system : Type := mkSystem {
  sink : VideoWriter;
  caller : caller_pc;
  todo : list call;
  accepted : list frame
}.

(** One statement of the calling thread. [Thread.start] and [Thread.join]
    raise [RuntimeError] on a thread started twice or never started. *)
Definition caller_step (s : system) : system :=
  let self := sink s in
  match caller s with
  | Between =>
      match todo s with
      | [] => s
      | Start :: rest =>
          match t self with
          | Unstarted => mkSystem (with_t self WhileRunning) Between rest (accepted s)
          | _ => mkSystem self (Raised RuntimeError) rest (accepted s)
          end
      | Write f :: rest =>
          if is_alive (t self)
          then mkSystem self (WriteFull f) rest (accepted s)
          else mkSystem self (Raised (IOError "The writer is not ready")) rest (accepted s)
      | Stop :: rest =>
          mkSystem (with_stopped self true) Join rest (accepted s)
      end
  | WriteFull f =>
      if full (Q self) then s
      else mkSystem self (WritePut f) (todo s) (accepted s)
  | WritePut f =>
      if full (Q self) then s
      else mkSystem (with_Q self (Q self ++ [queued_form self f])) Between (todo s)
             (accepted s ++ [queued_form self f])
  | Join =>
      match t self with
      | Unstarted => mkSystem self (Raised RuntimeError) (todo s) (accepted s)
      | Exited => mkSystem self Between (todo s) (accepted s)
      | _ => s
      end
  | Raised _ => s
  end.

Definition worker_step (s : system) : system :=
  mkSystem (writer (sink s)) (caller s) (todo s) (accepted s).

Inductive thread : Type := Caller | Worker.

Definition step (who : thread) (s : system) : system :=
  match who with
  | Caller => caller_step s
  | Worker => worker_step s
  end.

(** The state after the threads have run in the order [schedule]. *)
Fixpoint run (schedule : list thread) (s : system) : system :=
  match schedule with
  | [] => s
  | who :: rest => run rest (step who s)
  end.

(** A client that starts the sink, writes [frames], and stops it. *)
Definition session (frames : list frame) : list call :=
  Start :: map Write frames ++ [Stop].

Definition boot (self : VideoWriter) (calls : list call) : system :=
  mkSystem self Between calls [].

(** *** Calls seen from a caller that lets the worker run only while it
    waits *)

(** [n] statements of the worker thread. *)
Fixpoint work (n : nat) (self : VideoWriter) : VideoWriter :=
  match n with
  | O => self
  | S k => work k (writer self)
  end.

(** [start()]. *)
Definition start_call (self : VideoWriter) : result VideoWriter :=
  match t self with
  | Unstarted => Ok (with_t self WhileRunning)
  | _ => Raise RuntimeError
  end.

(** [write(frame)]: on a full queue the caller waits while the worker
    runs through its loop once, five statements at most. *)
Definition write_call (f : frame) (self : VideoWriter) : result VideoWriter :=
  if is_alive (t self) then
    let self := if full (Q self) then work 5 self else self in
    if full (Q self) then Blocks
    else Ok (with_Q self (Q self ++ [queued_form self f]))
  else Raise (IOError "The writer is not ready").

(** [stop()]: the caller sets the flag and waits in [join] while the
    worker runs; five statements for each queued frame and eight more
    bring a looping worker to its end. *)
Definition stop_call (self : VideoWriter) : result VideoWriter :=
  let self := with_stopped self true in
  match t self with
  | Unstarted => Raise RuntimeError
  | _ =>
      let self := work (5 * length (Q self) + 8) self in
      match t self with
      | Exited => Ok self
      | _ => Blocks
      end
  end.

(** The calling thread has made all its calls and the last one has
    returned. *)
Definition finished (s : system) : bool :=
  match caller s, todo s with
  | Between, [] => true
  | _, _ => false
  end.

End Writer.

Arguments Start {pixel}.
Arguments Write {pixel} f.
Arguments Stop {pixel}.
Arguments Between {pixel}.
Arguments WriteFull {pixel} f.
Arguments WritePut {pixel} f.
Arguments Join {pixel}.
Arguments Raised {pixel} e.

End Sink.

(** ** FrameSource: [VideoStream] *)

Module Source.

(** Modelled from the spec: the decode handle ([cv2.VideoCapture]), which
    belongs to the OpenCV binding and not to the repository. It reports
    frame rate, frame count and geometry, keeps a position counter, and
    grabs and retrieves frames one after the other. [cam_pos] is the
    counter, property [CAP_PROP_POS_FRAMES] (number 1): the index of the
    frame decoded next. [cam_seekable] says whether the container honours
    a [set] of that property, which the source does not rely on.
    [cam_glitches] lists, for the coming calls of [grab], whether the
    call fails on a transient decoding error. *)
Record Camera : Type := mkCamera {
  cam_fps : QArith_base.Q;
  cam_frame_count : Z;
  cam_width : Z;
  cam_height : Z;
  cam_pos : Z;
  cam_seekable : bool;
  cam_glitches : list bool;
  cam_open : bool
}.

Definition cam_with_pos (c : Camera) (p : Z) : Camera :=
  mkCamera (cam_fps c) (cam_frame_count c) (cam_width c) (cam_height c) p
    (cam_seekable c) (cam_glitches c) (cam_open c).

Definition cam_with_glitches (c : Camera) (g : list bool) : Camera :=
  mkCamera (cam_fps c) (cam_frame_count c) (cam_width c) (cam_height c) (cam_pos c)
    (cam_seekable c) g (cam_open c).

(** [camera.set(CAP_PROP_POS_FRAMES, n)]. *)
Definition cam_set (c : Camera) (n : Z) : Camera :=
  if cam_seekable c then cam_with_pos c n else c.

(** [camera.grab()]: fails past the last frame and on a glitch; a
    successful grab advances the position. *)
Definition cam_grab (c : Camera) : bool * Camera :=
  if cam_frame_count c <=? cam_pos c then (false, c)
  else match cam_glitches c with
       | true :: g => (false, cam_with_glitches c g)
       | false :: g => (true, cam_with_pos (cam_with_glitches c g) (cam_pos c + 1))
       | [] => (true, cam_with_pos c (cam_pos c + 1))
       end.

(** [camera.release()]. *)
Definition cam_release (c : Camera) : Camera :=
  mkCamera (cam_fps c) (cam_frame_count c) (cam_width c) (cam_height c) (cam_pos c)
    (cam_seekable c) (cam_glitches c) false.

(** A decoded frame is represented by its index in the file.
    [camera.retrieve()] returns the frame grabbed last. *)
Definition frame : Type := Z.
Definition cam_retrieve (c : Camera) : frame := cam_pos c - 1.

(** Where the worker thread [self.t] stands in [VideoStream.reader]. *)
Inductive reader_pc : Type :=
| Unstarted                      (* [start] not called yet *)
| WhileNotStopped                (* [while not self.stopped.is_set():] *)
| IfNotFull                      (* [if not self.Q.full():] *)
| IfReachedEnd                   (* [if self.cap_position >= self.end.frame_number:] *)
| SetStopped                     (* [self.stopped.set()] followed by [break] *)
| ReadPosition                   (* [self.cap_position = self.camera.get(1)] *)
| IfAfter                        (* [if self.after():] *)
| Grab                           (* [grabbed = self.camera.grab()] *)
| WhileNotGrabbed (grabbed : bool) (* [while not grabbed:] and the grab in its body *)
| Retrieve                       (* [(grabbed, frame) = self.camera.retrieve()] *)
| IfNotBefore (f : frame)        (* [if not self.before():] *)
| Put (f : frame)                (* [self.Q.put(frame)] *)
| ReleaseCamera                  (* [self.camera.release()] *)
| SetReleased                    (* [self.released.set()] *)
| Exited                         (* [reader] has returned *)
| Died (e : exn).                (* an exception ended the thread *)

(** [Queue(maxsize=128)]. *)
Definition maxsize : nat := 128.

Record VideoStream : Type := mkVideoStream {
  fname : string;
  camera : Camera;
  fps : QArith_base.Q;
  length : Z;
  width : Z;
  height : Z;
  beginning : Time.VideoTime;
  end_ : option Time.VideoTime;
  quiet : bool;
  frame_number : Z;
  cap_position : Z;
  Q : list frame;
  stopped : bool;
  released : bool;
  t : reader_pc
}.

Definition with_camera (self : VideoStream) (x : Camera) : VideoStream :=
  mkVideoStream (fname self) x (fps self) (length self) (width self)
    (height self) (beginning self) (end_ self) (quiet self)
    (frame_number self) (cap_position self) (Q self) (stopped self)
    (released self) (t self).

Definition with_beginning (self : VideoStream) (x : Time.VideoTime) : VideoStream :=
  mkVideoStream (fname self) (camera self) (fps self) (length self)
    (width self) (height self) x (end_ self) (quiet self) (frame_number self)
    (cap_position self) (Q self) (stopped self) (released self) (t self).

Definition with_end (self : VideoStream) (x : option Time.VideoTime) : VideoStream :=
  mkVideoStream (fname self) (camera self) (fps self) (length self)
    (width self) (height self) (beginning self) x (quiet self)
    (frame_number self) (cap_position self) (Q self) (stopped self)
    (released self) (t self).

Definition with_frame_number (self : VideoStream) (x : Z) : VideoStream :=
  mkVideoStream (fname self) (camera self) (fps self) (length self)
    (width self) (height self) (beginning self) (end_ self) (quiet self) x
    (cap_position self) (Q self) (stopped self) (released self) (t self).

Definition with_cap_position (self : VideoStream) (x : Z) : VideoStream :=
  mkVideoStream (fname self) (camera self) (fps self) (length self)
    (width self) (height self) (beginning self) (end_ self) (quiet self)
    (frame_number self) x (Q self) (stopped self) (released self) (t self).

Definition with_Q (self : VideoStream) (x : list frame) : VideoStream :=
  mkVideoStream (fname self) (camera self) (fps self) (length self)
    (width self) (height self) (beginning self) (end_ self) (quiet self)
    (frame_number self) (cap_position self) x (stopped self) (released self)
    (t self).

Definition with_stopped (self : VideoStream) (x : bool) : VideoStream :=
  mkVideoStream (fname self) (camera self) (fps self) (length self)
    (width self) (height self) (beginning self) (end_ self) (quiet self)
    (frame_number self) (cap_position self) (Q self) x (released self)
    (t self).

Definition with_released (self : VideoStream) (x : bool) : VideoStream :=
  mkVideoStream (fname self) (camera self) (fps self) (length self)
    (width self) (height self) (beginning self) (end_ self) (quiet self)
    (frame_number self) (cap_position self) (Q self) (stopped self) x (t self).

Definition with_t (self : VideoStream) (x : reader_pc) : VideoStream :=
  mkVideoStream (fname self) (camera self) (fps self) (length self)
    (width self) (height self) (beginning self) (end_ self) (quiet self)
    (frame_number self) (cap_position self) (Q self) (stopped self)
    (released self) x.

(** [set_beginning]. *)
Definition set_beginning (self : VideoStream) (timestamp : option Time.expression)
  : result VideoStream :=
  let timestamp := match timestamp with
                   | None => Time.OfStr "0:0:0"
                   | Some e => e
                   end in
  b <- Time.VideoTime_init timestamp (fps self) ;;
  Ok (with_camera (with_beginning self b)
        (cam_set (camera self) (Time.frame_number b))).

(** [set_end]. *)
Definition set_end (self : VideoStream) (timestamp : option Time.expression)
  : result VideoStream :=
  match timestamp with
  | None =>
      e <- Time.frame_videotime (length self) (fps self) ;;
      Ok (with_end self (Some e))
  | Some ts =>
      e <- Time.VideoTime_init ts (fps self) ;;
      Ok (with_end self (Some e))
  end.

(** [VideoStream.__init__]. Before [set_beginning] and [set_end] have run
    the two attributes do not exist; the record is filled with the values
    they are about to receive. *)
Definition VideoStream_init (name : string) (cam : Camera)
  (beginning_ts end_ts : option Time.expression) (silent : bool)
  : result VideoStream :=
  let rate := cam_fps cam in
  b <- Time.VideoTime_init (match beginning_ts with
                            | None => Time.OfStr "0:0:0"
                            | Some e => e
                            end) rate ;;
  let blank := mkVideoStream name cam rate (cam_frame_count cam) (cam_width cam)
                 (cam_height cam) b None silent 0 0 [] false false Unstarted in
  self <- set_beginning blank beginning_ts ;;
  self <- set_end self end_ts ;;
  Ok (with_cap_position self (Time.frame_number (beginning self))).

(** [running], [before], [after], [in_range]. *)
Definition running (self : VideoStream) : bool := negb (stopped self).

Definition before (self : VideoStream) : bool :=
  cap_position self <? Time.frame_number (beginning self).

Definition after (self : VideoStream) : bool :=
  match end_ self with
  | None => false
  | Some e => Time.frame_number e <=? cap_position self
  end.

Definition in_range (self : VideoStream) : bool :=
  negb (before self && after self).

(** [self.t.is_alive()]. *)
Definition is_alive (pc : reader_pc) : bool :=
  match pc with
  | Unstarted | Exited | Died _ => false
  | _ => true
  end.

Definition full (q : list frame) : bool := Nat.eqb (List.length q) maxsize.
Definition qsize (q : list frame) : nat := List.length q.

(** One statement of [VideoStream.reader], run by the worker thread.
    Reading [self.end.frame_number] when [self.end] is [None] raises
    [AttributeError], which ends the thread. A [put] on a full queue
    waits. *)
Definition reader (self : VideoStream) : VideoStream :=
  match t self with
  | Unstarted => self
  | WhileNotStopped =>
      if negb (stopped self) then with_t self IfNotFull
      else with_t self ReleaseCamera
  | IfNotFull =>
      if negb (full (Q self)) then with_t self IfReachedEnd
      else with_t self WhileNotStopped
  | IfReachedEnd =>
      match end_ self with
      | None => with_t self (Died AttributeError)
      | Some e =>
          if Time.frame_number e <=? cap_position self
          then with_t self SetStopped
          else with_t self ReadPosition
      end
  | SetStopped => with_t (with_stopped self true) ReleaseCamera
  | ReadPosition =>
      with_t (with_cap_position self (cam_pos (camera self))) IfAfter
  | IfAfter =>
      if after self then with_t self SetStopped else with_t self Grab
  | Grab =>
      let (grabbed, cam) := cam_grab (camera self) in
      with_t (with_camera self cam) (WhileNotGrabbed grabbed)
  | WhileNotGrabbed grabbed =>
      if negb grabbed then
        let (again, cam) := cam_grab (camera self) in
        with_t (with_camera self cam) (WhileNotGrabbed again)
      else with_t self Retrieve
  | Retrieve => with_t self (IfNotBefore (cam_retrieve (camera self)))
  | IfNotBefore f =>
      if negb (before self) then with_t self (Put f)
      else with_t self WhileNotStopped
  | Put f =>
      if full (Q self) then self
      else with_t (with_Q self (Q self ++ [f])) WhileNotStopped
  | ReleaseCamera => with_t (with_camera self (cam_release (camera self))) SetReleased
  | SetReleased => with_t (with_released self true) Exited
  | Exited => self
  | Died _ => self
  end.

(** *** The calling thread *)

(** The calls a client makes on a source; [Iterate] is the loop
    [for frame in stream], which calls [next] until [read] returns
    [None]. *)
Inductive call : Type :=
| Start
| Read
| Iterate
| Stop
| SetBeginning (timestamp : option Time.expression)
| SetEnd (timestamp : option Time.expression).

(** Where the calling thread stands; [looping] tells a [read] made by
    [Iterate] from a single [Read]. *)
Inductive caller_pc : Type :=
| Between                          (* no call in progress *)
| ReadWhileEmpty (looping : bool)  (* [while not self.Q.qsize():] *)
| ReadIfDead (looping : bool)      (* [if not self.t.is_alive(): return] *)
| ReadIfStopped (looping : bool)   (* [if self.stopped.is_set(): return] *)
| ReadCount (looping : bool)       (* [self.frame_number += 1] *)
| ReadGet (looping : bool)         (* [return self.Q.get()] *)
| Join                             (* [stop]: [self.t.join()] *)
| Raised (e : exn).                (* an exception left the call *)

(** A source, its caller, the calls still to make, and what the calls of
    [read] have returned so far, oldest first ([None] is the end of the
    stream). *)
Record system : Type := mkSystem {
  stream : VideoStream;
  caller : caller_pc;
  todo : list call;
  returned : list (option frame)
}.

(** [read] returns [r]. *)
Definition read_returns (s : system) (self : VideoStream) (looping : bool)
  (r : option frame) : system :=
  match r, looping with
  | Some _, true => mkSystem self (ReadWhileEmpty true) (todo s) (returned s ++ [r])
  | _, _ => mkSystem self Between (todo s) (returned s ++ [r])
  end.

(** One statement of the calling thread. *)
Definition caller_step (s : system) : system :=
  let self := stream s in
  match caller s with
  | Between =>
      match todo s with
      | [] => s
      | Start :: rest =>
          match t self with
          | Unstarted => mkSystem (with_t self WhileNotStopped) Between rest (returned s)
          | _ => mkSystem self (Raised RuntimeError) rest (returned s)
          end
      | Read :: rest => mkSystem self (ReadWhileEmpty false) rest (returned s)
      | Iterate :: rest => mkSystem self (ReadWhileEmpty true) rest (returned s)
      | Stop :: rest => mkSystem (with_stopped self true) Join rest (returned s)
      | SetBeginning ts :: rest =>
          match set_beginning self ts with
          | Ok self' => mkSystem self' Between rest (returned s)
          | Raise e => mkSystem self (Raised e) rest (returned s)
          | Blocks => s
          end
      | SetEnd ts :: rest =>
          match set_end self ts with
          | Ok self' => mkSystem self' Between rest (returned s)
          | Raise e => mkSystem self (Raised e) rest (returned s)
          | Blocks => s
          end
      end
  | ReadWhileEmpty looping =>
      if Nat.eqb (qsize (Q self)) 0
      then mkSystem self (ReadIfDead looping) (todo s) (returned s)
      else mkSystem self (ReadCount looping) (todo s) (returned s)
  | ReadIfDead looping =>
      if negb (is_alive (t self)) then read_returns s self looping None
      else mkSystem self (ReadIfStopped looping) (todo s) (returned s)
  | ReadIfStopped looping =>
      if stopped self then read_returns s self looping None
      else mkSystem self (ReadWhileEmpty looping) (todo s) (returned s)
  | ReadCount looping =>
      mkSystem (with_frame_number self (frame_number self + 1)) (ReadGet looping)
        (todo s) (returned s)
  | ReadGet looping =>
      match Q self with
      | [] => s
      | f :: q => read_returns s (with_Q self q) looping (Some f)
      end
  | Join =>
      match t self with
      | Unstarted => mkSystem self (Raised RuntimeError) (todo s) (returned s)
      | Exited | Died _ => mkSystem self Between (todo s) (returned s)
      | _ => s
      end
  | Raised _ => s
  end.

Definition worker_step (s : system) : system :=
  mkSystem (reader (stream s)) (caller s) (todo s) (returned s).

Inductive thread : Type := Caller | Worker.

Definition step (who : thread) (s : system) : system :=
  match who with
  | Caller => caller_step s
  | Worker => worker_step s
  end.

(** The state after the threads have run in the order [schedule]. *)
Fixpoint run (schedule : list thread) (s : system) : system :=
  match schedule with
  | [] => s
  | who :: rest => run rest (step who s)
  end.

Definition boot (self : VideoStream) (calls : list call) : system :=
  mkSystem self Between calls [].

(** The frames the calls of [read] have handed to the client. *)
Definition frames_of (rs : list (option frame)) : list frame :=
  flat_map (fun r => match r with Some f => [f] | None => [] end) rs.

Definition obtained (s : system) : list frame := frames_of (returned s).

(** The calling thread has made all its calls and the last one has
    returned. *)
Definition finished (s : system) : bool :=
  match caller s, todo s with
  | Between, [] => true
  | _, _ => false
  end.

End Source.

(** ** Binary floating point: the arithmetic of the elapsed time *)

Module Binary64.

(** [2 ^ e], for an exponent of either sign. *)
Definition two_to (e : Z) : Q :=
  if 0 <=? e then inject_Z (2 ^ e) else 1 # Z.to_pos (2 ^ (- e)).

(** The exponent [e] of a number other than zero:
    [2 ^ e <= |q| < 2 ^ (e + 1)]. *)
Definition exponent (q : Q) : Z :=
  let e := Z.log2 (Z.abs (Qnum q)) - Z.log2 (Zpos (Qden q)) in
  if Qle_bool (two_to e) (Qabs q) then e else e - 1.

(** The step of the grid of the [float]s around [q]: 52 binary places
    below the exponent of [q], and [2 ^ -1074] for the numbers below
    [2 ^ -1022]. *)
Definition ulp (q : Q) : Q := two_to (Z.max (exponent q) (-1022) - 52).

(** A Python [float]: a finite value, an infinity, or not a number. The
    two zeros are not told apart. *)
Inductive double : Type :=
| Finite (q : Q)
| Infinite (negative : bool)
| NaN.

(** The [float] nearest to the real number [q]: a significand of 53
    bits, ties to the even significand, exponents from [-1022] to
    [1023], smaller numbers on the grid of [2 ^ -1074], and infinity
    from [2 ^ 1024] on. *)
Definition nearest (q : Q) : double :=
  if Qeq_bool q 0 then Finite 0
  else
    let v := Qred (inject_Z (PyText.round_half_even (Qabs q / ulp q)) * ulp q) in
    if Qle_bool (two_to 1024) v then Infinite (negb (Qle_bool 0 q))
    else Finite (if Qle_bool 0 q then v else Qred (- v)).

(** [a + b]. *)
Definition add (a b : double) : double :=
  match a, b with
  | Finite x, Finite y => nearest (x + y)
  | Finite _, Infinite s => Infinite s
  | Infinite s, Finite _ => Infinite s
  | Infinite s, Infinite s' => if Bool.eqb s s' then Infinite s else NaN
  | _, _ => NaN
  end.

(** [1.0 / x] for a finite [x] other than zero. *)
Definition inverse (x : Q) : double := nearest (1 / x).

(** [a >= x] for a finite [x]. *)
Definition reaches (a : double) (x : Q) : bool :=
  match a with
  | Finite q => Qle_bool x q
  | Infinite negative => negb negative
  | NaN => false
  end.

End Binary64.

(** ** StreamOrchestrator: the frame loop of [video_crop.py] *)

Module Orchestrator.
Import Image.

Section Main.
Variable pixel : Type.
Local Abbreviation frame := (image pixel) (only parsing).

(** The dictionary built by [read_crops], in its iteration order: output
    file name and rectangle [(x, y, w, h)]. *)
Definition crops_table : Type := list (string * (Z * Z * Z * Z)).

(** The entries of [Options] the frame loop reads. *)
Record Options : Type := mkOptions {
  color : bool;
  fourcc : string;
  fps : Z;
  start : Time.TimeStamp;
  splits : list Time.TimeStamp
}.

(** [options['start'].seconds]: the attribute is a [float]. *)
Definition start_seconds (options : Options) : Binary64.double :=
  Binary64.Finite (Time.seconds (start options)).

(** [get_croppers_array]. *)
Definition get_croppers_array (crops : crops_table) (code : string) (rate : Z)
  (col : bool) (prefix : string) : result (list (Sink.VideoWriter pixel)) :=
  for_each (fun entry : string * (Z * Z * Z * Z) =>
              let '(name, (x, y, w, h)) := entry in
              Sink.VideoCropper_init pixel (prefix ++ name) code x y w h rate col)
           crops.

(** The variables of [main] that change in the frame loop. [closed] is
    not a variable of the program: it keeps the groups of croppers that
    were stopped and replaced, oldest first, so that what they wrote
    can be examined. *)
Record state : Type := mkState {
  remaining_splits : list Time.TimeStamp;   (* [options['splits']] *)
  j : Z;
  croppers : list (Sink.VideoWriter pixel);
  elapsed_seconds : Binary64.double;
  closed : list (list (Sink.VideoWriter pixel))
}.

(** ["part" + str(j) + "_"]. *)
Definition part_prefix (n : Z) : string := ("part" ++ PyText.str_int n ++ "_")%string.

(** The statements of [main] between [try:] and the loop over the input
    files. *)
Definition prepare (options : Options) (crops : crops_table) : result state :=
  let prefix := match splits options with
                | [] => EmptyString
                | _ => "part1_"%string
                end in
  fresh <- get_croppers_array crops (fourcc options) (fps options) (color options) prefix ;;
  started <- for_each (@Sink.start_call pixel) fresh ;;
  Ok (mkState (splits options) 1 started (start_seconds options) []).

(** The body of [for frame in stream], for a stream of rate [rate], a
    finite [float]. [elapsed_seconds] is a [float] too: the quotient
    [1.0/stream.fps] and the sum are each rounded to the nearest
    [float], and the sum is compared with the seconds of the next
    split, themselves a [float]. *)
Definition on_frame (options : Options) (crops : crops_table) (st : state)
  (rate : Q) (f : frame) : result state :=
  if Qeq_bool rate 0 then Raise ZeroDivisionError
  else
    let elapsed := Binary64.add (elapsed_seconds st) (Binary64.inverse rate) in
    st <- match remaining_splits st with
          | next :: later =>
              if Binary64.reaches elapsed (Time.seconds next) then
                halted <- for_each (@Sink.stop_call pixel) (croppers st) ;;
                let j' := j st + 1 in
                fresh <- get_croppers_array crops (fourcc options) (fps options)
                           (color options) (part_prefix j') ;;
                started <- for_each (@Sink.start_call pixel) fresh ;;
                Ok (mkState later j' started elapsed (closed st ++ [halted]))
              else Ok (mkState (remaining_splits st) (j st) (croppers st) elapsed (closed st))
          | [] => Ok (mkState (remaining_splits st) (j st) (croppers st) elapsed (closed st))
          end ;;
    wrote <- for_each (Sink.write_call f) (croppers st) ;;
    Ok (mkState (remaining_splits st) (j st) wrote (elapsed_seconds st) (closed st)).

(** The frames of the input files in the order the loops consume them,
    each with the rate of the stream it comes from. *)
Definition footage : Type := list (Q * frame).

Fixpoint consume (options : Options) (crops : crops_table) (st : state)
  (input : footage) : result state :=
  match input with
  | [] => Ok st
  | (rate, f) :: rest =>
      st <- on_frame options crops st rate f ;;
      consume options crops st rest
  end.

(** [main] from [try:] to the end of the [finally:] block, on a run where
    nothing raises: the groups of croppers, oldest first, each as its
    [stop] left it. *)
Definition main (options : Options) (crops : crops_table) (input : footage)
  : result (list (list (Sink.VideoWriter pixel))) :=
  st <- prepare options crops ;;
  st <- consume options crops st input ;;
  halted <- for_each (@Sink.stop_call pixel) (croppers st) ;;
  Ok (closed st ++ [halted]).

(** What one output file holds: its name and the frames encoded into
    it. *)
Definition written (group : list (Sink.VideoWriter pixel)) : list (string * list frame) :=
  map (fun c => (Sink.fname c, Sink.encoded c)) group.

End Main.
End Orchestrator.

(** ** Predicates used to state the properties *)

Module SinkState.
Import Image Sink.

Section Predicates.
Variable pixel : Type.
Local Abbreviation frame := (image pixel) (only parsing).

(** A sink as its constructor leaves it. *)
Definition fresh (self : VideoWriter pixel) : Prop :=
  t self = Unstarted /\ Q self = [] /\ encoded self = [] /\ stopped self = false
  /\ released self = false /\ frame_number self = 0.

(** The frame the worker holds between [get] and [vw.write]. *)
Definition in_hand (pc : writer_pc frame) : list frame :=
  match pc with
  | Count f | Encode f | DrainCount f | DrainEncode f => [f]
  | _ => []
  end.

(** Whether the worker has counted the frame it holds. *)
Definition counted (pc : writer_pc frame) : Z :=
  match pc with
  | Encode _ | DrainEncode _ => 1
  | _ => 0
  end.

(** The worker has left its first loop. *)
Definition draining (pc : writer_pc frame) : bool :=
  match pc with
  | WhileDrain | DrainGet | DrainCount _ | DrainEncode _ | Release | Exited => true
  | _ => false
  end.

(** The caller is inside [write f], past the test of [is_alive]. *)
Definition in_write (f : frame) (pc : caller_pc pixel) : Prop :=
  pc = WriteFull f \/ pc = WritePut f.

(** What holds of the sink and its worker at every moment. *)
Definition worker_inv (s : system pixel) : Prop :=
  let self := sink s in
  accepted s = encoded self ++ in_hand (t self) ++ Q self
  /\ frame_number self = Z.of_nat (length (encoded self)) + counted (t self)
  /\ (t self = Get \/ t self = DrainGet -> Q self <> [])
  /\ (t self = Release \/ t self = Exited -> Q self = [])
  /\ (released self = true <-> t self = Exited)
  /\ (draining (t self) = true -> stopped self = true).

(** Where the caller of [session frames] stands, given the sink [self0]
    it started from. *)
Definition caller_inv (self0 : VideoWriter pixel) (frames : list frame)
  (s : system pixel) : Prop :=
  let self := sink s in
  let sent := map (queued_form self0) in
  origin self = origin self0 /\ dimension self = dimension self0
  /\ match caller s with
     | Between =>
         (t self = Unstarted /\ todo s = session frames /\ accepted s = []
          /\ stopped self = false)
         \/ (exists done rest,
                frames = done ++ rest /\ todo s = map Write rest ++ [Stop]
                /\ accepted s = sent done /\ stopped self = false
                /\ t self <> Unstarted)
         \/ (todo s = [] /\ accepted s = sent frames /\ t self = Exited)
     | WriteFull f | WritePut f =>
         exists done rest,
           frames = done ++ f :: rest /\ todo s = map Write rest ++ [Stop]
           /\ accepted s = sent done /\ stopped self = false
           /\ t self <> Unstarted
     | Join =>
         todo s = [] /\ accepted s = sent frames /\ stopped self = true
         /\ t self <> Unstarted
     | Raised _ => False
     end.

(** A bound on the statements the caller has still to run, waits on the
    worker apart: three for a call not begun, fewer for the call in
    progress. *)
Definition effort (s : system pixel) : nat :=
  match caller s with
  | Between => 3 * length (todo s)
  | WriteFull _ => 3 * length (todo s) + 2
  | WritePut _ | Join => 3 * length (todo s) + 1
  | Raised _ => 0
  end.

(** How far the call [write f] made in state [s0] has got in state [s],
    [rest] being the calls that follow it: a later call has begun, or
    the caller is still inside [write] and nothing more was accepted, or
    [write] has returned after putting the frame in the queue. *)
Definition write_progress (s0 : system pixel) (f : frame) (rest : list (call pixel))
  (s : system pixel) : Prop :=
  origin (sink s) = origin (sink s0) /\ dimension (sink s) = dimension (sink s0)
  /\ ((length (todo s) < length rest)%nat
      \/ (todo s = rest
          /\ ((in_write f (caller s) /\ accepted s = accepted s0)
              \/ (caller s = Between
                  /\ accepted s = accepted s0 ++ [queued_form (sink s0) f])))).

(** A started sink between two calls, when its worker runs only while the
    caller waits: the worker is at the head of its loop. *)
Definition idle (self : VideoWriter pixel) : Prop :=
  t self = WhileRunning /\ stopped self = false /\ released self = false
  /\ (length (Q self) <= maxsize)%nat
  /\ frame_number self = Z.of_nat (length (encoded self)).

(** The frames a sink has taken in and not lost: encoded or queued. *)
Definition pending (self : VideoWriter pixel) : list frame :=
  encoded self ++ Q self.

(** The sink [drained] is [self] after the worker has encoded the whole
    queue and released the handle. *)
Definition drained (self : VideoWriter pixel) : VideoWriter pixel :=
  mkVideoWriter (fname self) (fourcc self) (dimension self) (fps self) (color self)
    (origin self) (encoded self ++ Q self) true [] true Exited
    (frame_number self + Z.of_nat (length (Q self))).

End Predicates.

(** A writer of frames of two rows and two columns, three such frames,
    and a schedule in which the caller and the worker run a statement
    each in turn, [n] times. *)
Definition small_writer : VideoWriter nat :=
  mkVideoWriter "out.avi" "MJPG" (2, 2) 25 true None [] false [] false Unstarted 0.

Definition small_frame (n : nat) : image nat :=
  synthetic 2 2 (fun r c => (100 * n + 10 * r + c)%nat).

Definition three_small_frames : list (image nat) :=
  [small_frame 1; small_frame 2; small_frame 3].

Definition in_turn (n : nat) : list thread :=
  List.concat (repeat [Caller; Worker] n).

(** The session of three frames on the small writer, run to its end; a
    fourth [write] attempted after it; and a [write] on the small writer
    just started. *)
Definition closed_session : system nat :=
  run (in_turn 40) (boot small_writer (session three_small_frames)).

Definition late_write : system nat :=
  mkSystem (sink closed_session) Between [Write (small_frame 4)]
    (accepted closed_session).

Definition early_write : system nat :=
  mkSystem (with_t small_writer WhileRunning) Between [Write (small_frame 4); Stop] [].

End SinkState.

Module SourceState.
Import Source.

(** The attribute [end] holds a [VideoTime]. *)
Definition end_is_set (self : VideoStream) : Prop :=
  exists v, end_ self = Some v.

(** The worker has not died of an exception. *)
Definition worker_sound (self : VideoStream) : Prop :=
  forall x, t self <> Died x.

(** Calls that leave the window of the source alone. *)
Definition passive (c : call) : Prop :=
  match c with
  | SetBeginning _ | SetEnd _ => False
  | _ => True
  end.

(** The frames the worker has put in the queue so far: those handed to
    the client and those still queued. *)
Definition delivered (s : system) : Z :=
  Z.of_nat (List.length (obtained s)) + Z.of_nat (List.length (Q (stream s))).

(** The number of positions of the window from [B] to [E], [E] excluded,
    that lie below [p]. *)
Definition room (B E p : Z) : Z := Z.max 0 (Z.min p E - B).

(** What holds at every moment of a source whose window runs from frame
    number [B] to frame number [E], for a client that makes passive calls
    only. *)
Definition reader_inv (B E : Z) (s : system) : Prop :=
  let self := stream s in
  Time.frame_number (beginning self) = B
  /\ (exists e, end_ self = Some e /\ Time.frame_number e = E)
  /\ Forall passive (todo s)
  /\ match t self with
     | IfAfter =>
         cap_position self = cam_pos (camera self)
         /\ delivered s <= room B E (cam_pos (camera self))
     | Grab | WhileNotGrabbed false =>
         cap_position self = cam_pos (camera self)
         /\ cap_position self < E
         /\ delivered s <= room B E (cam_pos (camera self))
     | WhileNotGrabbed true | Retrieve | IfNotBefore _ =>
         cam_pos (camera self) = cap_position self + 1
         /\ cap_position self < E
         /\ delivered s <= room B E (cap_position self)
     | Put _ =>
         cam_pos (camera self) = cap_position self + 1
         /\ cap_position self < E
         /\ B <= cap_position self
         /\ delivered s <= room B E (cap_position self)
     | _ => delivered s <= room B E (cam_pos (camera self))
     end.

(** The worker has stopped: the flag is set and the thread has left its
    loop, to release the decode handle and end. *)
Definition worker_stopped (self : VideoStream) : Prop :=
  stopped self = true
  /\ (t self = ReleaseCamera \/ t self = SetReleased \/ t self = Exited).

(** The worker has stopped and the queue is empty. *)
Definition exhausted (self : VideoStream) : Prop :=
  worker_stopped self /\ Q self = [].

(** The number of statements of the caller in a schedule. *)
Definition caller_turns (schedule : list thread) : nat :=
  List.length (filter (fun who => match who with Caller => true | Worker => false end)
                 schedule).

(** An upper bound on the statements the caller still has to run when
    every call left is a [read] that finds the source exhausted. *)
Definition reads_left (s : system) : nat :=
  (4 * List.length (todo s)
   + match caller s with
     | ReadWhileEmpty _ => 3
     | ReadIfDead _ => 2
     | ReadIfStopped _ => 1
     | _ => 0
     end)%nat.

(** The caller is between two calls of [read], or inside one that has
    found the queue empty. *)
Definition reading_empty (pc : caller_pc) : Prop :=
  pc = Between \/ pc = ReadWhileEmpty false \/ pc = ReadIfDead false
  \/ pc = ReadIfStopped false.

(** Of [k] calls of [read] begun in state [s0] on an exhausted source,
    [j] have returned [None] in state [s] and [m] are still to make. *)
Definition reads_done (s0 : system) (k : nat) (s : system) : Prop :=
  exhausted (stream s) /\ reading_empty (caller s)
  /\ exists j m : nat,
      returned s = returned s0 ++ repeat None j
      /\ todo s = repeat Read m
      /\ (j + m + match caller s with Between => 0 | _ => 1 end = k)%nat.

(** A file of three frames at 25 frames per second, and the source
    opened on it without beginning or end. *)
Definition three_frames : Camera := mkCamera 25 3 640 480 0 true [] true.

Definition whole_of_three : VideoStream :=
  match VideoStream_init "three.avi" three_frames None None true with
  | Ok vs => vs
  | _ => mkVideoStream "" three_frames 0 0 0 0
           (Time.mkVideoTime (Time.mkTimeStamp 0 0 0) 0 0) None true 0 0 [] false false
           Unstarted
  end.

(** The caller and the worker run a statement each in turn, [n] times. *)
Definition in_turn (n : nat) : list thread :=
  List.concat (repeat [Caller; Worker] n).

(** The same source once the loop [for frame in stream] has run to its
    end. *)
Definition spent_of_three : VideoStream :=
  stream (run (in_turn 60) (boot whole_of_three [Start; Iterate])).

(** The same source with its worker started and run alone until the
    window is exhausted: frames 1 and 2 are queued. *)
Definition filled_of_three : VideoStream :=
  stream (run (Caller :: repeat Worker 40) (boot whole_of_three [Start])).

End SourceState.

Module OrchestratorState.
Import Image Sink SinkState Orchestrator.

Section Groups.
Variable pixel : Type.
Local Abbreviation frame := (image pixel) (only parsing).

(** The cropper [get_croppers_array] builds for one entry of the
    table. *)
Definition cropper_of (options : Options) (prefix : string)
  (entry : string * (Z * Z * Z * Z)) : VideoWriter pixel :=
  let '(name, (x, y, w, h)) := entry in
  mkVideoWriter (prefix ++ name) (fourcc options) (w, h) (fps options) (color options)
    (Some (x, y)) [] false [] false Unstarted 0.

(** The part of a frame an entry of the table cuts out. *)
Definition cropped (entry : string * (Z * Z * Z * Z)) (f : frame) : frame :=
  let '(_, (x, y, w, h)) := entry in crop x y w h f.

(** The croppers of a group in use, one for each entry of the table and
    in its order: each is idle, writes to the file of the entry under
    [prefix], and has taken in its part of each of [frames]. *)
Definition group_open (crops : crops_table) (prefix : string) (frames : list frame)
  (group : list (VideoWriter pixel)) : Prop :=
  Forall2 (fun entry c =>
             idle c
             /\ fname c = (prefix ++ fst entry)%string
             /\ (forall f, queued_form c f = cropped entry f)
             /\ pending c = map (cropped entry) frames)
          crops group.

(** The croppers of a group after [stop]: the worker of each has ended
    and released its handle, its queue is empty, and its file holds its
    part of each of [frames], in order. *)
Definition group_closed (crops : crops_table) (prefix : string) (frames : list frame)
  (group : list (VideoWriter pixel)) : Prop :=
  Forall2 (fun entry c =>
             fname c = (prefix ++ fst entry)%string
             /\ encoded c = map (cropped entry) frames
             /\ Q c = []
             /\ t c = Exited
             /\ released c = true
             /\ frame_number c = Z.of_nat (length frames))
          crops group.

(** The elapsed time after each frame of [input], from [elapsed] on. *)
Fixpoint clock (elapsed : Binary64.double) (input : footage pixel)
  : list Binary64.double :=
  match input with
  | [] => []
  | (rate, _) :: rest =>
      let elapsed := Binary64.add elapsed (Binary64.inverse rate) in
      elapsed :: clock elapsed rest
  end.

(** The elapsed time after the whole of [input]. *)
Definition elapsed_after (elapsed : Binary64.double) (input : footage pixel)
  : Binary64.double :=
  last (clock elapsed input) elapsed.

(** The rotation as the specification words it: the frames of [input] cut
    into the runs that go to successive groups. [current] holds the frames
    the group in use has received; a frame after which the elapsed time
    has reached the next split closes the run and opens the next one. *)
Fixpoint segments (elapsed : Binary64.double) (pending_splits : list Time.TimeStamp)
  (current : list frame) (input : footage pixel) : list (list frame) :=
  match input with
  | [] => [current]
  | (rate, f) :: rest =>
      let elapsed := Binary64.add elapsed (Binary64.inverse rate) in
      match pending_splits with
      | next :: later =>
          if Binary64.reaches elapsed (Time.seconds next)
          then current :: segments elapsed later [f] rest
          else segments elapsed pending_splits (current ++ [f]) rest
      | [] => segments elapsed [] (current ++ [f]) rest
      end
  end.

(** Runs of frames with the prefixes of their files, numbered from
    [n]. *)
Fixpoint labelled (n : Z) (runs : list (list frame)) : list (string * list frame) :=
  match runs with
  | [] => []
  | run :: rest => (part_prefix n, run) :: labelled (n + 1) rest
  end.

(** Each group is closed and holds the run of the same rank. *)
Definition groups_hold (crops : crops_table) (runs : list (string * list frame))
  (groups : list (list (VideoWriter pixel))) : Prop :=
  Forall2 (fun run group => group_closed crops (fst run) (snd run) group) runs groups.

(** What holds of the variables of [main] between two frames, [done]
    being the runs of the groups already closed and [current] the frames
    written to the group in use. *)
Definition loop_inv (crops : crops_table) (done : list (list frame))
  (current : list frame) (st : state pixel) : Prop :=
  j st = 1 + Z.of_nat (length done)
  /\ group_open crops (part_prefix (j st)) current (croppers st)
  /\ groups_hold crops (labelled 1 done) (closed st).

End Groups.

(** A run at four frames per second, split after half a second and after
    one second, of six frames of three rows and three columns cut into
    two regions. *)
Definition two_splits : Options :=
  mkOptions true "MJPG" 25 (Time.mkTimeStamp 0 0 0)
    [Time.mkTimeStamp (1 # 7200) (1 # 120) (1 # 2); Time.mkTimeStamp (1 # 3600) (1 # 60) 1].

Definition two_regions : crops_table :=
  [("a.avi"%string, (0, 0, 2, 2)); ("b.avi"%string, (1, 1, 2, 2))].

Definition shot (n : nat) : QArith_base.Q * image nat :=
  (4 # 1, synthetic 3 3 (fun r c => (100 * n + 10 * r + c)%nat)).

(** A run at thirty frames per second, split after one second: the sum
    of thirty quotients [1.0/30] is the [float] just below [1.0]. *)
Definition one_split : Options :=
  mkOptions true "MJPG" 25 (Time.mkTimeStamp 0 0 0) [Time.mkTimeStamp (1 # 3600) (1 # 60) 1].

Definition take (n : nat) : QArith_base.Q * image nat :=
  (30 # 1, synthetic 3 3 (fun r c => (100 * n + 10 * r + c)%nat)).

End OrchestratorState.

(** ** Predicates on a sink used by any client *)

Module SinkClient.
Import Image Sink SinkState.

Section Predicates.
Variable pixel : Type.
Local Abbreviation frame := (image pixel) (only parsing).

(** The frames a list of calls asks a sink to write, in call order. *)
Definition written_frames (calls : list (call pixel)) : list frame :=
  flat_map (fun c => match c with Write f => [f] | _ => [] end) calls.

(** The frame of the call of [write] in progress. *)
Definition in_progress (pc : caller_pc pixel) : list frame :=
  match pc with
  | WriteFull f | WritePut f => [f]
  | _ => []
  end.

(** What holds of the queue and of the stop flag at every moment,
    whatever calls the client makes: the queue is within its bound, a
    [put] about to run finds room, the worker is alive and not asked to
    stop while a [write] is in progress, and the flag is set only by a
    [stop] that is waiting in [join], has failed, or has seen the worker
    end. *)
Definition client_inv (s : system pixel) : Prop :=
  let self := sink s in
  (length (Q self) <= maxsize)%nat
  /\ (forall f, caller s = WritePut f -> (length (Q self) < maxsize)%nat)
  /\ (forall f, in_write f (caller s) ->
        stopped self = false /\ t self <> Unstarted)
  /\ (stopped self = true ->
        caller s = Join \/ (exists e, caller s = Raised e) \/ t self = Exited).

(** The frames accepted so far are the first of those [calls] asks to
    write, in their queued form; [s] is a state of a client that set out
    to make [calls] on the sink [self0]. Unless a call has raised, the
    others are the frame of the [write] in progress and those of the
    calls still to make. *)
Definition writes_inv (self0 : VideoWriter pixel) (calls : list (call pixel))
  (s : system pixel) : Prop :=
  origin (sink s) = origin self0 /\ dimension (sink s) = dimension self0
  /\ exists done rest,
       written_frames calls = done ++ rest
       /\ accepted s = map (queued_form self0) done
       /\ match caller s with
          | Raised _ => True
          | pc => rest = in_progress pc ++ written_frames (todo s)
          end.

(** The sink of [s'] holds what the sink of [s] holds: the same file
    contents, queue and counter, and the same frames accepted. *)
Definition same_output (s s' : system pixel) : Prop :=
  encoded (sink s') = encoded (sink s) /\ released (sink s') = released (sink s)
  /\ Q (sink s') = Q (sink s) /\ frame_number (sink s') = frame_number (sink s)
  /\ t (sink s') = t (sink s) /\ accepted s' = accepted s.

(** The caller is not inside a [write]. *)
Definition outside_write (pc : caller_pc pixel) : Prop :=
  match pc with
  | WriteFull _ | WritePut _ => False
  | _ => True
  end.

(** The client catches the exception its call has raised and goes on
    to its next call. *)
Definition resume (s : system pixel) : system pixel :=
  match caller s with
  | Raised _ => mkSystem (sink s) Between (todo s) (accepted s)
  | _ => s
  end.

(** A client that calls [stop] on the sink [self0] before [start],
    catches the [RuntimeError], and then starts the sink and writes [f]
    while the worker, which finds the stop flag set, is on its way
    out: the worker has tested the queue when the frame is put. *)
Definition write_after_caught_stop (self0 : VideoWriter pixel) (f : frame)
  : system pixel :=
  run [Caller; Worker; Worker; Caller; Caller; Caller; Worker; Worker]
    (resume (run [Caller; Caller] (boot self0 [Stop; Start; Write f]))).

End Predicates.

(** The number of statements of the caller in a schedule. *)
Definition caller_turns (schedule : list thread) : nat :=
  length (filter (fun who => match who with Caller => true | Worker => false end)
            schedule).

(** A client whose first write comes after its [stop], one that stops
    the small writer a second time, and one that stops it before having
    started it. *)
Definition wrong_order : list (call nat) :=
  [Start; Write (small_frame 1); Stop; Write (small_frame 2)].

Definition second_stop : system nat :=
  mkSystem (sink closed_session) Between [Stop] (accepted closed_session).

Definition early_stop : system nat := boot small_writer [Stop; Start].

End SinkClient.

(** ** Predicates on a source used by any client *)

Module SourceClient.
Import Source SourceState.

(** The worker is past the test [if not self.Q.full()] of the turn of
    its loop it is in. *)
Definition past_full_test (pc : reader_pc) : bool :=
  match pc with
  | IfReachedEnd | ReadPosition | IfAfter | Grab | WhileNotGrabbed _ | Retrieve
  | IfNotBefore _ | Put _ => true
  | _ => false
  end.

(** The caller is past the test [while not self.Q.qsize()] of a [read]
    that found a frame. *)
Definition taking (pc : caller_pc) : bool :=
  match pc with
  | ReadCount _ | ReadGet _ => true
  | _ => false
  end.

(** One when [read] has counted the frame it is about to take. *)
Definition counted (pc : caller_pc) : Z :=
  match pc with
  | ReadGet _ => 1
  | _ => 0
  end.

(** What holds of the queue and of the counter [frame_number] at every
    moment, whatever calls the client makes. *)
Definition queue_inv (s : system) : Prop :=
  let self := stream s in
  (List.length (Q self) <= maxsize)%nat
  /\ (past_full_test (t self) = true -> (List.length (Q self) < maxsize)%nat)
  /\ (taking (caller s) = true -> Q self <> [])
  /\ frame_number self = Z.of_nat (List.length (obtained s)) + counted (caller s).

(** [n] consecutive frame indices from [lo] on. *)
Definition interval (lo : Z) (n : nat) : list frame :=
  map (fun i => lo + Z.of_nat i) (seq 0 n).

(** The position the worker decodes from next, as far as the queue is
    concerned: between a successful [grab] and the [put] of its frame
    that is the position read before the [grab]. *)
Definition decode_position (self : VideoStream) : Z :=
  match t self with
  | WhileNotGrabbed true | Retrieve | IfNotBefore _ | Put _ => cap_position self
  | _ => cam_pos (camera self)
  end.

(** What holds at every moment of a source on a file of [count] frames
    whose decode handle stood at [p0] when the worker started and whose
    window runs from frame number [B] to frame number [E], for a client
    that makes passive calls only: the frames read and the frames queued
    are the [n] consecutive indices from the later of [B] and [p0] to
    the decode position. *)
Definition order_inv (count p0 B E : Z) (s : system) : Prop :=
  let self := stream s in
  let lo := Z.max B p0 in
  Time.frame_number (beginning self) = B
  /\ (exists e, end_ self = Some e /\ Time.frame_number e = E)
  /\ Forall passive (todo s)
  /\ cam_frame_count (camera self) = count
  /\ p0 <= cam_pos (camera self)
  /\ exists n : nat,
       obtained s ++ Q self = interval lo n
       /\ lo + Z.of_nat n = Z.max lo (decode_position self)
       /\ ((0 < n)%nat -> lo + Z.of_nat n <= Z.min E count)
       /\ match t self with
          | IfAfter => cap_position self = cam_pos (camera self)
          | Grab | WhileNotGrabbed false =>
              cap_position self = cam_pos (camera self) /\ cap_position self < E
          | WhileNotGrabbed true | Retrieve =>
              cam_pos (camera self) = cap_position self + 1
              /\ cap_position self < E /\ cap_position self < count
              /\ p0 <= cap_position self
          | IfNotBefore f =>
              cam_pos (camera self) = cap_position self + 1
              /\ cap_position self < E /\ cap_position self < count
              /\ p0 <= cap_position self /\ f = cap_position self
          | Put f =>
              cam_pos (camera self) = cap_position self + 1
              /\ cap_position self < E /\ cap_position self < count
              /\ p0 <= cap_position self /\ f = cap_position self
              /\ B <= cap_position self
          | _ => True
          end.

(** The calling thread of [stream.start()] followed by
    [for frame in stream], as long as the loop has not ended. *)
Definition in_loop (s : system) : Prop :=
  (t (stream s) = Unstarted /\ caller s = Between /\ todo s = [Start; Iterate])
  \/ (t (stream s) <> Unstarted /\ caller s = Between /\ todo s = [Iterate])
  \/ (t (stream s) <> Unstarted /\ todo s = []
      /\ match caller s with
         | ReadWhileEmpty true | ReadIfDead true | ReadIfStopped true
         | ReadCount true | ReadGet true => True
         | _ => False
         end).

(** The worker is in its loop, or not started. *)
Definition looping (pc : reader_pc) : bool :=
  match pc with
  | SetStopped | ReleaseCamera | SetReleased | Exited | Died _ => false
  | _ => true
  end.

(** What holds at every moment of a source whose window ends at frame
    number [E], beyond the last frame of the file, while the client only
    starts it and iterates: the stop flag is never set and the worker
    never leaves its loop. *)
Definition stuck_inv (E : Z) (s : system) : Prop :=
  let self := stream s in
  (exists e, end_ self = Some e /\ Time.frame_number e = E)
  /\ stopped self = false
  /\ released self = false
  /\ Forall (fun r => r <> None) (returned s)
  /\ looping (t self) = true
  /\ cam_frame_count (camera self) < E
  /\ cam_pos (camera self) < E
  /\ cap_position self < E
  /\ in_loop s.

(** The worker has ended normally: the decode handle is closed and the
    two events are set. *)
Definition closed_down (self : VideoStream) : Prop :=
  t self = Exited /\ released self = true /\ stopped self = true
  /\ cam_open (camera self) = false.

(** What holds at every moment of a client whose last call is [stop]:
    until that call has returned the worker may be in any state; the
    handle is closed before the worker sets [released], and the worker
    leaves its loop only with the stop flag set. *)
Definition shutdown_inv (s : system) : Prop :=
  let self := stream s in
  (exists e, end_ self = Some e)
  /\ Forall passive (todo s)
  /\ (t self = SetReleased -> cam_open (camera self) = false)
  /\ (t self = ReleaseCamera \/ t self = SetReleased \/ t self = Exited ->
      stopped self = true)
  /\ (t self = Exited -> released self = true /\ cam_open (camera self) = false)
  /\ (forall x, t self <> Died x)
  /\ ((exists before, todo s = before ++ [Stop])
      \/ (todo s = []
          /\ (caller s = Join \/ (exists x, caller s = Raised x)
              \/ (caller s = Between /\ t self = Exited)))).

(** A source on the file of three frames whose window ends at one
    second, twenty-three frames beyond the file. *)
Definition beyond_three : VideoStream :=
  match VideoStream_init "three.avi" three_frames None (Some (Time.OfStr "0:0:1")) true with
  | Ok vs => vs
  | _ => whole_of_three
  end.

End SourceClient.

(** ** Digits and separators in a string *)

Module Text.

(** The decimal digits of a natural number, as [str] prints them. *)
Definition str_uint (n : Z) : string := NilZero.string_of_uint (N.to_uint (Z.to_N n)).

(** [s] has no character [c]. *)
Fixpoint lacks (c : ascii) (s : string) : bool :=
  match s with
  | EmptyString => true
  | String a rest => negb (Ascii.eqb a c) && lacks c rest
  end.

Definition is_digit (c : ascii) : bool :=
  (48 <=? nat_of_ascii c)%nat && (nat_of_ascii c <=? 57)%nat.

(** Every character of [s] is a decimal digit. *)
Fixpoint all_digits (s : string) : bool :=
  match s with
  | EmptyString => true
  | String a rest => is_digit a && all_digits rest
  end.

End Text.

(** ** Dictionaries with string keys *)

Module PyDict.

Section Dict.
Variable V : Type.

(** A dictionary with string keys, as a list of its items. A key occurs
    once; the order of the items is one the Python dictionary may not
    have, and no property below depends on it. *)
Definition dict : Type := list (string * V).

(** [d[k]], when the key is there. *)
Fixpoint lookup (k : string) (d : dict) : option V :=
  match d with
  | [] => None
  | (k', v) :: rest => if String.eqb k' k then Some v else lookup k rest
  end.

(** [d[k] = v]. *)
Fixpoint dict_set (k : string) (v : V) (d : dict) : dict :=
  match d with
  | [] => [(k, v)]
  | (k', v') :: rest =>
      if String.eqb k' k then (k, v) :: rest else (k', v') :: dict_set k v rest
  end.

(** [del d[k]], the key being there. *)
Fixpoint dict_del (k : string) (d : dict) : dict :=
  match d with
  | [] => []
  | (k', v) :: rest => if String.eqb k' k then rest else (k', v) :: dict_del k rest
  end.

(** [d] after [d[k] = v] for each [(k, v)] of [items] in turn. *)
Definition store (d : dict) (items : list (string * V)) : dict :=
  fold_left (fun d item => dict_set (fst item) (snd item) d) items d.

(** The value the last item of [items] with key [k] gives. *)
Fixpoint last_value (k : string) (items : list (string * V)) : option V :=
  match items with
  | [] => None
  | (k', v) :: rest =>
      match last_value k rest with
      | Some later => Some later
      | None => if String.eqb k' k then Some v else None
      end
  end.

End Dict.

End PyDict.

(** ** [scripts/video_crop.py]: the table of regions *)

Module CropsFile.
Import PyText PyDict.

(** The characters [str.strip] removes: blank, tab, line feed, vertical
    tab, form feed and carriage return. *)
Definition is_space (c : ascii) : bool :=
  let n := nat_of_ascii c in
  Nat.eqb n 32 || ((9 <=? n)%nat && (n <=? 13)%nat).

Fixpoint lstrip (s : string) : string :=
  match s with
  | EmptyString => EmptyString
  | String a rest => if is_space a then lstrip rest else s
  end.

Fixpoint rstrip (s : string) : string :=
  match s with
  | EmptyString => EmptyString
  | String a rest =>
      match rstrip rest with
      | EmptyString => if is_space a then EmptyString else String a EmptyString
      | kept => String a kept
      end
  end.

(** [s.strip()]. *)
Definition strip (s : string) : string := rstrip (lstrip s).

(** [int(s)] for a string: blanks around an optional sign and decimal
    digits. The other texts Python 2 reads as an integer (a trailing [L]
    on a number that does not fit a machine word) are outside the
    model. *)
Definition int_of_str (s : string) : result Z :=
  let unsigned (d : string) : result Z :=
    match d with
    | EmptyString => Raise ValueError
    | _ => digits d
    end in
  match strip s with
  | String "-"%char d => n <- unsigned d ;; Ok (- n)
  | String "+"%char d => unsigned d
  | d => unsigned d
  end.

Definition tab : ascii := ascii_of_nat 9.
Definition line_feed : ascii := ascii_of_nat 10.

(** The body of the loop of [read_crops]: the file name and the
    rectangle a line gives. Both unpackings raise [ValueError] when the
    number of fields is not the one expected. *)
Definition read_crop (line : string) : result (string * (Z * Z * Z * Z)) :=
  match split_on tab (strip line) with
  | [coordinates; video_fname] =>
      numbers <- for_each int_of_str (split_on ":"%char (strip coordinates)) ;;
      match numbers with
      | [x; y; w; h] => Ok (video_fname, (x, y, w, h))
      | _ => Raise ValueError
      end
  | _ => Raise ValueError
  end.

(** The loop of [read_crops], from the dictionary [d] on. *)
Fixpoint read_crops_from (d : dict (Z * Z * Z * Z)) (f : list string)
  : result (dict (Z * Z * Z * Z)) :=
  match f with
  | [] => Ok d
  | line :: rest =>
      item <- read_crop line ;;
      read_crops_from (dict_set (fst item) (snd item) d) rest
  end.

(** [read_crops], [f] being the lines of the file. *)
Definition read_crops (f : list string) : result (dict (Z * Z * Z * Z)) :=
  read_crops_from [] f.

(** A rectangle as a line of the file gives it: [X:Y:W:H]. *)
Definition coordinates_text (r : Z * Z * Z * Z) : string :=
  let '(x, y, w, h) := r in
  (str_int x ++ String ":" (str_int y ++ String ":" (str_int w ++ String ":" (str_int h))))%string.

(** A line of the file of regions: the rectangle, a tab, the name of
    the output file and the end of the line. *)
Definition crop_line (item : string * (Z * Z * Z * Z)) : string :=
  (coordinates_text (snd item)
   ++ String tab (fst item ++ String line_feed EmptyString))%string.

(** Every character of [s] is one that [strip] removes. *)
Fixpoint all_space (s : string) : bool :=
  match s with
  | EmptyString => true
  | String a rest => is_space a && all_space rest
  end.

(** The last character of [s], or [d]. *)
Fixpoint last_char (s : string) (d : ascii) : ascii :=
  match s with
  | EmptyString => d
  | String a rest => last_char rest a
  end.

(** A file name that survives a line: not empty, no tab, and no blank
    at either end. *)
Definition plain_name (name : string) : Prop :=
  Text.lacks tab name = true
  /\ match name with
     | EmptyString => False
     | String a _ => is_space a = false
     end
  /\ is_space (last_char name " "%char) = false.

(** A file of three lines, the third naming the file of the first. *)
Definition repeated_name : list (string * (Z * Z * Z * Z)) :=
  [("a.avi"%string, (0, 0, 2, 2)); ("b.avi"%string, (1, 1, 2, 2));
   ("a.avi"%string, (1, 0, 1, 3))].

Definition repeated_name_file : list string := map crop_line repeated_name.

(** A table whose names hold blanks and whose rectangles hold negative
    numbers. *)
Definition odd_table : list (string * (Z * Z * Z * Z)) :=
  [("left eye.avi"%string, (-4, 0, 20, 20)); ("out/right.avi"%string, (16, -2, 20, 20))].

End CropsFile.

(** ** [scripts/video_crop.py]: a run without [--splits] *)

Module Unsplit.
Import Orchestrator.

(** The options of a run with no option given but the codec. *)
Definition plain_options : Options :=
  mkOptions true "MJPG" 25 (Time.mkTimeStamp 0 0 0) [].

End Unsplit.

(** ** [open_video] *)

Module Opening.
Import PyDict.

(** An argument of [open_video]: a string, or an object of another
    class, which no string equals. *)
Inductive object : Type :=
| Str (s : string)
| NotStr (id : Z).

(** The call [open_video] ends with: the class and the arguments its
    constructor receives. *)
Inductive opened : Type :=
| VideoInput_new (args : list object) (kwargs : dict object)
| VideoOutput_new (args : list object) (kwargs : dict object).

(** [mode == s] for a string [s]. *)
Definition equals (mode : object) (s : string) : bool :=
  match mode with
  | Str m => String.eqb m s
  | NotStr _ => false
  end.

(** [open_video], called with the positional arguments [args] and the
    keyword arguments [kwargs]. *)
Definition open_video (args : list object) (kwargs : dict object) : result opened :=
  let '(mode, args, kwargs) :=
    match lookup "mode" kwargs with
    | Some mode => (mode, args, dict_del "mode" kwargs)
    | None =>
        match args with
        | first :: second :: rest => (second, first :: rest, kwargs)
        | _ => (Str "r", args, kwargs)
        end
    end in
  if equals mode "r" then Ok (VideoInput_new args kwargs)
  else if equals mode "w" then Ok (VideoOutput_new args kwargs)
  else Raise ValueError.

(** The keyword arguments a call ends with. *)
Definition keywords (c : opened) : dict object :=
  match c with
  | VideoInput_new _ kwargs => kwargs
  | VideoOutput_new _ kwargs => kwargs
  end.

End Opening.


(** * Verified properties *)

(** ** TimeModel *)

Module TimeFacts.
Import PyText Time.

(** [int] is the integer part of a non-negative rational. *)
Lemma int_floor (x : Q) : (0 <= x)%Q -> int x = Qfloor x.
Proof.
  destruct x as [n d]; unfold Qle, int, Qfloor; simpl; intro H.
  rewrite Z.mul_1_r in H.
  apply Z.quot_div_nonneg; lia.
Qed.


Lemma frame_videotime_number (n : Z) (rate : Q) (v : VideoTime) :
  frame_videotime n rate = Ok v -> frame_number v = n.
Proof.
  unfold frame_videotime.
  destruct (VideoTime_init (OfStr "0:0:0") rate) as [t0| |]; cbn [bind]; try discriminate.
  destruct (Qeq_bool rate 0); try discriminate.
  intro H; inversion H; reflexivity.
Qed.



(** *** The width of the seconds field *)

Lemma length_append (s s' : string) :
  String.length (s ++ s') = (String.length s + String.length s')%nat.
Proof. induction s as [|c s IH]; cbn; [reflexivity | rewrite IH; reflexivity]. Qed.

Lemma length_string_of_list_ascii (l : list ascii) :
  String.length (string_of_list_ascii l) = List.length l.
Proof. induction l as [|c l IH]; cbn; [reflexivity | rewrite IH; reflexivity]. Qed.

Lemma length_zero_pad (width : nat) (s : string) :
  String.length (zero_pad width false s) = Nat.max width (String.length s).
Proof.
  unfold zero_pad. cbn [String.length Nat.add String.append].
  rewrite length_append, length_string_of_list_ascii, repeat_length. lia.
Qed.

Lemma one_digit (d : Z) :
  0 <= d < 10 ->
  String.length (NilZero.string_of_uint (N.to_uint (Z.to_N d))) = 1%nat.
Proof.
  intro H.
  assert (Hd : d = 0 \/ d = 1 \/ d = 2 \/ d = 3 \/ d = 4 \/ d = 5 \/ d = 6 \/ d = 7
               \/ d = 8 \/ d = 9) by lia.
  repeat (destruct Hd as [Hd|Hd]; [subst d; reflexivity|]). subst d. reflexivity.
Qed.

Lemma three_digits_at_most (m : Z) :
  0 <= m < 1000 ->
  (String.length (NilZero.string_of_uint (N.to_uint (Z.to_N m))) <= 3)%nat.
Proof.
  intro H.
  assert (Hall : forallb
                   (fun n => Nat.leb (String.length
                                        (NilZero.string_of_uint (N.to_uint (N.of_nat n)))) 3)
                   (seq 0 1000) = true) by (vm_compute; reflexivity).
  rewrite forallb_forall in Hall.
  specialize (Hall (Z.to_nat m)).
  rewrite Z_nat_N in Hall.
  apply Nat.leb_le, Hall, in_seq. lia.
Qed.

Lemma seconds_below_ten_unpadded (k : Z) :
  0 <= k < 10000 ->
  String.length (fmt_02_3f (k # 1000)) = 5%nat.
Proof.
  intro Hk. unfold fmt_02_3f.
  assert (Hsign : match Qcompare (k # 1000) 0 with Lt => true | _ => false end = false).
  { unfold Qcompare. cbn [Qnum Qden]. rewrite Z.mul_1_r.
    change (0 * Z.pos 1000) with 0.
    destruct (Z.compare_spec k 0); try reflexivity. lia. }
  assert (Hround : round_half_even (Qmult (Qabs (k # 1000)) (inject_Z 1000)) = k).
  { unfold round_half_even. cbn [Qabs Qmult inject_Z Qnum Qden].
    rewrite Z.abs_eq by lia.
    change (Z.pos (1000 * 1)) with 1000.
    rewrite Z.div_mul, Z.mod_mul by lia. reflexivity. }
  rewrite Hsign, Hround, length_zero_pad, !length_append, length_zero_pad.
  rewrite one_digit by (split; [apply Z.div_pos | apply Z.div_lt_upper_bound]; lia).
  assert (Hfrac : 0 <= k mod 1000 < 1000) by (apply Z.mod_pos_bound; lia).
  apply three_digits_at_most in Hfrac.
  cbn [String.length]. lia.
Qed.

(** C8: the timestamp [0:00:05.000] is read without error and printed
    back as [0:00:5.000]; and every number of seconds below ten with
    three decimals is printed on five characters, one digit before the
    point: the seconds field is not padded to two digits. *)
Theorem parse_format_seconds_below_ten :
  parse_format "0:00:05.000" = Ok "0:00:5.000"%string
  /\ (forall k : Z,
         0 <= k < 10000 -> String.length (fmt_02_3f (k # 1000)) = 5%nat).
Proof.
  split; [vm_compute; reflexivity|].
  intros k Hk. apply seconds_below_ten_unpadded. exact Hk.
Qed.

(** The value, as opposed to the text, survives: reading the printed
    text gives the same instant. *)
Example parse_format_parse_value :
  (s <- parse_format "0:00:05.000" ;; TimeStamp_init (OfStr s))
  = TimeStamp_init (OfStr "0:00:05.000").
Proof. vm_compute. reflexivity. Qed.

(** With seconds of two digits the text survives too. *)
Example parse_format_two_digit_seconds :
  parse_format "12:59:59.999" = Ok "12:59:59.999"%string.
Proof. vm_compute. reflexivity. Qed.

End TimeFacts.

(** ** FrameSource: windowing predicates and the [end] attribute *)

Module WindowFacts.
Import Source.

(** C7: [before] holds exactly when the position is below the first frame
    of the window, [after] exactly when an end is set and the position has
    reached it, and [in_range] is the negation of their conjunction, which
    is not the conjunction of their negations: before the window
    [in_range] holds although [before] does. *)
Theorem windowing_predicates :
  (forall self : VideoStream,
      (before self = true <-> cap_position self < Time.frame_number (beginning self))
      /\ (after self = true <->
          exists e, end_ self = Some e /\ cap_position self >= Time.frame_number e)
      /\ in_range self = negb (before self && after self))
  /\ (exists self : VideoStream,
         in_range self <> (negb (before self) && negb (after self))).
Proof.
  split.
  - intro self. unfold before, after, in_range. repeat split.
    + apply Z.ltb_lt.
    + apply Z.ltb_lt.
    + destruct (end_ self) as [e|]; intro H; [|discriminate].
      exists e. split; [reflexivity|]. apply Z.leb_le in H. lia.
    + intros [e [He Hpos]]. rewrite He. apply Z.leb_le. lia.
  - exists (mkVideoStream "" (mkCamera 25 100 0 0 0 true [] true) 25 100 0 0
              (Time.mkVideoTime (Time.mkTimeStamp 0 0 1) 25 26)
              (Some (Time.mkVideoTime (Time.mkTimeStamp 0 0 2) 25 51))
              true 0 3 [] false false Unstarted).
    vm_compute. discriminate.
Qed.

(** Whenever the window is not empty the two predicates exclude each
    other and [in_range] is constantly true. *)
Lemma in_range_constant (self : VideoStream) (e : Time.VideoTime) :
  end_ self = Some e ->
  Time.frame_number (beginning self) <= Time.frame_number e ->
  in_range self = true.
Proof.
  intros He Hwin. unfold in_range, before, after. rewrite He.
  destruct (cap_position self <? Time.frame_number (beginning self)) eqn:B;
    destruct (Time.frame_number e <=? cap_position self) eqn:A; try reflexivity.
  apply Z.ltb_lt in B. apply Z.leb_le in A. lia.
Qed.

End WindowFacts.

Module EndFacts.
Import Source SourceState.

Lemma reader_keeps_end (self : VideoStream) : end_ (reader self) = end_ self.
Proof.
  unfold reader.
  destruct (t self); try reflexivity;
    repeat match goal with
           | |- context [if ?b then _ else _] => destruct b
           | |- context [match end_ self with _ => _ end] => destruct (end_ self) eqn:?
           | |- context [let (_, _) := ?p in _] => destruct p
           end; cbn; congruence.
Qed.

Lemma reader_stays_sound (self : VideoStream) :
  end_is_set self -> worker_sound self -> worker_sound (reader self).
Proof.
  intros [v Hv] Hs x. unfold reader.
  destruct (t self) eqn:Ht; try (cbn; rewrite ?Ht; congruence);
    repeat match goal with
           | |- context [if ?b then _ else _] => destruct b
           | |- context [let (_, _) := ?p in _] => destruct p
           end; cbn; try congruence;
    try (rewrite Hv; destruct (Time.frame_number v <=? cap_position self); cbn; congruence);
    try (rewrite Ht; apply Hs).
Qed.

Lemma set_end_sets (self self' : VideoStream) (ts : option Time.expression) :
  set_end self ts = Ok self' ->
  end_is_set self' /\ t self' = t self
  /\ length self' = length self /\ fps self' = fps self
  /\ (ts = None ->
      exists v, end_ self' = Some v
                /\ Time.frame_videotime (length self) (fps self) = Ok v
                /\ Time.frame_number v = length self).
Proof.
  unfold set_end. destruct ts as [e|].
  - destruct (Time.VideoTime_init e (fps self)) as [v| |]; cbn; try discriminate.
    intro H; inversion H; subst; cbn.
    repeat split; [eexists; reflexivity | discriminate].
  - destruct (Time.frame_videotime (length self) (fps self)) as [v| |] eqn:E;
      cbn; try discriminate.
    intro H; inversion H; subst; cbn.
    repeat split; [eexists; reflexivity|]. intros _. exists v.
    repeat split. apply (TimeFacts.frame_videotime_number _ _ E).
Qed.

Lemma set_beginning_keeps (self self' : VideoStream) (ts : option Time.expression) :
  set_beginning self ts = Ok self' ->
  end_ self' = end_ self /\ t self' = t self
  /\ length self' = length self /\ fps self' = fps self.
Proof.
  unfold set_beginning.
  match goal with |- context [Time.VideoTime_init ?e ?r] =>
    destruct (Time.VideoTime_init e r) as [v| |] end; cbn; try discriminate.
  intro H; inversion H; subst; cbn. repeat split.
Qed.

Lemma caller_keeps_end (s : system) :
  end_is_set (stream s) -> worker_sound (stream s) ->
  end_is_set (stream (caller_step s)) /\ worker_sound (stream (caller_step s)).
Proof.
  intros He Hs. unfold caller_step, read_returns.
  assert (Hkeep : forall self', end_ self' = end_ (stream s) ->
                    (t self' = t (stream s) \/ t self' = WhileNotStopped) ->
                    end_is_set self' /\ worker_sound self').
  { intros self' E [T|T]; (split; [destruct He as [v Hv]; exists v; congruence|]);
      intro x; rewrite T; [apply Hs | discriminate]. }
  destruct (caller s) as [|l|l|l|l|l| |e].
  - destruct (todo s) as [|[| | | |ts|ts] rest]; cbn; auto.
    + destruct (t (stream s)) eqn:Ht; cbn; auto.
    + destruct (set_beginning (stream s) ts) as [self'| |] eqn:E; cbn; auto.
      apply set_beginning_keeps in E. destruct E as (E1 & E2 & _). auto.
    + destruct (set_end (stream s) ts) as [self'| |] eqn:E; cbn; auto.
      apply set_end_sets in E. destruct E as (E1 & E2 & _).
      split; [exact E1|]. intro x. rewrite E2. apply Hs.
  - destruct (Nat.eqb (qsize (Q (stream s))) 0); cbn; auto.
  - destruct (negb (is_alive (t (stream s)))); cbn; auto.
  - destruct (stopped (stream s)); cbn; auto.
  - cbn; auto.
  - destruct (Q (stream s)); cbn; auto. destruct l; cbn; auto.
  - destruct (t (stream s)); cbn; auto.
  - cbn; auto.
Qed.

Lemma run_keeps_end (schedule : list thread) (s : system) :
  end_is_set (stream s) -> worker_sound (stream s) ->
  end_is_set (stream (run schedule s)) /\ worker_sound (stream (run schedule s)).
Proof.
  revert s. induction schedule as [|who rest IH]; intros s He Hs; cbn; auto.
  destruct who; cbn [step].
  - destruct (caller_keeps_end s He Hs) as [He' Hs']. apply IH; assumption.
  - apply IH; cbn.
    + destruct He as [v Hv]. exists v. rewrite reader_keeps_end. exact Hv.
    + apply reader_stays_sound; assumption.
Qed.

Lemma init_sets_end (name : string) (cam : Camera)
  (b e : option Time.expression) (q : bool) (vs : VideoStream) :
  VideoStream_init name cam b e q = Ok vs ->
  end_is_set vs /\ t vs = Unstarted /\ length vs = cam_frame_count cam
  /\ (e = None ->
      exists v, end_ vs = Some v
                /\ Time.frame_videotime (cam_frame_count cam) (cam_fps cam) = Ok v
                /\ Time.frame_number v = cam_frame_count cam).
Proof.
  unfold VideoStream_init.
  match goal with |- context [Time.VideoTime_init ?x ?r] =>
    destruct (Time.VideoTime_init x r) as [v0| |] end; cbn [bind]; try discriminate.
  match goal with |- context [set_beginning ?x ?y] =>
    destruct (set_beginning x y) as [s1| |] eqn:E1 end; cbn [bind]; try discriminate.
  destruct (set_end s1 e) as [s2| |] eqn:E2; cbn [bind]; try discriminate.
  intro H; inversion H; subst; clear H.
  pose proof (set_beginning_keeps _ _ E1) as (_ & Ht1 & Hlen1 & Hfps1).
  pose proof (set_end_sets _ _ E2) as (Hset & Ht2 & Hlen2 & _ & Hnone).
  cbn [length fps] in Hlen1, Hfps1.
  cbn. repeat split.
  - exact Hset.
  - rewrite Ht2, Ht1. reflexivity.
  - congruence.
  - intro Hn. destruct (Hnone Hn) as (v & Hv & Hmade & Hf). exists v.
    rewrite <- Hlen1, <- Hfps1. repeat split; assumption.
Qed.

(** C10: from construction on, whatever calls the client makes and
    however the threads interleave, the [end] attribute of a source holds
    a [VideoTime]: the test [self.end is not None] of [after] succeeds, so
    that [after] is the comparison with the end frame, and the worker
    never dies on an absent end. Constructing the source or calling
    [set_end] without a timestamp stores the [VideoTime] that
    [frame_videotime] makes of the frame count of the file, whose frame
    number is that count. *)
Theorem end_is_never_None (name : string) (cam : Camera)
  (b e : option Time.expression) (q : bool) (vs : VideoStream)
  (calls : list call) (schedule : list thread) :
  VideoStream_init name cam b e q = Ok vs ->
  let s := run schedule (boot vs calls) in
  (exists v, end_ (stream s) = Some v
             /\ after (stream s) = (Time.frame_number v <=? cap_position (stream s)))
  /\ (forall x, t (stream s) <> Died x)
  /\ (e = None ->
      exists v, end_ vs = Some v
                /\ Time.frame_videotime (cam_frame_count cam) (cam_fps cam) = Ok v
                /\ Time.frame_number v = cam_frame_count cam)
  /\ (forall self self', set_end self None = Ok self' ->
      exists v, end_ self' = Some v
                /\ Time.frame_videotime (length self) (fps self) = Ok v
                /\ Time.frame_number v = length self).
Proof.
  intros Hinit s.
  destruct (init_sets_end _ _ _ _ _ Hinit) as (Hset & Ht & _ & Hnone).
  assert (Hsound : worker_sound vs) by (intro x; rewrite Ht; discriminate).
  destruct (run_keeps_end schedule (boot vs calls) Hset Hsound) as [[v Hv] Hs].
  split; [|split; [exact Hs | split; [exact Hnone|]]].
  - exists v. split; [exact Hv|]. unfold after. fold s. cbv zeta in Hv.
    unfold s. rewrite Hv. reflexivity.
  - intros self self' H. apply set_end_sets in H. apply H. reflexivity.
Qed.

(** The source opened on the file of three frames without beginning or
    end, started, given a new end without timestamp and read to its
    end. *)
Lemma end_is_never_None_witness :
  let s := run (in_turn 40) (boot whole_of_three [Start; SetEnd None; Iterate]) in
  (exists v, end_ (stream s) = Some v
             /\ after (stream s) = (Time.frame_number v <=? cap_position (stream s)))
  /\ (forall x, t (stream s) <> Died x)
  /\ (@None Time.expression = None ->
      exists v, end_ whole_of_three = Some v
                /\ Time.frame_videotime 3 25 = Ok v
                /\ Time.frame_number v = 3)
  /\ (forall self self', set_end self None = Ok self' ->
      exists v, end_ self' = Some v
                /\ Time.frame_videotime (length self) (fps self) = Ok v
                /\ Time.frame_number v = length self).
Proof.
  apply (@end_is_never_None "three.avi" three_frames None None true whole_of_three
           [Start; SetEnd None; Iterate] (in_turn 40)).
  vm_compute. reflexivity.
Defined.

End EndFacts.

(** ** Slicing and cropping *)

Module CropFacts.
Import Image.

Section Slices.
Variable A : Type.

Lemma In_firstn (n : nat) (l : list A) (x : A) : In x (firstn n l) -> In x l.
Proof.
  intro H. rewrite <- (firstn_skipn n l). apply in_or_app. left. exact H.
Qed.

Lemma In_skipn (n : nat) (l : list A) (x : A) : In x (skipn n l) -> In x l.
Proof.
  intro H. rewrite <- (firstn_skipn n l). apply in_or_app. right. exact H.
Qed.

Lemma slice_nil (a b : Z) : slice a b (@nil A) = [].
Proof. unfold slice. rewrite skipn_nil. apply firstn_nil. Qed.

Lemma slice_inside (a n : Z) (l : list A) :
  0 <= a -> 0 <= n -> a + n <= Z.of_nat (length l) ->
  slice a (a + n) l = firstn (Z.to_nat n) (skipn (Z.to_nat a) l).
Proof.
  intros Ha Hn Hlen. unfold slice, clamp_bound.
  destruct (a <? 0) eqn:E1; [apply Z.ltb_lt in E1; lia|].
  destruct (a + n <? 0) eqn:E2; [apply Z.ltb_lt in E2; lia|].
  rewrite !Z.min_l by lia. f_equal. f_equal. lia.
Qed.

Lemma slice_inside_length (a n : Z) (l : list A) :
  0 <= a -> 0 <= n -> a + n <= Z.of_nat (length l) ->
  Z.of_nat (length (slice a (a + n) l)) = n.
Proof.
  intros Ha Hn Hlen. rewrite slice_inside by assumption.
  rewrite length_firstn, length_skipn. lia.
Qed.

Lemma slice_inside_nth (a n : Z) (l : list A) (i : nat) (d : A) :
  0 <= a -> 0 <= n -> a + n <= Z.of_nat (length l) ->
  Z.of_nat i < n ->
  nth i (slice a (a + n) l) d = nth (Z.to_nat a + i) l d.
Proof.
  intros Ha Hn Hlen Hi. rewrite slice_inside by assumption.
  rewrite nth_firstn.
  destruct (Nat.ltb_spec i (Z.to_nat n)); [|lia].
  rewrite nth_skipn. reflexivity.
Qed.

End Slices.

Section Crops.
Variable pixel : Type.

Lemma crop_inside (x y w h W : Z) (f : image pixel) :
  0 <= x -> 0 <= y -> 0 <= w -> 0 <= h ->
  has_width W f -> x + w <= W -> y + h <= height f ->
  height (crop x y w h f) = h
  /\ has_width w (crop x y w h f)
  /\ forall (r c : nat) (d : pixel),
      Z.of_nat r < h -> Z.of_nat c < w ->
      nth c (nth r (crop x y w h f) []) d
      = nth (Z.to_nat x + c) (nth (Z.to_nat y + r) f []) d.
Proof.
  intros Hx Hy Hw Hh HW Hxw Hyh. unfold height in *.
  assert (Hrows : Forall (fun row => Z.of_nat (length row) = W) (slice y (y + h) f)).
  { rewrite slice_inside by assumption.
    apply Forall_forall. intros row Hin. apply In_firstn, In_skipn in Hin.
    unfold has_width in HW. rewrite Forall_forall in HW. auto. }
  repeat split.
  - unfold crop. rewrite length_map. apply slice_inside_length; assumption.
  - unfold has_width, crop. apply Forall_map.
    eapply Forall_impl; [|exact Hrows]. cbn. intros row Hrow.
    apply slice_inside_length; lia.
  - intros r c d Hr Hc. unfold crop.
    assert (Hlen : (r < length (slice y (y + h) f))%nat).
    { pose proof (slice_inside_length f Hy Hh Hyh). lia. }
    rewrite <- (slice_nil pixel x (x + w)) at 1.
    rewrite map_nth.
    assert (Hrow : Z.of_nat (length (nth r (slice y (y + h) f) [])) = W).
    { rewrite Forall_forall in Hrows. apply Hrows. apply nth_In. exact Hlen. }
    rewrite slice_inside_nth by lia.
    rewrite slice_inside_nth by lia. reflexivity.
Qed.

End Crops.
End CropFacts.

(** ** FrameSink *)

Module SinkFacts.
Import Image Sink.

Section Facts.
Variable pixel : Type.
Local Abbreviation frame := (image pixel) (only parsing).

(** *** Construction and cropping *)

Lemma VideoCropper_init_ok (name code : string) (x y w h rate : Z) (col : bool) :
  String.length code = 4%nat ->
  VideoCropper_init pixel name code x y w h rate col
  = Ok (mkVideoWriter name code (w, h) rate col (Some (x, y)) [] false [] false
          Unstarted 0).
Proof.
  intro H. unfold VideoCropper_init, VideoWriter_init. rewrite H. reflexivity.
Qed.

(** C6, as the code has it: the constructor of a cropping sink accepts
    every rectangle (it looks at the codec tag only), and [write] on the
    started sink puts [frame[y:y+h, x:x+w]] in the queue whatever the
    rectangle; for a rectangle that lies within the frame that is
    exactly the sub-frame of [h] rows and [w] columns whose pixel at row
    [r], column [c] is the pixel of the frame at row [y + r], column
    [x + c]. *)
Theorem cropper_takes_any_rectangle (name code : string) (x y w h rate : Z) (col : bool) :
  String.length code = 4%nat ->
  exists self : VideoWriter pixel,
    VideoCropper_init pixel name code x y w h rate col = Ok self
    /\ (forall f : frame,
          write_call f (with_t self WhileRunning)
          = Ok (with_Q (with_t self WhileRunning) [crop x y w h f]))
    /\ (forall (f : frame) (W : Z),
          0 <= x -> 0 <= y -> 0 <= w -> 0 <= h ->
          has_width W f -> x + w <= W -> y + h <= height f ->
          height (crop x y w h f) = h
          /\ has_width w (crop x y w h f)
          /\ forall (r c : nat) (d : pixel),
              Z.of_nat r < h -> Z.of_nat c < w ->
              nth c (nth r (crop x y w h f) []) d
              = nth (Z.to_nat x + c) (nth (Z.to_nat y + r) f []) d).
Proof.
  intro Hcode. eexists. split; [apply VideoCropper_init_ok; exact Hcode|].
  split; [reflexivity|].
  intros f W Hx Hy Hw Hh HW Hxw Hyh.
  exact (CropFacts.crop_inside Hx Hy Hw Hh HW Hxw Hyh).
Qed.

End Facts.

Lemma synthetic_size (pixel : Type) (rows cols : nat) (f : nat -> nat -> pixel) :
  height (synthetic rows cols f) = Z.of_nat rows
  /\ has_width (Z.of_nat cols) (synthetic rows cols f).
Proof.
  unfold height, has_width, synthetic. split.
  - rewrite length_map, length_seq. reflexivity.
  - apply Forall_map, Forall_forall. intros r _. cbn.
    rewrite length_map, length_seq. reflexivity.
Qed.

(** The rectangle of the scenario: 50 by 50 at (10, 10), a frame of 100
    by 100 whose pixel at row [r], column [c] is [100 * r + c]. *)
Lemma cropper_takes_any_rectangle_witness :
  let f := synthetic 100 100 (fun r c => (100 * r + c)%nat) in
  exists self : VideoWriter nat,
    VideoCropper_init nat "tube.avi" "MJPG" 10 10 50 50 25 true = Ok self
    /\ write_call f (with_t self WhileRunning)
       = Ok (with_Q (with_t self WhileRunning) [crop 10 10 50 50 f])
    /\ height (crop 10 10 50 50 f) = 50
    /\ has_width 50 (crop 10 10 50 50 f)
    /\ nth 0 (nth 0 (crop 10 10 50 50 f) []) 0%nat = 1010%nat.
Proof.
  intro f.
  destruct (@cropper_takes_any_rectangle nat "tube.avi" "MJPG" 10 10 50 50 25 true eq_refl)
    as (self & Hinit & Hwrite & Hinside).
  exists self. split; [exact Hinit|]. split; [apply Hwrite|].
  assert (H10 : 0 <= 10) by lia. assert (H50 : 0 <= 50) by lia.
  assert (Hw : has_width 100 f) by apply (synthetic_size 100 100).
  assert (Hfit : 10 + 50 <= 100) by lia.
  assert (Hh : 10 + 50 <= height f) by (vm_compute; discriminate).
  destruct (Hinside f 100 H10 H10 H50 H50 Hw Hfit Hh) as (B & C & D).
  split; [exact B|]. split; [exact C|].
  rewrite (D 0%nat 0%nat 0%nat) by lia. reflexivity.
Defined.

(** C6, as stated, fails: a rectangle of 50 by 50 at (80, 80), which
    leaves a frame of 100 by 100, is accepted by the constructor; the
    sink starts, and [write] neither fails: it puts in the queue the 20
    by 20 corner that slicing keeps. *)
Lemma oversized_rectangle_is_accepted :
  exists self started wrote : VideoWriter nat,
    VideoCropper_init nat "tube.avi" "MJPG" 80 80 50 50 25 true = Ok self
    /\ start_call self = Ok started
    /\ write_call (synthetic 100 100 (fun r c => (100 * r + c)%nat)) started = Ok wrote
    /\ map (fun f => (height f, map (@length nat) f)) (Q wrote)
       = [(20, repeat 20%nat 20)].
Proof.
  do 3 eexists. repeat split; vm_compute; reflexivity.
Qed.

End SinkFacts.

Module SinkRuns.
Import Image Sink SinkState.
Section Facts.
Variable pixel : Type.
Local Abbreviation frame := (image pixel) (only parsing).

(** *** What every schedule preserves *)

Lemma writer_keeps_shape (self : VideoWriter pixel) :
  origin (writer self) = origin self /\ dimension (writer self) = dimension self
  /\ stopped (writer self) = stopped self.
Proof.
  unfold writer, running.
  destruct (t self); try (repeat split; reflexivity);
    repeat match goal with
           | |- context [if ?b then _ else _] => destruct b
           | |- context [match Q self with _ => _ end] => destruct (Q self)
           end; repeat split; reflexivity.
Qed.

Lemma writer_keeps_started (self : VideoWriter pixel) :
  (t self = Unstarted -> writer self = self)
  /\ (t self <> Unstarted -> t (writer self) <> Unstarted)
  /\ (t self = Exited -> writer self = self).
Proof.
  unfold writer, running.
  destruct (t self) eqn:Ht; repeat split; try congruence; intros _;
    repeat match goal with
           | |- context [if ?b then _ else _] => destruct b
           | |- context [match Q self with _ => _ end] => destruct (Q self)
           end; cbn; congruence.
Qed.

Ltac settle :=
  repeat split; intros; try tauto; try congruence; try lia;
  try match goal with
      | H : _ \/ _ |- _ => destruct H; discriminate
      end;
  try match goal with
      | H : released _ = true, I : released _ = true <-> _ |- _ =>
          apply I in H; discriminate
      end.

Lemma worker_keeps_worker_inv (s : system pixel) :
  worker_inv s -> worker_inv (worker_step s).
Proof.
  unfold worker_inv, worker_step. cbn [sink accepted].
  intros (Hacc & Hnum & Hget & Hrel & Hreleased & Hdrain).
  unfold writer, running.
  destruct (t (sink s)) eqn:Ht; cbn [in_hand counted draining] in *;
    try (rewrite Ht; cbn [in_hand counted draining]; tauto).
  - (* WhileRunning *)
    destruct (stopped (sink s)) eqn:Hs; cbn; settle.
  - (* IfQueued *)
    destruct (Q (sink s)) eqn:HQ; cbn; rewrite ?HQ; settle.
  - (* Get *)
    destruct (Q (sink s)) eqn:HQ; [exfalso; apply Hget; auto|].
    cbn. settle.
  - (* Count *)
    cbn. settle.
  - (* Encode *)
    cbn. rewrite length_app. cbn [length]. settle.
    rewrite Hacc. cbn. rewrite <- app_assoc. reflexivity.
  - (* WhileDrain *)
    destruct (Q (sink s)) eqn:HQ; cbn; rewrite ?HQ; settle.
  - (* DrainGet *)
    destruct (Q (sink s)) eqn:HQ; [exfalso; apply Hget; auto|].
    cbn. settle.
  - (* DrainCount *)
    cbn. settle.
  - (* DrainEncode *)
    cbn. rewrite length_app. cbn [length]. settle.
    rewrite Hacc. cbn. rewrite <- app_assoc. reflexivity.
  - (* Release *)
    cbn. settle.
Qed.

Lemma worker_keeps_caller_inv (self0 : VideoWriter pixel) (frames : list frame)
  (s : system pixel) :
  caller_inv self0 frames s -> caller_inv self0 frames (worker_step s).
Proof.
  unfold caller_inv, worker_step. cbn [sink accepted caller todo].
  destruct (writer_keeps_shape (sink s)) as (Ho & Hd & Hs).
  destruct (writer_keeps_started (sink s)) as (Hu & Hn & He).
  rewrite Ho, Hd, Hs.
  intros (H1 & H2 & H). split; [exact H1|]. split; [exact H2|].
  destruct (caller s).
  - destruct H as [(A & B & C & D)|[(done & rest & A & B & C & D & E)|(A & B & C)]].
    + left. rewrite (Hu A). repeat split; auto.
    + right; left. exists done, rest. repeat split; auto.
    + right; right. rewrite (He C). repeat split; auto.
  - destruct H as (done & rest & A & B & C & D & E). exists done, rest. repeat split; auto.
  - destruct H as (done & rest & A & B & C & D & E). exists done, rest. repeat split; auto.
  - destruct H as (A & B & C & D). repeat split; auto.
  - exact H.
Qed.

Lemma looping_is_alive (pc : writer_pc frame) :
  pc <> Unstarted -> draining pc = false -> is_alive pc = true.
Proof. destruct pc; cbn; congruence. Qed.

Lemma not_draining (s : system pixel) :
  worker_inv s -> stopped (sink s) = false -> draining (t (sink s)) = false.
Proof.
  intros (_ & _ & _ & _ & _ & Hdrain) Hs.
  destruct (draining (t (sink s))); [|reflexivity].
  rewrite Hdrain in Hs by reflexivity. discriminate.
Qed.

Lemma queued_form_shape (self self0 : VideoWriter pixel) (f : frame) :
  origin self = origin self0 -> dimension self = dimension self0 ->
  queued_form self f = queued_form self0 f.
Proof. unfold queued_form. intros -> ->. reflexivity. Qed.

Lemma caller_keeps_inv (self0 : VideoWriter pixel) (frames : list frame)
  (s : system pixel) :
  worker_inv s -> caller_inv self0 frames s ->
  worker_inv (caller_step s) /\ caller_inv self0 frames (caller_step s).
Proof.
  intros Hw Hc.
  pose proof Hw as (Hacc & Hnum & Hget & Hrel & Hreleased & Hdrain).
  pose proof Hc as (Ho & Hd & Hp).
  unfold caller_step.
  destruct (caller s) eqn:Hcaller.
  - (* Between *)
    destruct Hp as [(A & B & C & D)|[(done & rest & A & B & C & D & E)|(A & B & C)]].
    + (* the first call, [start] *)
      rewrite B. unfold session. rewrite A.
      split.
      * unfold worker_inv in *. cbn. rewrite A in *. cbn in *. settle.
      * unfold caller_inv. cbn. split; [exact Ho|]. split; [exact Hd|].
        right; left. exists [], frames. settle.
    + rewrite B. destruct rest as [|f rest]; cbn [map app].
      * (* [stop] *)
        split.
        -- unfold worker_inv in *. cbn. settle.
        -- unfold caller_inv. cbn. split; [exact Ho|]. split; [exact Hd|].
           rewrite app_nil_r in A. subst done. settle.
      * (* [write f] *)
        rewrite (looping_is_alive E (not_draining Hw D)).
        split; [exact Hw|].
        unfold caller_inv. cbn. split; [exact Ho|]. split; [exact Hd|].
        exists done, rest. settle.
    + rewrite A. split; [exact Hw | exact Hc].
  - (* WriteFull *)
    destruct (full (Q (sink s))).
    + split; [exact Hw | exact Hc].
    + split; [exact Hw|]. unfold caller_inv. cbn. repeat split; auto.
  - (* WritePut *)
    destruct (full (Q (sink s))).
    + split; [exact Hw | exact Hc].
    + destruct Hp as (done & rest & A & B & C & D & E).
      pose proof (not_draining Hw D) as Hnd.
      split.
      * unfold worker_inv. cbn. rewrite Hacc, !app_assoc.
        repeat split; try tauto.
        -- intros _. destruct (Q (sink s)); discriminate.
        -- intros [T|T]; rewrite T in Hnd; discriminate.
      * unfold caller_inv. cbn. split; [exact Ho|]. split; [exact Hd|].
        right; left. exists (done ++ [f]), rest.
        rewrite <- app_assoc. cbn. repeat split; try assumption.
        rewrite map_app, C. cbn.
        rewrite queued_form_shape with (self0 := self0) by assumption. reflexivity.
  - (* Join *)
    destruct Hp as (A & B & C & D).
    destruct (t (sink s)) eqn:Ht; try (split; [exact Hw | exact Hc]).
    + congruence.
    + split; [exact Hw|]. unfold caller_inv. cbn. repeat split; auto.
  - destruct Hp.
Qed.

Lemma run_keeps_inv (self0 : VideoWriter pixel) (frames : list frame)
  (schedule : list thread) (s : system pixel) :
  worker_inv s -> caller_inv self0 frames s ->
  worker_inv (run schedule s) /\ caller_inv self0 frames (run schedule s).
Proof.
  revert s. induction schedule as [|who rest IH]; intros s Hw Hc; cbn [run]; auto.
  destruct who; cbn [step].
  - destruct (caller_keeps_inv Hw Hc) as [Hw' Hc']. apply IH; assumption.
  - apply IH; [apply worker_keeps_worker_inv | apply worker_keeps_caller_inv]; assumption.
Qed.

Lemma boot_inv (self0 : VideoWriter pixel) (frames : list frame) :
  fresh self0 ->
  worker_inv (boot self0 (session frames))
  /\ caller_inv self0 frames (boot self0 (session frames)).
Proof.
  intros (A & B & C & D & E & F). split.
  - unfold worker_inv, boot. cbn. rewrite A, B, C, E, F. cbn. settle.
  - unfold caller_inv, boot. cbn. settle.
Qed.



(** *** The worker alone *)

Lemma work_add (a b : nat) (self : VideoWriter pixel) :
  work (a + b) self = work b (work a self).
Proof.
  revert self. induction a as [|a IH]; intro self; cbn; [reflexivity | apply IH].
Qed.

Lemma work_exited (n : nat) (self : VideoWriter pixel) :
  t self = Exited -> work n self = self.
Proof.
  intro H. induction n as [|n IH]; cbn; [reflexivity|].
  unfold writer. rewrite H. exact IH.
Qed.

(** From the head of the second loop the worker encodes the queue, four
    statements for a frame, and releases the handle. *)
Lemma work_drains (q : list frame) :
  forall self : VideoWriter pixel,
    t self = WhileDrain -> Q self = q -> stopped self = true ->
    work (4 * length q + 2) self = drained self.
Proof.
  induction q as [|f q IH]; intros self Ht HQ Hs.
  - destruct self; cbn in *; subst. unfold drained; cbn.
    rewrite app_nil_r, Z.add_0_r. reflexivity.
  - replace (4 * length (f :: q) + 2)%nat with (4 + (4 * length q + 2))%nat
      by (cbn [length]; lia).
    rewrite work_add.
    destruct self; cbn in Ht, HQ, Hs; subst.
    cbn [work writer t Q with_t with_Q with_frame_number with_encoded empty negb
         fname fourcc dimension fps color origin encoded released stopped frame_number].
    rewrite IH by reflexivity.
    unfold drained; cbn -[Z.add Z.of_nat].
    rewrite <- app_assoc. cbn [app]. f_equal. lia.
Qed.

Lemma stop_call_idle (self : VideoWriter pixel) :
  t self = WhileRunning -> stop_call self = Ok (drained self).
Proof.
  intro Ht. unfold stop_call.
  destruct self; cbn in Ht; subst. cbn [with_stopped t Q].
  match goal with |- context [work ?n ?x] =>
    replace n with (1 + ((4 * length Q0 + 2) + (length Q0 + 5)))%nat by lia;
    rewrite (work_add 1), (work_add (4 * length Q0 + 2))
  end.
  cbn [work writer t running stopped negb with_t with_stopped
       fname fourcc dimension fps color origin encoded released Q frame_number].
  rewrite work_drains with (q := Q0) by reflexivity.
  rewrite work_exited by reflexivity.
  reflexivity.
Qed.

(** Once round the first loop: the worker takes a frame from the queue
    and encodes it. *)
Lemma work_once_round (self : VideoWriter pixel) (g : frame) (q : list frame) :
  t self = WhileRunning -> stopped self = false -> Q self = g :: q ->
  work 5 self
  = mkVideoWriter (fname self) (fourcc self) (dimension self) (fps self) (color self)
      (origin self) (encoded self ++ [g]) (released self) q false WhileRunning
      (frame_number self + 1).
Proof.
  intros Ht Hs HQ. destruct self; cbn in Ht, Hs, HQ; subst. reflexivity.
Qed.

Lemma write_call_idle (f : frame) (self : VideoWriter pixel) :
  idle self ->
  exists self',
    write_call f self = Ok self'
    /\ idle self'
    /\ pending self' = pending self ++ [queued_form self f]
    /\ fname self' = fname self
    /\ origin self' = origin self
    /\ dimension self' = dimension self.
Proof.
  intros (Ht & Hs & Hr & Hq & Hn). unfold write_call. rewrite Ht. cbn [is_alive].
  destruct (full (Q self)) eqn:Hfull.
  - unfold full in Hfull. apply Nat.eqb_eq in Hfull.
    destruct (Q self) as [|g q] eqn:HQ; [cbn in Hfull; unfold maxsize in Hfull; lia|].
    rewrite (work_once_round self Ht Hs HQ). cbn [Q].
    cbn [length] in Hfull, Hq.
    assert (Hroom : full q = false) by (unfold full; apply Nat.eqb_neq; lia).
    rewrite Hroom. eexists. split; [reflexivity|].
    unfold idle, pending, queued_form. cbn -[maxsize]. rewrite HQ.
    repeat split; try assumption.
    + rewrite length_app. cbn [length]. lia.
    + rewrite Hn, length_app. cbn [length]. lia.
    + rewrite <- !app_assoc. reflexivity.
  - rewrite Hfull. eexists. split; [reflexivity|].
    unfold full in Hfull. apply Nat.eqb_neq in Hfull.
    unfold idle, pending. cbn -[maxsize].
    repeat split; try assumption.
    + rewrite length_app. cbn [length]. lia.
    + rewrite app_assoc. reflexivity.
Qed.

Lemma start_call_fresh (self : VideoWriter pixel) :
  fresh self ->
  start_call self = Ok (with_t self WhileRunning)
  /\ idle (with_t self WhileRunning)
  /\ pending (with_t self WhileRunning) = [].
Proof.
  intros (A & B & C & D & E & F). unfold start_call. rewrite A.
  split; [reflexivity|]. unfold idle, pending; cbn. rewrite B, C, F.
  repeat split; try assumption; try reflexivity. cbn. unfold maxsize. lia.
Qed.


(** *** Schedules *)

Lemma run_app (a b : list thread) (s : system pixel) :
  run (a ++ b) s = run b (run a s).
Proof. revert s. induction a as [|who a IH]; intro s; cbn; [reflexivity | apply IH]. Qed.

Lemma run_worker (n : nat) (s : system pixel) :
  run (repeat Worker n) s
  = mkSystem (work n (sink s)) (caller s) (todo s) (accepted s).
Proof.
  revert s. induction n as [|n IH]; intro s; cbn [repeat run work].
  - destruct s; reflexivity.
  - rewrite IH. reflexivity.
Qed.

Lemma work_keeps_stopped (n : nat) (self : VideoWriter pixel) :
  stopped (work n self) = stopped self.
Proof.
  revert self. induction n as [|n IH]; intro self; cbn [work]; [reflexivity|].
  rewrite IH. apply writer_keeps_shape.
Qed.

(** *** The calls of a waiting caller are runs of the two threads *)

Lemma work_keeps_shape (n : nat) (self : VideoWriter pixel) :
  origin (work n self) = origin self /\ dimension (work n self) = dimension self.
Proof.
  revert self. induction n as [|n IH]; intro self; cbn [work]; [split; reflexivity|].
  destruct (IH (writer self)) as [Ho Hd].
  destruct (writer_keeps_shape self) as (Ho' & Hd' & _).
  split; congruence.
Qed.

Lemma start_call_is_a_run (self self' : VideoWriter pixel)
  (rest : list (call pixel)) (acc : list frame) :
  start_call self = Ok self' ->
  run [Caller] (mkSystem self Between (Start :: rest) acc)
  = mkSystem self' Between rest acc.
Proof.
  unfold start_call. cbn [run step]. unfold caller_step. cbn [caller todo sink accepted].
  destruct (t self); intro H; inversion H; reflexivity.
Qed.

Lemma write_call_is_a_run (f : frame) (self self' : VideoWriter pixel)
  (rest : list (call pixel)) (acc : list frame) :
  write_call f self = Ok self' ->
  exists schedule,
    run schedule (mkSystem self Between (Write f :: rest) acc)
    = mkSystem self' Between rest (acc ++ [queued_form self f]).
Proof.
  unfold write_call. destruct (is_alive (t self)) eqn:Halive; [|discriminate].
  intro H.
  exists (Caller :: (if full (Q self) then repeat Worker 5 else []) ++ [Caller; Caller]).
  assert (E1 : caller_step (mkSystem self Between (Write f :: rest) acc)
               = mkSystem self (WriteFull f) rest acc)
    by (unfold caller_step; cbn [caller todo sink accepted]; rewrite Halive; reflexivity).
  cbn [run step]. rewrite E1, run_app.
  set (self1 := if full (Q self) then work 5 self else self) in *.
  assert (Hmid : run (if full (Q self) then repeat Worker 5 else [])
                   (mkSystem self (WriteFull f) rest acc)
                 = mkSystem self1 (WriteFull f) rest acc).
  { unfold self1. destruct (full (Q self)); [apply run_worker | reflexivity]. }
  rewrite Hmid. cbv zeta in H.
  destruct (full (Q self1)) eqn:Hfull; [discriminate|]. inversion H; subst self'.
  cbn [run step]. unfold caller_step. cbn [caller todo sink accepted].
  rewrite Hfull. cbn [caller todo sink accepted]. rewrite Hfull.
  assert (Hform : queued_form self1 f = queued_form self f).
  { apply queued_form_shape; unfold self1; destruct (full (Q self)); try reflexivity;
      apply work_keeps_shape. }
  rewrite Hform. reflexivity.
Qed.

Lemma stop_call_is_a_run (self self' : VideoWriter pixel)
  (rest : list (call pixel)) (acc : list frame) :
  stop_call self = Ok self' ->
  run (Caller :: repeat Worker (5 * length (Q self) + 8) ++ [Caller])
    (mkSystem self Between (Stop :: rest) acc)
  = mkSystem self' Between rest acc.
Proof.
  unfold stop_call. cbn [with_stopped t Q].
  intro H.
  assert (E1 : caller_step (mkSystem self Between (Stop :: rest) acc)
               = mkSystem (with_stopped self true) Join rest acc) by reflexivity.
  cbn [run step]. rewrite E1, run_app, run_worker.
  cbn [caller todo sink accepted Q with_stopped].
  cbn [run step]. unfold caller_step. cbn [caller todo sink accepted].
  destruct (t self) eqn:Ht; try discriminate;
    match type of H with
    | match t ?w with _ => _ end = _ =>
        destruct (t w) eqn:Hw; try discriminate; inversion H; subst; reflexivity
    end.
Qed.

(** *** The session can always be carried to its end *)

(** A looping worker takes the head of a queue that is not empty within
    five statements. *)
Lemma worker_takes_one (self : VideoWriter pixel) (g : frame) (q : list frame) :
  stopped self = false -> draining (t self) = false -> t self <> Unstarted ->
  Q self = g :: q ->
  exists n, Q (work n self) = q.
Proof.
  intros Hs Hd Hu HQ. destruct self as [n c d r col o enc rel q0 st pc num].
  cbn in Hs, Hd, Hu, HQ. subst.
  destruct pc; cbn in Hd; try discriminate; try congruence;
    [exists 3%nat | exists 2%nat | exists 1%nat | exists 5%nat | exists 4%nat];
    reflexivity.
Qed.

(** Once the flag is set, a started worker runs to its end. *)
Lemma worker_exits (self : VideoWriter pixel) :
  stopped self = true -> t self <> Unstarted ->
  (t self = Get \/ t self = DrainGet -> Q self <> []) ->
  exists n, t (work n self) = Exited.
Proof.
  intros Hs Hu Hget.
  assert (Hdrain : forall k, t (work k self) = WhileDrain ->
                             exists n, t (work n self) = Exited).
  { intros k Hk. exists (k + (4 * length (Q (work k self)) + 2))%nat.
    rewrite work_add, work_drains with (q := Q (work k self)); try reflexivity.
    - exact Hk.
    - rewrite work_keeps_stopped. exact Hs. }
  destruct self as [n c d r col o enc rel q st pc num]. cbn in Hs, Hu, Hget. subst.
  destruct pc.
  - congruence.
  - apply (Hdrain 1%nat). reflexivity.
  - destruct q; [apply (Hdrain 2%nat) | apply (Hdrain 5%nat)]; reflexivity.
  - destruct q; [exfalso; apply Hget; auto|]. apply (Hdrain 4%nat). reflexivity.
  - apply (Hdrain 3%nat). reflexivity.
  - apply (Hdrain 2%nat). reflexivity.
  - apply (Hdrain 0%nat). reflexivity.
  - destruct q; [exfalso; apply Hget; auto|]. apply (Hdrain 3%nat). reflexivity.
  - apply (Hdrain 2%nat). reflexivity.
  - apply (Hdrain 1%nat). reflexivity.
  - exists 1%nat. reflexivity.
  - exists 0%nat. reflexivity.
Qed.

Lemma full_room (self : VideoWriter pixel) :
  stopped self = false -> draining (t self) = false -> t self <> Unstarted ->
  exists n, full (Q (work n self)) = false.
Proof.
  intros Hs Hd Hu. destruct (full (Q self)) eqn:Hfull.
  - unfold full in Hfull. apply Nat.eqb_eq in Hfull.
    destruct (Q self) as [|g q] eqn:HQ; [cbn in Hfull; unfold maxsize in Hfull; lia|].
    destruct (worker_takes_one self Hs Hd Hu HQ) as (n & Hn).
    exists n. rewrite Hn. unfold full. apply Nat.eqb_neq. cbn [length] in Hfull. lia.
  - exists 0%nat. exact Hfull.
Qed.

Lemma caller_can_progress (self0 : VideoWriter pixel) (frames : list frame)
  (s : system pixel) :
  worker_inv s -> caller_inv self0 frames s -> effort s <> 0%nat ->
  exists schedule, (effort (run schedule s) < effort s)%nat.
Proof.
  intros Hw Hc Heff.
  pose proof Hw as (Hacc & Hnum & Hget & Hrel & Hreleased & Hdrain).
  pose proof Hc as (Ho & Hd & Hp).
  unfold effort in *.
  destruct (caller s) eqn:Hcaller.
  - (* Between *)
    exists [Caller]. cbn [run step]. unfold caller_step. rewrite Hcaller.
    destruct Hp as [(A & B & C & D)|[(done & rest & A & B & C & D & E)|(A & B & C)]].
    + rewrite B, A. unfold session. cbn. lia.
    + rewrite B. destruct rest as [|f rest]; cbn [map app].
      * cbn. lia.
      * rewrite (looping_is_alive E (not_draining Hw D)). cbn. lia.
    + rewrite A in Heff. cbn in Heff. congruence.
  - (* WriteFull *)
    destruct Hp as (done & rest & A & B & C & D & E).
    destruct (full_room (sink s) D (not_draining Hw D) E) as (n & Hn).
    exists (repeat Worker n ++ [Caller]).
    rewrite run_app, run_worker. cbn [run step]. unfold caller_step. cbn [caller sink todo].
    rewrite Hcaller, Hn. cbn. lia.
  - (* WritePut *)
    destruct Hp as (done & rest & A & B & C & D & E).
    destruct (full_room (sink s) D (not_draining Hw D) E) as (n & Hn).
    exists (repeat Worker n ++ [Caller]).
    rewrite run_app, run_worker. cbn [run step]. unfold caller_step. cbn [caller sink todo].
    rewrite Hcaller, Hn. cbn. lia.
  - (* Join *)
    destruct Hp as (A & B & C & D).
    destruct (worker_exits (sink s) C D Hget) as (n & Hn).
    exists (repeat Worker n ++ [Caller]).
    rewrite run_app, run_worker. cbn [run step]. unfold caller_step. cbn [caller sink todo].
    rewrite Hcaller, Hn, A. cbn. lia.
  - destruct Hp.
Qed.

Lemma session_can_finish (self0 : VideoWriter pixel) (frames : list frame) (m : nat) :
  forall s : system pixel,
    worker_inv s -> caller_inv self0 frames s -> (effort s <= m)%nat ->
    exists schedule, finished (run schedule s) = true.
Proof.
  induction m as [|m IH]; intros s Hw Hc Hm.
  - exists []. cbn [run]. unfold effort, finished in *. destruct Hc as (_ & _ & Hp).
    destruct (caller s); try lia; try contradiction.
    destruct (todo s); [reflexivity | cbn in Hm; lia].
  - destruct (Nat.eq_dec (effort s) 0) as [Hz|Hnz]; [apply (IH s Hw Hc); lia|].
    destruct (caller_can_progress Hw Hc Hnz) as (a & Ha).
    destruct (run_keeps_inv a Hw Hc) as [Hw' Hc'].
    destruct (IH (run a s) Hw' Hc') as (b & Hb); [lia|].
    exists (a ++ b). rewrite run_app. exact Hb.
Qed.

(** C1: a sink is started, [frames] are written to it and it is stopped.
    However the caller and the worker interleave, no call raises; the
    encode handle is not released before every frame has been handed to
    it, in the order of the calls; once [stop] has returned the handle
    is released, the queue is empty, and the frames encoded are exactly
    the frames written, [frame_number] counting them; and from wherever
    the threads have got, they can go on to the return of [stop]. *)
Theorem stop_drains_queue (self0 : VideoWriter pixel) (frames : list frame)
  (schedule : list thread) :
  fresh self0 ->
  let s := run schedule (boot self0 (session frames)) in
  (forall e, caller s <> Raised e)
  /\ (released (sink s) = true ->
      encoded (sink s) = map (queued_form self0) frames)
  /\ (finished s = true ->
      released (sink s) = true
      /\ Q (sink s) = []
      /\ encoded (sink s) = map (queued_form self0) frames
      /\ length (encoded (sink s)) = length frames
      /\ frame_number (sink s) = Z.of_nat (length frames))
  /\ (exists more, finished (run (schedule ++ more) (boot self0 (session frames))) = true).
Proof.
  intros Hfresh s.
  destruct (boot_inv frames Hfresh) as [Hw0 Hc0].
  destruct (run_keeps_inv schedule Hw0 Hc0) as [Hw Hc]. fold s in Hw, Hc.
  pose proof Hw as (Hacc & Hnum & Hget & Hrel & Hreleased & Hdrain).
  pose proof Hc as (Ho & Hd & Hp).
  assert (Hexit : t (sink s) = Exited ->
                  encoded (sink s) = map (queued_form self0) frames
                  /\ Q (sink s) = []
                  /\ frame_number (sink s) = Z.of_nat (length frames)).
  { intro Ht.
    assert (HQ : Q (sink s) = []) by auto.
    assert (Hstop : stopped (sink s) = true) by (apply Hdrain; rewrite Ht; reflexivity).
    rewrite Ht, HQ in Hacc. cbn in Hacc. rewrite app_nil_r in Hacc.
    rewrite Ht in Hnum. cbn in Hnum.
    assert (Hall : accepted s = map (queued_form self0) frames).
    { destruct (caller s).
      - destruct Hp as [(A & _)|[(done & rest & A & B & C & D & E)|(A & B & C)]];
          congruence.
      - destruct Hp as (done & rest & A & B & C & D & E). congruence.
      - destruct Hp as (done & rest & A & B & C & D & E). congruence.
      - tauto.
      - destruct Hp. }
    assert (Henc : encoded (sink s) = map (queued_form self0) frames) by congruence.
    repeat split; try assumption.
    rewrite Hnum, Henc, length_map. lia. }
  assert (Hfin : finished s = true -> t (sink s) = Exited).
  { unfold finished. destruct (caller s); try discriminate.
    destruct (todo s) eqn:Htodo; try discriminate. intros _.
    destruct Hp as [(A & B & _)|[(done & rest & A & B & _)|(A & B & C)]].
    - discriminate.
    - destruct rest; discriminate.
    - exact C. }
  split; [intros e He; rewrite He in Hp; exact Hp|].
  split; [intro Hr; apply Hexit, Hreleased, Hr|].
  split.
  - intro Hf. pose proof (Hfin Hf) as Ht. destruct (Hexit Ht) as (E1 & E2 & E3).
    split; [apply Hreleased; exact Ht|].
    split; [exact E2|]. split; [exact E1|]. split; [|exact E3].
    rewrite E1. apply length_map.
  - destruct (session_can_finish Hw Hc (le_n (effort s))) as (more & Hmore).
    exists more. rewrite run_app. exact Hmore.
Qed.

(** *** The contract of [write] *)

Lemma caller_step_todo (s : system pixel) :
  (length (todo (caller_step s)) <= length (todo s))%nat.
Proof.
  unfold caller_step.
  destruct (caller s); try (cbn; lia).
  - destruct (todo s) as [|[|g|] rest] eqn:E; cbn; rewrite ?E; cbn; try lia.
    + destruct (t (sink s)); cbn; lia.
    + destruct (is_alive (t (sink s))); cbn; lia.
  - destruct (full (Q (sink s))); cbn; lia.
  - destruct (full (Q (sink s))); cbn; lia.
  - destruct (t (sink s)); cbn; lia.
Qed.

Lemma caller_step_dispatch (s : system pixel) :
  caller s = Between -> todo s <> [] ->
  (length (todo (caller_step s)) < length (todo s))%nat.
Proof.
  intros Hc Ht. unfold caller_step. rewrite Hc.
  destruct (todo s) as [|[|g|] rest]; [congruence| | |]; cbn; try lia.
  - destruct (t (sink s)); cbn; lia.
  - destruct (is_alive (t (sink s))); cbn; lia.
Qed.

Lemma step_keeps_write_progress (s0 : system pixel) (f : frame)
  (rest : list (call pixel)) (who : thread) (s : system pixel) :
  write_progress s0 f rest s -> write_progress s0 f rest (step who s).
Proof.
  intros (Ho & Hd & H). destruct who; cbn [step].
  - (* the caller *)
    assert (Hshape : origin (sink (caller_step s)) = origin (sink s0)
                     /\ dimension (sink (caller_step s)) = dimension (sink s0)).
    { unfold caller_step. destruct (caller s).
      - destruct (todo s) as [|[|g|] r] eqn:E; cbn; auto.
        + destruct (t (sink s)); cbn; auto.
        + destruct (is_alive (t (sink s))); cbn; auto.
      - destruct (full (Q (sink s))); cbn; auto.
      - destruct (full (Q (sink s))); cbn; auto.
      - destruct (t (sink s)); cbn; auto.
      - cbn; auto. }
    destruct Hshape as [Ho' Hd']. split; [exact Ho'|]. split; [exact Hd'|].
    destruct H as [Hlt|(Htodo & [([Hc|Hc] & Hacc)|(Hc & Hacc)])].
    + left. pose proof (caller_step_todo s). lia.
    + right. unfold caller_step. rewrite Hc.
      destruct (full (Q (sink s))); cbn.
      * split; [exact Htodo|]. left. split; [left; exact Hc | exact Hacc].
      * split; [exact Htodo|]. left. split; [right; reflexivity | exact Hacc].
    + right. unfold caller_step. rewrite Hc.
      destruct (full (Q (sink s))); cbn.
      * split; [exact Htodo|]. left. split; [right; exact Hc | exact Hacc].
      * split; [exact Htodo|]. right. split; [reflexivity|].
        rewrite Hacc. f_equal. f_equal. apply queued_form_shape; assumption.
    + destruct rest as [|c rest].
      * right. unfold caller_step. rewrite Hc, Htodo.
        split; [exact Htodo|]. right. split; assumption.
      * left. rewrite <- Htodo. apply caller_step_dispatch; [exact Hc|].
        rewrite Htodo. discriminate.
  - (* the worker *)
    unfold worker_step. unfold write_progress. cbn [sink todo caller accepted].
    destruct (writer_keeps_shape (sink s)) as (Ho' & Hd' & _).
    rewrite Ho', Hd'. auto.
Qed.

Lemma run_keeps_write_progress (s0 : system pixel) (f : frame)
  (rest : list (call pixel)) (schedule : list thread) (s : system pixel) :
  write_progress s0 f rest s -> write_progress s0 f rest (run schedule s).
Proof.
  revert s. induction schedule as [|who sched IH]; intros s H; cbn [run]; auto.
  apply IH, step_keeps_write_progress, H.
Qed.

(** C9: [write] raises exactly when the test of [is_alive] fails. If the
    worker thread is not alive, [write] raises [IOError] and leaves the
    sink as it was. If it is alive, the caller enters the wait on a full
    queue, and from there on, however the threads interleave, until the
    next call begins the caller is either still inside [write], which
    stands still while the queue is full and puts the frame as soon as it
    is not, or back from [write] with the frame accepted; it never
    raises. *)
Theorem write_raises_only_on_dead_worker (s : system pixel) (f : frame)
  (rest : list (call pixel)) :
  caller s = Between -> todo s = Write f :: rest ->
  (is_alive (t (sink s)) = false ->
   caller_step s
   = mkSystem (sink s) (Raised (IOError "The writer is not ready")) rest (accepted s))
  /\ (is_alive (t (sink s)) = true ->
      caller (caller_step s) = WriteFull f
      /\ forall schedule : list thread,
          let s' := run schedule (caller_step s) in
          todo s' = rest ->
          (in_write f (caller s')
           /\ accepted s' = accepted s
           /\ (full (Q (sink s')) = true -> caller_step s' = s')
           /\ (full (Q (sink s')) = false -> caller s' = WritePut f ->
               caller (caller_step s') = Between
               /\ Q (sink (caller_step s')) = Q (sink s') ++ [queued_form (sink s) f]))
          \/ (caller s' = Between
              /\ accepted s' = accepted s ++ [queued_form (sink s) f])).
Proof.
  intros Hc Htodo. split; intro Halive.
  - unfold caller_step. rewrite Hc, Htodo, Halive. reflexivity.
  - assert (Hstep : caller_step s = mkSystem (sink s) (WriteFull f) rest (accepted s)).
    { unfold caller_step. rewrite Hc, Htodo, Halive. reflexivity. }
    split; [rewrite Hstep; reflexivity|].
    intros schedule s' Hrest.
    assert (H0 : write_progress s f rest (caller_step s)).
    { rewrite Hstep. unfold write_progress. cbn.
      repeat split. right. split; [reflexivity|]. left. split; [left|]; reflexivity. }
    pose proof (run_keeps_write_progress schedule H0) as (Ho & Hd & H). fold s' in Ho, Hd, H.
    destruct H as [Hlt|(_ & [(Hin & Hacc)|(Hb & Hacc)])].
    + rewrite Hrest in Hlt. lia.
    + left. split; [exact Hin|]. split; [exact Hacc|]. split.
      * intro Hfull. unfold caller_step. destruct Hin as [Hin|Hin]; rewrite Hin, Hfull; reflexivity.
      * intros Hroom Hput. unfold caller_step. rewrite Hput, Hroom. cbn.
        split; [reflexivity|]. f_equal. f_equal. apply queued_form_shape; assumption.
    + right. split; assumption.
Qed.

End Facts.

Example small_writer_constructed :
  VideoWriter_init nat "out.avi" "MJPG" 2 2 25 true = Ok small_writer.
Proof. reflexivity. Qed.

(** Three frames written to a plain writer, the two threads taking
    turns. *)
Lemma stop_drains_queue_witness :
  let s := run (in_turn 40) (boot small_writer (session three_small_frames)) in
  fresh small_writer
  /\ finished s = true
  /\ released (sink s) = true
  /\ Q (sink s) = []
  /\ encoded (sink s) = three_small_frames
  /\ frame_number (sink s) = 3.
Proof.
  intro s.
  assert (Hfresh : fresh small_writer) by (repeat split).
  split; [exact Hfresh|].
  destruct (stop_drains_queue three_small_frames (in_turn 40) Hfresh) as (_ & _ & H & _).
  assert (Hfin : finished s = true) by (vm_compute; reflexivity).
  split; [exact Hfin|].
  destruct (H Hfin) as (A & B & C & _ & E).
  split; [exact A|]. split; [exact B|]. split; [exact C | exact E].
Defined.

(** A [write] on the writer of the session above once [stop] has
    returned, and a [write] on the same writer while its worker runs. *)
Lemma write_raises_only_on_dead_worker_witness :
  caller_step late_write
  = mkSystem (sink late_write) (Raised (IOError "The writer is not ready")) []
      (accepted late_write)
  /\ caller (caller_step early_write) = WriteFull (small_frame 4)
  /\ accepted (run (in_turn 2) (caller_step early_write)) = [small_frame 4].
Proof.
  destruct (@write_raises_only_on_dead_worker nat late_write (small_frame 4) []
              eq_refl eq_refl) as (Hdead & _).
  destruct (@write_raises_only_on_dead_worker nat early_write (small_frame 4) [Stop]
              eq_refl eq_refl) as (_ & Halive).
  assert (Hexited : is_alive (t (sink late_write)) = false) by (vm_compute; reflexivity).
  split; [exact (Hdead Hexited)|].
  destruct (Halive eq_refl) as (Hfull & Hrun).
  split; [exact Hfull|].
  assert (Htodo : todo (run (in_turn 2) (caller_step early_write)) = [Stop])
    by (vm_compute; reflexivity).
  destruct (Hrun (in_turn 2) Htodo) as [(Hin & _)|(_ & Hacc)].
  - exfalso. destruct Hin as [Hin|Hin]; vm_compute in Hin; discriminate.
  - rewrite Hacc. reflexivity.
Defined.

End SinkRuns.

(** ** FrameSource: what [read] returns *)

Module SourceRuns.
Import Source SourceState.

Lemma room_le (B E p : Z) : room B E p <= Z.max 0 (E - B).
Proof. unfold room. lia. Qed.

Lemma room_mono (B E p p' : Z) : p <= p' -> room B E p <= room B E p'.
Proof. unfold room. lia. Qed.

Lemma room_next (B E p : Z) : B <= p -> p < E -> room B E p + 1 <= room B E (p + 1).
Proof. unfold room. lia. Qed.

Lemma cam_grab_pos (c : Camera) :
  (fst (cam_grab c) = true -> cam_pos (snd (cam_grab c)) = cam_pos c + 1)
  /\ (fst (cam_grab c) = false -> cam_pos (snd (cam_grab c)) = cam_pos c).
Proof.
  unfold cam_grab. destruct (cam_frame_count c <=? cam_pos c); cbn; [split; congruence|].
  destruct (cam_glitches c) as [|[|] g]; cbn; split; congruence.
Qed.

Lemma worker_keeps_reader_inv (B E : Z) (s : system) :
  reader_inv B E s -> reader_inv B E (worker_step s).
Proof.
  unfold reader_inv, worker_step, delivered, obtained.
  cbn [stream todo returned caller].
  intros (HB & (e & He & HE) & Hp & H).
  unfold reader, after, before.
  destruct (t (stream s)) eqn:Ht.
  - (* Unstarted *) rewrite Ht. repeat split; eauto; try tauto.
  - (* WhileNotStopped *)
    destruct (stopped (stream s)); cbn; repeat split; eauto; try tauto.
  - (* IfNotFull *)
    destruct (full (Q (stream s))); cbn; repeat split; eauto; try tauto.
  - (* IfReachedEnd *)
    rewrite He. destruct (Time.frame_number e <=? cap_position (stream s)); cbn;
      repeat split; eauto; try tauto.
  - (* SetStopped *) cbn. repeat split; eauto; try tauto.
  - (* ReadPosition *) cbn. repeat split; eauto; try tauto.
  - (* IfAfter *)
    rewrite He. destruct H as (Hpos & Hd).
    destruct (Time.frame_number e <=? cap_position (stream s)) eqn:Hcmp; cbn;
      repeat split; eauto; try tauto.
    apply Z.leb_gt in Hcmp. lia.
  - (* Grab *)
    destruct H as (Hpos & Hlt & Hd).
    pose proof (cam_grab_pos (camera (stream s))) as [Hok Hfail].
    destruct (cam_grab (camera (stream s))) as [[|] cam]; cbn in *;
      repeat split; eauto; try lia;
      first [ rewrite Hok by reflexivity; lia
            | rewrite Hpos; exact Hd
            | rewrite Hfail by reflexivity; assumption ].
  - (* WhileNotGrabbed *)
    destruct grabbed; cbn.
    + repeat split; eauto; try tauto.
    + destruct H as (Hpos & Hlt & Hd).
      pose proof (cam_grab_pos (camera (stream s))) as [Hok Hfail].
      destruct (cam_grab (camera (stream s))) as [[|] cam]; cbn in *;
        repeat split; eauto; try lia;
        first [ rewrite Hok by reflexivity; lia
              | rewrite Hpos; exact Hd
              | rewrite Hfail by reflexivity; assumption ].
  - (* Retrieve *) cbn. repeat split; eauto; try tauto.
  - (* IfNotBefore *)
    destruct H as (Hpos & Hlt & Hd).
    destruct (cap_position (stream s) <? Time.frame_number (beginning (stream s))) eqn:Hb;
      cbn; repeat split; eauto; try tauto.
    + rewrite Hpos. etransitivity; [exact Hd|]. apply room_mono. lia.
    + apply Z.ltb_ge in Hb. lia.
  - (* Put *)
    destruct H as (Hpos & Hlt & Hge & Hd).
    destruct (full (Q (stream s))); cbn.
    + rewrite Ht. repeat split; eauto; try tauto.
    + repeat split; eauto; try tauto. rewrite length_app. cbn [List.length].
      rewrite Hpos. pose proof (room_next Hge Hlt). lia.
  - (* ReleaseCamera *) cbn. repeat split; eauto; try tauto.
  - (* SetReleased *) cbn. repeat split; eauto; try tauto.
  - (* Exited *) rewrite Ht. repeat split; eauto; try tauto.
  - (* Died *) rewrite Ht. repeat split; eauto; try tauto.
Qed.


Lemma frames_of_app (l l' : list (option frame)) :
  frames_of (l ++ l') = frames_of l ++ frames_of l'.
Proof. unfold frames_of. apply flat_map_app. Qed.

Lemma caller_keeps_reader_inv (B E : Z) (s : system) :
  reader_inv B E s -> reader_inv B E (caller_step s).
Proof.
  intro Hs. pose proof Hs as (HB & He & Hp & H).
  assert (Hsame : forall pc l r,
             Forall passive l ->
             delivered (mkSystem (stream s) pc l r) = delivered s ->
             reader_inv B E (mkSystem (stream s) pc l r)).
  { intros pc l r Hl Hdel. unfold reader_inv. rewrite Hdel. cbn [stream todo].
    repeat split; assumption. }
  assert (Hnone : delivered
                    (mkSystem (stream s) Between (todo s) (returned s ++ [None]))
                  = delivered s).
  { unfold delivered, obtained. cbn. rewrite frames_of_app. cbn.
    rewrite app_nil_r. reflexivity. }
  assert (Hkeep : forall pc r, delivered (mkSystem (stream s) pc (todo s) r) = delivered s
                               -> reader_inv B E (mkSystem (stream s) pc (todo s) r))
    by (intros; apply Hsame; assumption).
  unfold caller_step, read_returns.
  destruct (caller s) as [|l|l|l|l|l| |x] eqn:Hc.
  - (* Between *)
    destruct (todo s) as [|c rest] eqn:Htodo.
    + exact Hs.
    + inversion Hp as [|? ? Hpc Hrest]; subst.
      destruct c; cbn in Hpc; try contradiction;
        try (apply Hsame; [assumption | reflexivity]).
      * (* Start *)
        destruct (t (stream s)) eqn:Ht; try (apply Hsame; [assumption | reflexivity]).
        unfold reader_inv, delivered, obtained in *. cbn.
        repeat split; assumption.
      * (* Stop *)
        unfold reader_inv, delivered, obtained in *. cbn.
        repeat split; assumption.
  - destruct (Nat.eqb (qsize (Q (stream s))) 0); apply Hkeep; reflexivity.
  - destruct (negb (is_alive (t (stream s)))).
    + destruct l; apply Hkeep; exact Hnone.
    + apply Hkeep; reflexivity.
  - destruct (stopped (stream s)).
    + destruct l; apply Hkeep; exact Hnone.
    + apply Hkeep; reflexivity.
  - (* ReadCount *)
    unfold reader_inv, delivered, obtained in *. cbn. repeat split; assumption.
  - (* ReadGet *)
    destruct (Q (stream s)) as [|f q] eqn:HQ.
    + exact Hs.
    + assert (Hdel : forall pc,
                 delivered (mkSystem (with_Q (stream s) q) pc (todo s)
                              (returned s ++ [Some f]))
                 = delivered s).
      { intro pc. unfold delivered, obtained. cbn. rewrite frames_of_app, length_app, HQ.
        cbn. lia. }
      destruct l; unfold reader_inv; rewrite Hdel; cbn; repeat split; assumption.
  - (* Join *)
    destruct (t (stream s)) eqn:Ht; first [exact Hs | apply Hkeep; reflexivity].
  - exact Hs.
Qed.

Lemma run_keeps_reader_inv (B E : Z) (schedule : list thread) (s : system) :
  reader_inv B E s -> reader_inv B E (run schedule s).
Proof.
  revert s. induction schedule as [|who rest IH]; intros s H; cbn [run]; auto.
  apply IH. destruct who; cbn [step].
  - apply caller_keeps_reader_inv, H.
  - apply worker_keeps_reader_inv, H.
Qed.

Lemma reader_inv_bound (B E : Z) (s : system) :
  reader_inv B E s ->
  Z.of_nat (List.length (obtained s)) <= Z.max 0 (E - B).
Proof.
  intros (_ & _ & _ & H).
  assert (Hd : exists p, delivered s <= room B E p).
  { destruct (t (stream s)); try destruct grabbed; eexists; apply H. }
  destruct Hd as [p Hd]. pose proof (room_le B E p). unfold delivered in Hd. lia.
Qed.

Lemma init_beginning (name : string) (cam : Camera)
  (b e : option Time.expression) (q : bool) (vs : VideoStream) :
  VideoStream_init name cam b e q = Ok vs ->
  Q vs = [] /\ t vs = Unstarted.
Proof.
  intro H. destruct (EndFacts.init_sets_end _ _ _ _ _ H) as (_ & Ht & _).
  split; [|exact Ht].
  unfold VideoStream_init in H.
  match type of H with context [Time.VideoTime_init ?x ?r] =>
    destruct (Time.VideoTime_init x r) as [v0| |] end; cbn [bind] in H; try discriminate.
  unfold set_beginning in H.
  match type of H with context [Time.VideoTime_init ?x ?r] =>
    destruct (Time.VideoTime_init x r) as [v1| |] end; cbn [bind] in H; try discriminate.
  unfold set_end in H. destruct e.
  - match type of H with context [Time.VideoTime_init ?x ?r] =>
      destruct (Time.VideoTime_init x r) as [v2| |] end; cbn [bind] in H; try discriminate.
    inversion H. reflexivity.
  - match type of H with context [Time.frame_videotime ?x ?r] =>
      destruct (Time.frame_videotime x r) as [v2| |] end; cbn [bind] in H; try discriminate.
    inversion H. reflexivity.
Qed.

(** C2: a source opened without an end on a file of [frame_count]
    frames, its window beginning at frame index [begin_index], hands its
    client at most [frame_count - begin_index] frames, whatever passive
    calls the client makes and however the threads interleave; when
    [begin_index <= frame_count] that is fewer than
    [frame_count - begin_index + 1]. *)
Theorem end_None_stops_one_frame_short (name : string) (cam : Camera)
  (b : option Time.expression) (q : bool) (vs : VideoStream)
  (calls : list call) (schedule : list thread) :
  VideoStream_init name cam b None q = Ok vs ->
  Forall passive calls ->
  let s := run schedule (boot vs calls) in
  let frame_count := cam_frame_count cam in
  let begin_index := Time.frame_number (beginning vs) in
  Z.of_nat (List.length (obtained s)) <= Z.max 0 (frame_count - begin_index)
  /\ (begin_index <= frame_count ->
      Z.of_nat (List.length (obtained s)) < frame_count - begin_index + 1).
Proof.
  intros Hinit Hcalls s frame_count begin_index.
  destruct (EndFacts.init_sets_end _ _ _ _ _ Hinit) as (_ & Ht & _ & Hend).
  destruct (Hend eq_refl) as (e & He & _ & HE).
  destruct (init_beginning _ _ _ _ _ Hinit) as (HQ & _).
  assert (H0 : reader_inv begin_index frame_count (boot vs calls)).
  { unfold reader_inv, boot, delivered, obtained. cbn. rewrite Ht, HQ. cbn.
    repeat split; eauto. unfold room. lia. }
  pose proof (reader_inv_bound (run_keeps_reader_inv schedule H0)) as Hb.
  fold s in Hb. split; [exact Hb | lia].
Qed.

(** The bound is reached: on the file of three frames, read from its
    first frame on, the loop [for frame in stream] receives frames 1 and
    2, two frames, and then the end of the stream. *)
Example whole_of_three_yields_two :
  let s := run (in_turn 60) (boot whole_of_three [Start; Iterate]) in
  finished s = true /\ returned s = [Some 1; Some 2; None]
  /\ Time.frame_number (beginning whole_of_three) = 1
  /\ length whole_of_three = 3.
Proof. vm_compute. repeat split. Qed.


(** *** Reading an exhausted source *)

Lemma worker_keeps_exhausted (self : VideoStream) :
  exhausted self -> exhausted (reader self).
Proof.
  intros ((Hs & Ht) & HQ). unfold exhausted, worker_stopped, reader.
  destruct Ht as [Ht|[Ht|Ht]]; rewrite Ht; cbn; auto 10.
Qed.

Lemma repeat_snoc (A : Type) (x : A) (n : nat) : repeat x n ++ [x] = repeat x (S n).
Proof. induction n as [|n IH]; cbn; [reflexivity | rewrite IH; reflexivity]. Qed.

Lemma step_keeps_reads_done (s0 : system) (k : nat) (who : thread) (s : system) :
  reads_done s0 k s ->
  reads_done s0 k (step who s)
  /\ match who with
     | Caller => (reads_left (step who s) <= reads_left s - 1)%nat
     | Worker => reads_left (step who s) = reads_left s
     end.
Proof.
  intros (Hex & Hpc & j & m & Hret & Htodo & Hsum).
  destruct who; cbn [step].
  - (* the caller *)
    pose proof Hex as ((Hs & Ht) & HQ).
    unfold caller_step, read_returns, reads_left.
    destruct Hpc as [Hpc|[Hpc|[Hpc|Hpc]]]; rewrite Hpc in *.
    + rewrite Htodo. destruct m as [|m]; cbn [repeat].
      * split; [|rewrite Htodo, Hpc; cbn; lia].
        unfold reads_done. rewrite Hpc. repeat split; auto.
        -- left; reflexivity.
        -- exists j, 0%nat. auto.
      * cbn. split; [|lia].
        unfold reads_done. cbn. repeat split; auto.
        -- right; left; reflexivity.
        -- exists j, m. repeat split; auto. lia.
    + rewrite HQ. cbn. split; [|lia].
      unfold reads_done. cbn. repeat split; auto.
      * right; right; left; reflexivity.
      * exists j, m. auto.
    + destruct (negb (is_alive (t (stream s)))); cbn; (split; [|lia]).
      * unfold reads_done. cbn. repeat split; auto.
        -- left; reflexivity.
        -- exists (S j), m. rewrite Hret, <- app_assoc, repeat_snoc.
           repeat split; auto. lia.
      * unfold reads_done. cbn. repeat split; auto.
        -- right; right; right; reflexivity.
        -- exists j, m. auto.
    + rewrite Hs. cbn. split; [|lia].
      unfold reads_done. cbn. repeat split; auto.
      * left; reflexivity.
      * exists (S j), m. rewrite Hret, <- app_assoc, repeat_snoc.
        repeat split; auto. lia.
  - (* the worker *)
    split; [|reflexivity].
    unfold reads_done, worker_step. cbn [stream caller todo returned].
    split; [apply worker_keeps_exhausted, Hex|]. split; [exact Hpc|].
    exists j, m. auto.
Qed.

Lemma run_keeps_reads_done (s0 : system) (k : nat) (schedule : list thread) (s : system) :
  reads_done s0 k s ->
  reads_done s0 k (run schedule s)
  /\ (reads_left (run schedule s) <= reads_left s - caller_turns schedule)%nat.
Proof.
  revert s. induction schedule as [|who rest IH]; intros s H; cbn [run].
  - split; [exact H | unfold caller_turns; cbn; lia].
  - destruct (step_keeps_reads_done who H) as [H' Hleft].
    destruct (IH _ H') as [H'' Hleft'].
    split; [exact H''|].
    unfold caller_turns in *. destruct who; cbn [filter List.length] in *; lia.
Qed.

(** The client interleaves with the worker so that the frame the worker
    puts in the queue between two tests of [read] is missed: of the file
    of three frames the second [read] returns the end of the stream while
    frame 2 sits in the queue. *)
Example read_can_miss_a_queued_frame :
  let s := run (Caller :: repeat Worker 11
                ++ repeat Caller 5 ++ [Caller; Caller]
                ++ repeat Worker 15 ++ [Caller])
             (boot whole_of_three [Start; Read; Read]) in
  returned s = [Some 1; None] /\ Q (stream s) = [2] /\ finished s = true.
Proof. vm_compute. repeat split. Qed.


(** C3, as the code has it. Once the worker has stopped and the queue is
    empty, the source stays so, every call of [read] returns [None]
    however the threads interleave, and [k] calls are over within [4 * k]
    statements of the caller: none waits. And a [read] during which the
    worker does not run returns the oldest queued frame when there is
    one; on an empty queue it returns [None] if the worker thread is not
    alive, be it ended or never started, or if the flag [stopped] is set,
    and otherwise it is back at its first test: it waits. *)
Theorem read_contract :
  (forall (s : system) (k : nat) (schedule : list thread),
      caller s = Between -> todo s = repeat Read k -> exhausted (stream s) ->
      let s' := run schedule s in
      exhausted (stream s')
      /\ (exists j, (j <= k)%nat /\ returned s' = returned s ++ repeat None j)
      /\ ((4 * k <= caller_turns schedule)%nat ->
          finished s' = true /\ returned s' = returned s ++ repeat None k))
  /\ (forall (s : system) (rest : list call),
         caller s = Between -> todo s = Read :: rest ->
         let self := stream s in
         match Q self with
         | f :: q =>
             run (repeat Caller 4) s
             = mkSystem (with_Q (with_frame_number self (frame_number self + 1)) q)
                 Between rest (returned s ++ [Some f])
         | [] =>
             if negb (is_alive (t self)) then
               run (repeat Caller 3) s
               = mkSystem self Between rest (returned s ++ [None])
             else if stopped self then
               run (repeat Caller 4) s
               = mkSystem self Between rest (returned s ++ [None])
             else
               run (repeat Caller 4) s = run (repeat Caller 1) s
         end).
Proof.
  split.
  - intros s k schedule Hc Htodo Hex s'.
    assert (H0 : reads_done s k s).
    { unfold reads_done. rewrite Hc. split; [exact Hex|]. split; [left; reflexivity|].
      exists 0%nat, k. cbn. rewrite app_nil_r. repeat split; auto. }
    destruct (run_keeps_reads_done schedule H0) as [(Hex' & Hpc & j & m & Hret & Htd & Hsum) Hleft].
    fold s' in Hex', Hpc, Hret, Htd, Hsum, Hleft.
    split; [exact Hex'|]. split.
    + exists j. split; [lia | exact Hret].
    + intro Hturns.
      assert (Hzero : reads_left s' = 0%nat).
      { unfold reads_left in Hleft at 2. rewrite Hc, Htodo, repeat_length in Hleft. lia. }
      unfold reads_left in Hzero.
      assert (Htd0 : todo s' = []) by (destruct (todo s'); [reflexivity | cbn in Hzero; lia]).
      assert (Hb : caller s' = Between).
      { destruct Hpc as [Hpc|[Hpc|[Hpc|Hpc]]]; rewrite Hpc in Hzero; cbn in Hzero;
          [exact Hpc | lia | lia | lia]. }
      split; [unfold finished; rewrite Hb, Htd0; reflexivity|].
      rewrite Hb in Hsum. rewrite Htd in Htd0.
      destruct m; [|discriminate]. replace k with j by lia. exact Hret.
  - intros s rest Hc Htodo self. subst self.
    destruct s as [self pc td ret]. cbn in Hc, Htodo. subst pc td.
    cbn [stream returned].
    assert (E1 : caller_step (mkSystem self Between (Read :: rest) ret)
                 = mkSystem self (ReadWhileEmpty false) rest ret) by reflexivity.
    cbn [repeat run step]. rewrite E1.
    destruct (Q self) as [|f q] eqn:HQ.
    + assert (E2 : caller_step (mkSystem self (ReadWhileEmpty false) rest ret)
                   = mkSystem self (ReadIfDead false) rest ret)
        by (unfold caller_step; cbn; rewrite HQ; reflexivity).
      rewrite E2.
      destruct (negb (is_alive (t self))) eqn:Ha.
      * unfold caller_step; cbn. rewrite Ha. reflexivity.
      * assert (E3 : caller_step (mkSystem self (ReadIfDead false) rest ret)
                     = mkSystem self (ReadIfStopped false) rest ret)
          by (unfold caller_step; cbn; rewrite Ha; reflexivity).
        rewrite E3.
        destruct (stopped self) eqn:Hs; unfold caller_step; cbn; rewrite Hs; reflexivity.
    + assert (E2 : caller_step (mkSystem self (ReadWhileEmpty false) rest ret)
                   = mkSystem self (ReadCount false) rest ret)
        by (unfold caller_step; cbn; rewrite HQ; reflexivity).
      rewrite E2.
      unfold caller_step; cbn. rewrite HQ. reflexivity.
Qed.

(** C3, as stated, fails: [read] on a source that was never started
    returns the end of the stream at once, although the worker has not
    stopped ([running] answers [True]) and the file has frames left. *)
Lemma read_before_start_returns_None :
  let s := run [Caller; Caller; Caller] (boot whole_of_three [Read]) in
  returned s = [None]
  /\ running (stream s) = true
  /\ t (stream s) = Unstarted
  /\ cam_pos (camera (stream s)) < cam_frame_count (camera (stream s)).
Proof. vm_compute. repeat split. Qed.

(** The file of three frames read from its first frame to its end. *)
Lemma end_None_stops_one_frame_short_witness :
  let s := run (in_turn 60) (boot whole_of_three [Start; Iterate]) in
  Z.of_nat (List.length (obtained s)) <= Z.max 0 (3 - 1)
  /\ (1 <= 3 -> Z.of_nat (List.length (obtained s)) < 3 - 1 + 1).
Proof.
  apply (@end_None_stops_one_frame_short "three.avi" three_frames None true
           whole_of_three [Start; Iterate] (in_turn 60)).
  - vm_compute. reflexivity.
  - repeat constructor.
Defined.

(** Two calls of [read] on the source of three frames once it is spent,
    the worker taking its turns all the same; and one call on the same
    source while frames 1 and 2 are queued. *)
Lemma read_contract_witness :
  let s := mkSystem spent_of_three Between [Read; Read] [] in
  let s' := run (in_turn 8) s in
  let full := mkSystem filled_of_three Between [Read] [] in
  exhausted (stream s')
  /\ finished s' = true
  /\ returned s' = [None; None]
  /\ returned (run (repeat Caller 4) full) = [Some 1]
  /\ Q (stream (run (repeat Caller 4) full)) = [2].
Proof.
  intros s s' full.
  destruct read_contract as (Hspent & Halone).
  assert (Hex : exhausted (stream s)).
  { vm_compute. repeat split. right; right; reflexivity. }
  destruct (Hspent s 2%nat (in_turn 8) eq_refl eq_refl Hex) as (Hex' & _ & Hk).
  assert (Hturns : (4 * 2 <= caller_turns (in_turn 8))%nat) by (vm_compute; lia).
  destruct (Hk Hturns) as (Hfin & Hret).
  split; [exact Hex'|]. split; [exact Hfin|]. split; [exact Hret|].
  pose proof (Halone full [] eq_refl eq_refl) as Hread.
  assert (HQ : Q (stream full) = [1; 2]) by (vm_compute; reflexivity).
  cbv zeta in Hread. rewrite HQ in Hread. rewrite Hread. split; reflexivity.
Defined.

End SourceRuns.
(** ** Binary floating point *)

Module Binary64Facts.
Import Binary64.

Lemma two_to_pos (e : Z) : (0 < two_to e)%Q.
Proof.
  unfold two_to. destruct (0 <=? e) eqn:E.
  - apply Z.leb_le in E. unfold Qlt. cbn. rewrite Z.mul_1_r.
    apply Z.pow_pos_nonneg; lia.
  - reflexivity.
Qed.

Lemma two_to_le (e : Z) (n : Z) (d : positive) :
  0 < n ->
  ((two_to e <= n # d)%Q <->
   if 0 <=? e then 2 ^ e * Zpos d <= n else Zpos d <= n * 2 ^ (- e)).
Proof.
  intro Hn. unfold two_to. destruct (0 <=? e) eqn:E.
  - unfold Qle. cbn. lia.
  - apply Z.leb_gt in E.
    assert (H : 0 < 2 ^ (- e)) by (apply Z.pow_pos_nonneg; lia).
    unfold Qle. cbn [Qnum Qden]. rewrite Z2Pos.id by lia. lia.
Qed.

Lemma two_to_gt (e : Z) (n : Z) (d : positive) :
  0 < n ->
  ((n # d < two_to e)%Q <->
   if 0 <=? e then n < 2 ^ e * Zpos d else n * 2 ^ (- e) < Zpos d).
Proof.
  intro Hn. unfold two_to. destruct (0 <=? e) eqn:E.
  - unfold Qlt. cbn. lia.
  - apply Z.leb_gt in E.
    assert (H : 0 < 2 ^ (- e)) by (apply Z.pow_pos_nonneg; lia).
    unfold Qlt. cbn [Qnum Qden]. rewrite Z2Pos.id by lia. lia.
Qed.

Lemma exponent_spec (q : Q) :
  ~ (q == 0)%Q ->
  (two_to (exponent q) <= Qabs q)%Q /\ (Qabs q < two_to (exponent q + 1))%Q.
Proof.
  intro Hq. destruct q as [n d]. unfold exponent. cbn [Qnum Qden].
  assert (Hn : 0 < Z.abs n).
  { unfold Qeq in Hq. cbn in Hq. lia. }
  change (Qabs (n # d)) with (Z.abs n # d).
  set (a := Z.log2 (Z.abs n)). set (b := Z.log2 (Zpos d)).
  pose proof (Z.log2_spec (Z.abs n) Hn) as [Ha1 Ha2]. fold a in Ha1, Ha2.
  pose proof (Z.log2_spec (Zpos d) ltac:(lia)) as [Hb1 Hb2]. fold b in Hb1, Hb2.
  assert (Ha0 : 0 <= a) by apply Z.log2_nonneg.
  assert (Hb0 : 0 <= b) by apply Z.log2_nonneg.
  assert (Pa : 0 < 2 ^ a) by (apply Z.pow_pos_nonneg; lia).
  assert (Pb : 0 < 2 ^ b) by (apply Z.pow_pos_nonneg; lia).
  rewrite Z.pow_succ_r in Ha2, Hb2 by lia.
  assert (Hup : (Z.abs n # d < two_to (a - b + 1))%Q).
  { apply two_to_gt; [exact Hn|].
    destruct (0 <=? a - b + 1) eqn:E.
    - apply Z.leb_le in E.
      assert (2 * 2 ^ a = 2 ^ (a - b + 1) * 2 ^ b).
      { rewrite <- Z.pow_add_r by lia. rewrite <- Z.pow_succ_r by lia. f_equal. lia. }
      assert (0 < 2 ^ (a - b + 1)) by (apply Z.pow_pos_nonneg; lia). nia.
    - apply Z.leb_gt in E.
      assert (2 * 2 ^ a * 2 ^ (- (a - b + 1)) = 2 ^ b).
      { rewrite <- Z.pow_succ_r by lia. rewrite <- Z.pow_add_r by lia. f_equal. lia. }
      assert (0 < 2 ^ (- (a - b + 1))) by (apply Z.pow_pos_nonneg; lia). nia. }
  assert (Hlow : (two_to (a - b - 1) <= Z.abs n # d)%Q).
  { apply two_to_le; [exact Hn|].
    destruct (0 <=? a - b - 1) eqn:E.
    - apply Z.leb_le in E.
      assert (2 ^ a = 2 ^ (a - b - 1) * (2 * 2 ^ b)).
      { rewrite <- Z.pow_succ_r by lia. rewrite <- Z.pow_add_r by lia. f_equal. lia. }
      assert (0 < 2 ^ (a - b - 1)) by (apply Z.pow_pos_nonneg; lia). nia.
    - apply Z.leb_gt in E.
      assert (2 ^ a * 2 ^ (- (a - b - 1)) = 2 * 2 ^ b).
      { rewrite <- Z.pow_succ_r by lia. rewrite <- Z.pow_add_r by lia. f_equal. lia. }
      assert (0 < 2 ^ (- (a - b - 1))) by (apply Z.pow_pos_nonneg; lia). nia. }
  destruct (Qle_bool (two_to (a - b)) (Z.abs n # d)) eqn:C.
  - apply Qle_bool_iff in C. split; assumption.
  - split; [exact Hlow|].
    replace (a - b - 1 + 1) with (a - b) by lia.
    apply Qnot_le_lt. intro H. apply Qle_bool_iff in H. congruence.
Qed.

Lemma two_to_Qpower (e : Z) : (two_to e == 2 ^ e)%Q.
Proof.
  unfold two_to. destruct (0 <=? e) eqn:E.
  - apply Z.leb_le in E. apply (Zpower_Qpower 2 e E).
  - apply Z.leb_gt in E.
    assert (H : 0 < 2 ^ (- e)) by (apply Z.pow_pos_nonneg; lia).
    rewrite <- (Z.opp_involutive e) at 2. rewrite Qpower_opp.
    rewrite <- (Zpower_Qpower 2 (- e)) by lia.
    destruct (2 ^ (- e)) as [|p|p] eqn:P; try lia. reflexivity.
Qed.

Lemma two_to_add (a b : Z) : (two_to (a + b) == two_to a * two_to b)%Q.
Proof. rewrite !two_to_Qpower. apply Qpower_plus. discriminate. Qed.

Lemma two_to_mono (a b : Z) : a <= b -> (two_to a <= two_to b)%Q.
Proof.
  intro H. rewrite !two_to_Qpower. apply Qpower_le_compat_l; [exact H|].
  unfold Qle. cbn. lia.
Qed.

Lemma round_half_even_near (x : Q) :
  (Qabs (inject_Z (PyText.round_half_even x) - x) <= 1 # 2)%Q.
Proof.
  destruct x as [n d]. unfold PyText.round_half_even. cbn [Qnum Qden].
  pose proof (Z.div_mod n (Zpos d) ltac:(lia)) as Hdm.
  pose proof (Z.mod_pos_bound n (Zpos d) ltac:(lia)) as Hr.
  set (fl := n / Zpos d) in *. set (r := n mod Zpos d) in *.
  assert (Hcase : forall m, 2 * Z.abs (m * Zpos d - n) <= Zpos d ->
                            (Qabs (inject_Z m - (n # d)) <= 1 # 2)%Q).
  { intros m Hm. unfold Qminus, Qplus, Qopp, inject_Z. cbn [Qnum Qden].
    unfold Qabs, Qle. cbn [Qnum Qden]. rewrite Pos.mul_1_l. lia. }
  destruct (2 * r <? Zpos d) eqn:E1; [apply Z.ltb_lt in E1; apply Hcase; lia|].
  apply Z.ltb_ge in E1.
  destruct (Zpos d <? 2 * r) eqn:E2; [apply Z.ltb_lt in E2; apply Hcase; lia|].
  apply Z.ltb_ge in E2.
  destruct (Z.even fl); apply Hcase; lia.
Qed.

Lemma round_half_even_below (x : Q) (k : Z) :
  (0 <= x)%Q -> (x <= inject_Z k)%Q -> 0 <= PyText.round_half_even x <= k.
Proof.
  destruct x as [n d]. unfold PyText.round_half_even, Qle, inject_Z. cbn [Qnum Qden].
  rewrite !Z.mul_1_r. intros H0 Hk.
  pose proof (Z.div_mod n (Zpos d) ltac:(lia)) as Hdm.
  pose proof (Z.mod_pos_bound n (Zpos d) ltac:(lia)) as Hr.
  set (fl := n / Zpos d) in *. set (r := n mod Zpos d) in *.
  assert (0 <= fl) by (apply Z.div_pos; lia).
  assert (fl <= k) by nia.
  assert (0 < r -> fl + 1 <= k) by nia.
  destruct (2 * r <? Zpos d) eqn:E1; [lia|]. apply Z.ltb_ge in E1.
  destruct (Zpos d <? 2 * r); [lia|].
  destruct (Z.even fl); lia.
Qed.

(** [nearest] rounds to the grid of [q], to within half a step, on a
    significand of 53 bits, and gives infinity from
    [2 ^ 1024 - 2 ^ 970] on. *)
Lemma nearest_spec (q : Q) :
  ~ (q == 0)%Q ->
  match nearest q with
  | Finite v =>
      (exists m : Z, (v == inject_Z m * ulp q)%Q /\ Z.abs m <= 2 ^ 53)
      /\ (Qabs (v - q) <= ulp q / 2)%Q
      /\ (Qabs v < two_to 1024)%Q
  | Infinite negative =>
      (two_to 1024 - two_to 970 <= Qabs q)%Q /\ negative = negb (Qle_bool 0 q)
  | NaN => False
  end.
Proof.
  intro Hq. unfold nearest.
  destruct (Qeq_bool q 0) eqn:E0; [apply Qeq_bool_iff in E0; contradiction|].
  fold (ulp q).
  destruct (exponent_spec Hq) as [Hlow Hup].
  assert (Hu : (0 < ulp q)%Q) by apply two_to_pos.
  set (x := (Qabs q / ulp q)%Q).
  set (m := PyText.round_half_even x).
  assert (Hx0 : (0 <= x)%Q).
  { unfold x. apply Qle_shift_div_l; [exact Hu|]. rewrite Qmult_0_l. apply Qabs_nonneg. }
  assert (Hxk : (x <= inject_Z (2 ^ 53))%Q).
  { unfold x. apply Qle_shift_div_r; [exact Hu|].
    apply Qlt_le_weak. eapply Qlt_le_trans; [exact Hup|].
    change (inject_Z (2 ^ 53)) with (two_to 53). unfold ulp.
    rewrite <- two_to_add. apply two_to_mono. lia. }
  destruct (round_half_even_below Hx0 Hxk) as [Hm0 Hm53]. fold m in Hm0, Hm53.
  pose proof (round_half_even_near x) as Hnear. fold m in Hnear.
  assert (Hv : (Qabs (inject_Z m * ulp q - Qabs q) <= ulp q / 2)%Q).
  { setoid_replace (inject_Z m * ulp q - Qabs q)%Q
      with ((inject_Z m - x) * ulp q)%Q by (unfold x; field; intro H; rewrite H in Hu; discriminate).
    rewrite Qabs_Qmult. rewrite (Qabs_pos (ulp q)) by (apply Qlt_le_weak, Hu).
    setoid_replace (ulp q / 2)%Q with ((1 # 2) * ulp q)%Q by field.
    apply Qmult_le_compat_r; [exact Hnear | apply Qlt_le_weak, Hu]. }
  set (v := Qred (inject_Z m * ulp q)).
  assert (Hvq : (v == inject_Z m * ulp q)%Q) by apply Qred_correct.
  assert (Hv0 : (0 <= v)%Q).
  { rewrite Hvq. apply Qmult_le_0_compat; [|apply Qlt_le_weak, Hu].
    unfold Qle. cbn. lia. }
  rewrite <- Hvq in Hv.
  apply Qabs_Qle_condition in Hv. destruct Hv as [Hv1 Hv2].
  destruct (Qle_bool (two_to 1024) v) eqn:Eo.
  - apply Qle_bool_iff in Eo. cbv beta iota. split; [|reflexivity].
    destruct (Z_le_gt_dec 1024 (exponent q)) as [Hbig|Hsmall].
    + apply Qle_trans with (two_to 1024).
      * apply Qle_minus_iff. ring_simplify. apply Qlt_le_weak, two_to_pos.
      * apply Qle_trans with (two_to (exponent q)); [apply two_to_mono, Hbig | exact Hlow].
    + assert (Hulp : (ulp q / 2 <= two_to 970)%Q).
      { setoid_replace (two_to 970) with (two_to 971 / 2)%Q by (vm_compute; reflexivity).
        apply Qmult_le_compat_r; [|discriminate]. apply two_to_mono. lia. }
      lra.
  - assert (Hlt : (v < two_to 1024)%Q).
    { apply Qnot_le_lt. intro H. apply Qle_bool_iff in H. congruence. }
    destruct (Qle_bool 0 q) eqn:Es; cbv beta iota.
    + apply Qle_bool_iff in Es. rewrite (Qabs_pos q Es) in *.
      split; [exists m; split; [exact Hvq | lia]|].
      split; [apply Qabs_Qle_condition; split; assumption|].
      rewrite Qabs_pos by exact Hv0. exact Hlt.
    + assert (Hneg : (q < 0)%Q).
      { apply Qnot_le_lt. intro H. apply Qle_bool_iff in H. congruence. }
      rewrite (Qabs_neg q (Qlt_le_weak _ _ Hneg)) in *.
      assert (Hr : (Qred (- v) == - v)%Q) by apply Qred_correct.
      split; [exists (- m); split; [rewrite Hr, Hvq, inject_Z_opp; ring | lia]|].
      split.
      * rewrite Hr. apply Qabs_Qle_condition. split; lra.
      * rewrite Hr, Qabs_opp, Qabs_pos by exact Hv0. exact Hlt.
Qed.

(** The [float]s nearest to a tenth and to three tenths, and the sum of
    ten tenths, which is below one. *)
Example tenth : nearest (1 # 10) = Finite (3602879701896397 # 36028797018963968).
Proof. vm_compute. reflexivity. Qed.

Example three_tenths :
  add (nearest (1 # 10)) (nearest (2 # 10))
  = Finite (1351079888211149 # 4503599627370496).
Proof. vm_compute. reflexivity. Qed.

Example ten_tenths :
  fold_left add (repeat (inverse 10) 10) (Finite 0)
  = Finite (9007199254740991 # 9007199254740992).
Proof. vm_compute. reflexivity. Qed.

End Binary64Facts.


(** ** StreamOrchestrator *)

Module OrchestratorRuns.
Import Image Sink SinkState Orchestrator OrchestratorState.

Section Runs.
Variable pixel : Type.
Local Abbreviation frame := (image pixel) (only parsing).

Variable options : Options.
Variable crops : crops_table.
Hypothesis four_characters : String.length (fourcc options) = 4%nat.

(** *** Calls on a group *)

Lemma for_each_Forall2 (A : Type) (P P' : A -> VideoWriter pixel -> Prop)
  (call : VideoWriter pixel -> result (VideoWriter pixel)) :
  (forall a c, P a c -> exists c', call c = Ok c' /\ P' a c') ->
  forall (l : list A) (g : list (VideoWriter pixel)),
    Forall2 P l g -> exists g', for_each call g = Ok g' /\ Forall2 P' l g'.
Proof.
  intros Hcall l g H. induction H as [|a c l g Hac _ IH].
  - exists []. split; [reflexivity | constructor].
  - destruct (Hcall a c Hac) as (c' & Hc' & HP').
    destruct IH as (g' & Hg' & HF).
    exists (c' :: g'). split; [cbn; rewrite Hc', Hg'; reflexivity|].
    constructor; assumption.
Qed.

Lemma get_croppers_array_ok (prefix : string) (table : crops_table) :
  get_croppers_array pixel table (fourcc options) (fps options) (color options) prefix
  = Ok (map (cropper_of pixel options prefix) table).
Proof.
  unfold get_croppers_array. induction table as [|[name [[[x y] w] h]] rest IH].
  - reflexivity.
  - cbn [for_each map]. rewrite SinkFacts.VideoCropper_init_ok by exact four_characters.
    rewrite IH. reflexivity.
Qed.

Lemma start_group (prefix : string) (table : crops_table) :
  exists group,
    for_each (@start_call pixel) (map (cropper_of pixel options prefix) table) = Ok group
    /\ group_open table prefix [] group.
Proof.
  induction table as [|[name [[[x y] w] h]] rest IH].
  - exists []. split; [reflexivity | constructor].
  - destruct IH as (group & Hg & Hopen).
    eexists. split.
    + cbn [map for_each cropper_of start_call t]. rewrite Hg. reflexivity.
    + constructor; [|exact Hopen].
      unfold idle, pending, queued_form, cropped; cbn.
      repeat split; try reflexivity. unfold maxsize. lia.
Qed.

Lemma write_group (prefix : string) (frames : list frame) (f : frame)
  (group : list (VideoWriter pixel)) :
  group_open crops prefix frames group ->
  exists group',
    for_each (write_call f) group = Ok group'
    /\ group_open crops prefix (frames ++ [f]) group'.
Proof.
  apply for_each_Forall2. intros entry c (Hidle & Hname & Hform & Hpend).
  destruct (SinkRuns.write_call_idle f Hidle) as (c' & Hc' & Hidle' & Hpend' & Hn & Ho & Hd).
  exists c'. split; [exact Hc'|].
  split; [exact Hidle'|]. split; [congruence|]. split.
  - intro g. rewrite <- Hform. apply SinkRuns.queued_form_shape; assumption.
  - rewrite Hpend', Hpend, Hform, map_app. reflexivity.
Qed.

Lemma stop_group (prefix : string) (frames : list frame)
  (group : list (VideoWriter pixel)) :
  group_open crops prefix frames group ->
  exists group',
    for_each (@stop_call pixel) group = Ok group'
    /\ group_closed crops prefix frames group'.
Proof.
  apply for_each_Forall2.
  intros entry c ((Ht & Hs & Hr & Hq & Hn) & Hname & Hform & Hpend).
  exists (drained c). split; [apply SinkRuns.stop_call_idle; exact Ht|].
  unfold drained, pending in *; cbn.
  repeat split; try assumption.
  rewrite Hn. rewrite <- (length_map (cropped entry) frames), <- Hpend, length_app. lia.
Qed.


(** *** The frame loop *)

Lemma labelled_app (n : Z) (a b : list (list frame)) :
  labelled n (a ++ b) = labelled n a ++ labelled (n + Z.of_nat (length a)) b.
Proof.
  revert n. induction a as [|x a IH]; intro n; cbn [app labelled length].
  - rewrite Z.add_0_r. reflexivity.
  - rewrite IH. do 3 f_equal. lia.
Qed.

Lemma on_frame_step (done : list (list frame)) (current : list frame)
  (st : state pixel) (rate : QArith_base.Q) (f : frame) :
  loop_inv crops done current st -> ~ (rate == 0)%Q ->
  exists st',
    on_frame options crops st rate f = Ok st'
    /\ elapsed_seconds st' = Binary64.add (elapsed_seconds st) (Binary64.inverse rate)
    /\ match remaining_splits st with
       | next :: later =>
           if Binary64.reaches (Binary64.add (elapsed_seconds st) (Binary64.inverse rate)) (Time.seconds next)
           then remaining_splits st' = later
                /\ loop_inv crops (done ++ [current]) [f] st'
           else remaining_splits st' = next :: later
                /\ loop_inv crops done (current ++ [f]) st'
       | [] =>
           remaining_splits st' = []
           /\ loop_inv crops done (current ++ [f]) st'
       end.
Proof.
  intros (Hj & Hopen & Hclosed) Hrate. unfold on_frame.
  destruct (Qeq_bool rate 0) eqn:Hz; [apply Qeq_bool_iff in Hz; contradiction|].
  assert (Hstay : forall sp,
             exists st',
               (wrote <- for_each (write_call f) (croppers st) ;;
                Ok (mkState sp (j st) wrote (Binary64.add (elapsed_seconds st) (Binary64.inverse rate))
                      (closed st))) = Ok st'
               /\ elapsed_seconds st' = Binary64.add (elapsed_seconds st) (Binary64.inverse rate)
               /\ remaining_splits st' = sp
               /\ loop_inv crops done (current ++ [f]) st').
  { intro sp. destruct (write_group f Hopen) as (g' & Hg' & Hopen').
    rewrite Hg'. cbn [bind]. eexists. split; [reflexivity|].
    unfold loop_inv.
    cbn [j croppers closed remaining_splits elapsed_seconds]. repeat split; assumption. }
  destruct (remaining_splits st) as [|next later] eqn:Hsp.
  - cbn [bind remaining_splits j croppers elapsed_seconds closed].
    destruct (Hstay []) as (st' & H1 & H2 & H3 & H4). exists st'. auto.
  - destruct (Binary64.reaches (Binary64.add (elapsed_seconds st) (Binary64.inverse rate)) (Time.seconds next)).
    + destruct (stop_group Hopen) as (halted & Hhalted & Hold).
      rewrite Hhalted. cbn [bind].
      rewrite get_croppers_array_ok. cbn [bind].
      destruct (start_group (part_prefix (j st + 1)) crops) as (started & Hstarted & Hnew).
      rewrite Hstarted. cbn [bind remaining_splits j croppers elapsed_seconds closed].
      destruct (write_group f Hnew) as (g' & Hg' & Hopen').
      rewrite Hg'. cbn [bind]. eexists. split; [reflexivity|].
      unfold loop_inv.
      cbn [j croppers closed remaining_splits elapsed_seconds]. repeat split.
      * rewrite length_app. cbn [length]. lia.
      * exact Hopen'.
      * unfold groups_hold. rewrite labelled_app. apply Forall2_app; [exact Hclosed|].
        cbn [labelled]. constructor; [|constructor]. cbn [fst snd].
        rewrite <- Hj. exact Hold.
    + cbn [bind remaining_splits j croppers elapsed_seconds closed].
      destruct (Hstay (next :: later)) as (st' & H1 & H2 & H3 & H4). exists st'. auto.
Qed.

(** The croppers of the new group are made only after [stop] has come
    back from every cropper of the old one: when a [stop] raises or
    waits for ever, so does the body of the loop. *)
Lemma rotation_stops_first (st : state pixel) (rate : QArith_base.Q) (f : frame)
  (next : Time.TimeStamp) (later : list Time.TimeStamp) :
  remaining_splits st = next :: later ->
  Binary64.reaches (Binary64.add (elapsed_seconds st) (Binary64.inverse rate)) (Time.seconds next) = true ->
  ~ (rate == 0)%Q ->
  match for_each (@stop_call pixel) (croppers st) with
  | Ok _ => True
  | Raise e => on_frame options crops st rate f = Raise e
  | Blocks => on_frame options crops st rate f = Blocks
  end.
Proof.
  intros Hsp Hreach Hrate. unfold on_frame.
  destruct (Qeq_bool rate 0) eqn:Hz; [apply Qeq_bool_iff in Hz; contradiction|].
  rewrite Hsp, Hreach.
  destruct (for_each (@stop_call pixel) (croppers st)); [exact I | reflexivity | reflexivity].
Qed.

Lemma consume_runs (input : footage pixel) :
  forall (done : list (list frame)) (current : list frame) (st : state pixel),
    loop_inv crops done current st ->
    Forall (fun shot => ~ (fst shot == 0)%Q) input ->
    exists st' runs last,
      consume options crops st input = Ok st'
      /\ segments (elapsed_seconds st) (remaining_splits st) current input
         = runs ++ [last]
      /\ loop_inv crops (done ++ runs) last st'.
Proof.
  induction input as [|[rate f] rest IH]; intros done current st Hinv Hrates.
  - exists st, [], current. cbn. rewrite app_nil_r. auto.
  - inversion Hrates as [|? ? Hrate Hrest]; subst. cbn [fst] in Hrate.
    destruct (on_frame_step f Hinv Hrate) as (st1 & Hst1 & Hel & Hcase).
    cbn [consume segments]. rewrite Hst1. cbn [bind].
    destruct (remaining_splits st) as [|next later].
    + destruct Hcase as (Hsp & Hinv1).
      destruct (IH _ _ _ Hinv1 Hrest) as (st' & runs & last & Hc & Hseg & Hinv').
      rewrite Hel, Hsp in Hseg. exists st', runs, last. auto.
    + destruct (Binary64.reaches (Binary64.add (elapsed_seconds st) (Binary64.inverse rate)) (Time.seconds next));
        destruct Hcase as (Hsp & Hinv1);
        destruct (IH _ _ _ Hinv1 Hrest) as (st' & runs & last & Hc & Hseg & Hinv');
        rewrite Hel, Hsp in Hseg.
      * exists st', (current :: runs), last. split; [exact Hc|].
        split; [cbn [app]; rewrite Hseg; reflexivity|].
        rewrite <- app_assoc in Hinv'. exact Hinv'.
      * exists st', runs, last. auto.
Qed.

Lemma main_runs (input : footage pixel) :
  splits options <> [] ->
  Forall (fun shot => ~ (fst shot == 0)%Q) input ->
  exists groups,
    main options crops input = Ok groups
    /\ groups_hold crops
         (labelled 1 (segments (start_seconds options) (splits options) [] input))
         groups.
Proof.
  intros Hsplits Hrates. unfold main, prepare.
  assert (Hprefix : match splits options with
                    | [] => EmptyString
                    | _ => "part1_"%string
                    end = part_prefix 1)
    by (destruct (splits options); [contradiction | reflexivity]).
  rewrite Hprefix, get_croppers_array_ok. cbn [bind].
  destruct (start_group (part_prefix 1) crops) as (started & Hstarted & Hopen).
  rewrite Hstarted. cbn [bind].
  assert (Hinv : loop_inv crops [] []
                   (mkState (splits options) 1 started (start_seconds options) [])).
  { unfold loop_inv. cbn. repeat split; [exact Hopen | constructor]. }
  destruct (consume_runs Hinv Hrates) as (st' & runs & last & Hc & Hseg & Hj & Hopen' & Hclosed).
  rewrite Hc. cbn [bind].
  destruct (stop_group Hopen') as (halted & Hhalted & Hlast).
  rewrite Hhalted. cbn [bind]. eexists. split; [reflexivity|].
  cbn [elapsed_seconds remaining_splits] in Hseg. rewrite Hseg.
  unfold groups_hold. rewrite labelled_app. apply Forall2_app; [exact Hclosed|].
  cbn [labelled]. constructor; [|constructor]. cbn [fst snd].
  cbn [app] in Hj. rewrite <- Hj. exact Hlast.
Qed.

(** *** The runs of the specification *)

Lemma segments_concat (input : footage pixel) :
  forall (elapsed : Binary64.double) (pending_splits : list Time.TimeStamp) (current : list frame),
    concat (segments elapsed pending_splits current input) = current ++ map snd input.
Proof.
  induction input as [|[rate f] rest IH]; intros elapsed sp current; cbn [segments map snd].
  - cbn. rewrite !app_nil_r. reflexivity.
  - destruct sp as [|next later].
    + rewrite IH, <- app_assoc. reflexivity.
    + destruct (Binary64.reaches (Binary64.add elapsed (Binary64.inverse rate)) (Time.seconds next)).
      * cbn [concat]. rewrite IH. reflexivity.
      * rewrite IH, <- app_assoc. reflexivity.
Qed.

Lemma last_cons_default (A : Type) (l : list A) :
  forall x d : A, last (x :: l) d = last l x.
Proof.
  induction l as [|y l IH]; intros x d; [reflexivity|].
  change (last (x :: y :: l) d) with (last (y :: l) d).
  rewrite (IH y d), (IH y x). reflexivity.
Qed.

Lemma elapsed_after_cons (rate : QArith_base.Q) (f : frame) (a : footage pixel)
  (elapsed : Binary64.double) :
  elapsed_after elapsed ((rate, f) :: a)
  = elapsed_after (Binary64.add elapsed (Binary64.inverse rate)) a.
Proof. unfold elapsed_after. cbn [clock]. apply last_cons_default. Qed.

Lemma clock_app (a b : footage pixel) (elapsed : Binary64.double) :
  clock elapsed (a ++ b) = clock elapsed a ++ clock (elapsed_after elapsed a) b.
Proof.
  revert elapsed. induction a as [|[rate f] a IH]; intro elapsed.
  - reflexivity.
  - cbn [app clock]. rewrite IH, elapsed_after_cons. reflexivity.
Qed.

Lemma elapsed_after_snoc (a : footage pixel) (rate : QArith_base.Q) (f : frame) (elapsed : Binary64.double) :
  elapsed_after elapsed (a ++ [(rate, f)])
  = Binary64.add (elapsed_after elapsed a) (Binary64.inverse rate).
Proof.
  unfold elapsed_after at 1. rewrite clock_app. cbn [clock].
  apply last_last.
Qed.

(** The first run ends exactly before the first frame after which the
    elapsed time has reached the next split, and that frame opens the
    next run. *)
Lemma segments_first_crossing (before : footage pixel) :
  forall (elapsed : Binary64.double) (next : Time.TimeStamp) (later : list Time.TimeStamp)
         (current : list frame) (rate : QArith_base.Q) (f : frame) (rest : footage pixel),
    Forall (fun e => Binary64.reaches e (Time.seconds next) = false) (clock elapsed before) ->
    Binary64.reaches (elapsed_after elapsed (before ++ [(rate, f)])) (Time.seconds next) = true ->
    segments elapsed (next :: later) current (before ++ (rate, f) :: rest)
    = (current ++ map snd before)
        :: segments (elapsed_after elapsed (before ++ [(rate, f)])) later [f] rest.
Proof.
  induction before as [|[r g] before IH];
    intros elapsed next later current rate f rest Hbelow Hreach.
  - unfold elapsed_after in *. cbn [app segments map clock last] in *.
    rewrite Hreach, app_nil_r. reflexivity.
  - cbn [app segments map snd]. cbn [clock] in Hbelow. cbn [app] in Hreach.
    apply Forall_cons_iff in Hbelow. destruct Hbelow as [Hlt Hrest].
    rewrite elapsed_after_cons in Hreach. rewrite elapsed_after_cons.
    destruct (Binary64.reaches (Binary64.add elapsed (Binary64.inverse r)) (Time.seconds next)) eqn:Hcmp.
    + congruence.
    + rewrite IH by assumption. rewrite <- app_assoc. reflexivity.
Qed.


Lemma segments_head (input : footage pixel) :
  forall (elapsed : Binary64.double) (pending_splits : list Time.TimeStamp)
         (current : list frame),
  exists more tail,
    segments elapsed pending_splits current input = (current ++ more) :: tail.
Proof.
  induction input as [|[rate f] rest IH]; intros elapsed sp current; cbn [segments].
  - exists [], []. rewrite app_nil_r. reflexivity.
  - destruct sp as [|next later].
    + destruct (IH (Binary64.add elapsed (Binary64.inverse rate)) [] (current ++ [f])) as (more & tail & H).
      exists (f :: more), tail. rewrite H, <- app_assoc. reflexivity.
    + destruct (Binary64.reaches (Binary64.add elapsed (Binary64.inverse rate)) (Time.seconds next)).
      * exists [], (segments (Binary64.add elapsed (Binary64.inverse rate)) later [f] rest).
        rewrite app_nil_r. reflexivity.
      * destruct (IH (Binary64.add elapsed (Binary64.inverse rate)) (next :: later) (current ++ [f]))
          as (more & tail & H).
        exists (f :: more), tail. rewrite H, <- app_assoc. reflexivity.
Qed.

(** C5: the split list of the run begins with [next], and [f] is the
    first frame after which the elapsed time has reached [next]; the
    elapsed time is the [float] the program accumulates, from the start
    option on, by adding the rounded quotient [1.0/fps] of the stream
    for each frame consumed, each sum being rounded. Then [main] ends normally with at least two groups
    of croppers. The first wrote the files prefixed [part1_] and holds
    exactly the frames before [f]; the second wrote the files prefixed
    [part2_] and its frames begin with [f]; every group was stopped with
    its queue drained and its handle released; and the runs of frames of
    the successive groups, put end to end, are the frames consumed: the
    counts of the groups add up to the number of frames. *)
Theorem rotation_at_first_crossing (before : footage pixel) (rate : QArith_base.Q)
  (f : frame) (rest : footage pixel) (next : Time.TimeStamp)
  (later : list Time.TimeStamp) :
  splits options = next :: later ->
  Forall (fun shot => ~ (fst shot == 0)%Q) (before ++ (rate, f) :: rest) ->
  Forall (fun e => Binary64.reaches e (Time.seconds next) = false)
    (clock (start_seconds options) before) ->
  Binary64.reaches
    (elapsed_after (start_seconds options) (before ++ [(rate, f)]))
    (Time.seconds next) = true ->
  let input := before ++ (rate, f) :: rest in
  let runs := segments (start_seconds options) (splits options) [] input in
  exists first second others more,
    main options crops input = Ok (first :: second :: others)
    /\ group_closed crops "part1_" (map snd before) first
    /\ group_closed crops "part2_" (f :: more) second
    /\ groups_hold crops (labelled 1 runs) (first :: second :: others)
    /\ concat runs = map snd input
    /\ list_sum (map (@length frame) runs) = length input.
Proof.
  intros Hsplits Hrates Hbelow Hreach input runs.
  assert (Hne : splits options <> []) by (rewrite Hsplits; discriminate).
  destruct (main_runs Hne Hrates) as (groups & Hmain & Hhold).
  fold input in Hmain, Hhold. fold runs in Hhold.
  pose proof (segments_concat input (start_seconds options) (splits options) [])
    as Hcat.
  fold runs in Hcat. cbn [app] in Hcat.
  assert (Hruns : exists more tail, runs = map snd before :: (f :: more) :: tail).
  { unfold runs, input. rewrite Hsplits.
    pose proof segments_first_crossing as Hseg.
    specialize (Hseg before _ next later [] rate f rest Hbelow Hreach).
    rewrite Hseg.
    pose proof segments_head as Hhead.
    specialize (Hhead rest
                  (elapsed_after (start_seconds options) (before ++ [(rate, f)]))
                  later [f]).
    destruct Hhead as (more & tail & Htail).
    rewrite Htail. exists more, tail. reflexivity. }
  destruct Hruns as (more & tail & Hruns).
  pose proof Hhold as Hhold'. rewrite Hruns in Hhold'. cbn [labelled] in Hhold'.
  inversion Hhold' as [|r1 first rs gs Hfirst Hrest']; subst r1 rs groups.
  inversion Hrest' as [|r2 second rs' others Hsecond Hothers]; subst r2 rs' gs.
  exists first, second, others, more.
  split; [exact Hmain|]. split; [exact Hfirst|]. split; [exact Hsecond|].
  split; [exact Hhold|]. split; [exact Hcat|].
  rewrite <- (length_map snd input), <- Hcat, length_concat. reflexivity.
Qed.

End Runs.

(** Thirty-three frames at thirty frames per second, split after one
    second: the elapsed time after thirty frames is the [float] just
    below [1.0], so that the first group receives thirty frames and the
    thirty-first opens the second. *)
Lemma rotation_at_first_crossing_witness :
  let before := map take (seq 1 30) in
  let input := before ++ take 31 :: map take (seq 32 2) in
  let runs := segments (start_seconds one_split) (splits one_split) [] input in
  elapsed_after (start_seconds one_split) before
  = Binary64.Finite (9007199254740991 # 9007199254740992)
  /\ exists first second others more,
       main one_split two_regions input = Ok (first :: second :: others)
       /\ group_closed two_regions "part1_" (map snd before) first
       /\ group_closed two_regions "part2_" (snd (take 31) :: more) second
       /\ groups_hold two_regions (labelled 1 runs) (first :: second :: others)
       /\ concat runs = map snd input
       /\ list_sum (map (@length (image nat)) runs) = length input.
Proof.
  split; [vm_compute; reflexivity|].
  apply (@rotation_at_first_crossing nat one_split two_regions eq_refl
           (map take (seq 1 30)) (30 # 1) (snd (take 31)) (map take (seq 32 2))
           (Time.mkTimeStamp (1 # 3600) (1 # 60) 1) []).
  - reflexivity.
  - cbn [map seq app]. repeat constructor; intro H; vm_compute in H; discriminate.
  - cbn [map seq]. repeat (constructor; [vm_compute; reflexivity|]). constructor.
  - vm_compute. reflexivity.
Defined.

(** The files of that run and the number of frames in each. *)
Example rotation_files :
  match main one_split two_regions (map take (seq 1 33)) with
  | Ok groups =>
      map (fun group => map (fun c => (fname c, length (encoded c))) group) groups
      = [[("part1_a.avi"%string, 30%nat); ("part1_b.avi"%string, 30%nat)];
         [("part2_a.avi"%string, 3%nat); ("part2_b.avi"%string, 3%nat)]]
  | _ => False
  end.
Proof. vm_compute. reflexivity. Qed.

(** Six frames at four frames per second, split after half a second and
    after one second. *)
Example rotation_files_at_four_frames_per_second :
  match main two_splits two_regions (map shot (seq 1 6)) with
  | Ok groups =>
      map (fun group => map (fun c => (fname c, length (encoded c))) group) groups
      = [[("part1_a.avi"%string, 1%nat); ("part1_b.avi"%string, 1%nat)];
         [("part2_a.avi"%string, 2%nat); ("part2_b.avi"%string, 2%nat)];
         [("part3_a.avi"%string, 3%nat); ("part3_b.avi"%string, 3%nat)]]
  | _ => False
  end.
Proof. vm_compute. reflexivity. Qed.

End OrchestratorRuns.

(** ** FrameSink: any client, any schedule *)

Module SinkClientRuns.
Import Image Sink SinkState SinkClient.

Section Facts.
Variable pixel : Type.
Local Abbreviation frame := (image pixel) (only parsing).

Ltac split_ifs :=
  repeat match goal with
         | |- context [if ?b then _ else _] => destruct b eqn:?
         | |- context [match Q ?x with _ => _ end] => destruct (Q x) eqn:?
         end.

Lemma writer_queue (self : VideoWriter pixel) :
  (length (Q (writer self)) <= length (Q self))%nat.
Proof.
  unfold writer, running. destruct (t self); split_ifs; cbn; try lia.
  all: match goal with H : Q _ = _ |- _ => rewrite H; cbn; lia end.
Qed.

Lemma writer_exits_when_stopped (self : VideoWriter pixel) :
  t (writer self) = Exited -> t self <> Exited -> draining (t self) = true.
Proof.
  unfold writer, running. destruct (t self) eqn:Ht; split_ifs; cbn; congruence.
Qed.

Lemma worker_keeps_client_inv (s : system pixel) :
  worker_inv s -> client_inv s -> client_inv (worker_step s).
Proof.
  intros Hw (Hlen & Hput & Hwrite & Hstop).
  pose proof (writer_queue (sink s)) as Hq.
  destruct (SinkRuns.writer_keeps_shape (sink s)) as (_ & _ & Hs).
  destruct (SinkRuns.writer_keeps_started (sink s)) as (Hu & Hn & He).
  unfold client_inv, worker_step. cbn [sink caller].
  rewrite Hs. repeat split.
  - lia.
  - intros f Hf. specialize (Hput f Hf). lia.
  - apply (Hwrite f H).
  - apply Hn, (Hwrite f H).
  - intro Hst. destruct (Hstop Hst) as [H|[H|H]]; auto.
    right; right. rewrite (He H). exact H.
Qed.

Lemma raise_keeps_client_inv (s : system pixel) (e : exn) (rest : list (call pixel)) :
  worker_inv s -> client_inv s ->
  worker_inv (mkSystem (sink s) (Raised e) rest (accepted s))
  /\ client_inv (mkSystem (sink s) (Raised e) rest (accepted s)).
Proof.
  intros Hw (Hlen & _). split; [exact Hw|].
  unfold client_inv. cbn. split; [exact Hlen|]. split; [discriminate|].
  split; [intros f [H|H]; discriminate|]. intros _. right; left. eauto.
Qed.

Lemma caller_keeps_client_inv (s : system pixel) :
  worker_inv s -> client_inv s ->
  worker_inv (caller_step s) /\ client_inv (caller_step s).
Proof.
  intros Hw Hc.
  pose proof Hw as (Hacc & Hnum & Hget & Hrel & Hreleased & Hdrain).
  pose proof Hc as (Hlen & Hput & Hwrite & Hstop).
  assert (Hquiet : caller s = Between -> t (sink s) <> Exited -> stopped (sink s) = false).
  { intros Hb Ht. destruct (stopped (sink s)); [|reflexivity].
    destruct (Hstop eq_refl) as [H|[[e H]|H]]; congruence. }
  unfold caller_step.
  destruct (caller s) eqn:Hcaller.
  - (* Between *)
    destruct (todo s) as [|[|f|] rest] eqn:Htodo.
    + split; assumption.
    + (* start *)
      destruct (t (sink s)) eqn:Ht; try (apply raise_keeps_client_inv; assumption).
      assert (Hs : stopped (sink s) = false) by (apply Hquiet; congruence).
      split.
      * unfold worker_inv in *. cbn. rewrite Ht in *. cbn in *.
        repeat split; try tauto; try congruence;
          try (intros [?|?]; discriminate); try (intro; discriminate).
        intro H. apply Hreleased in H. discriminate.
      * unfold client_inv. cbn. repeat split; auto;
          try (intros ? [?|?]; discriminate); try discriminate. congruence.
    + (* write *)
      destruct (is_alive (t (sink s))) eqn:Halive.
      * assert (Hex : t (sink s) <> Exited)
          by (intro H'; rewrite H' in Halive; discriminate).
        assert (Hun : t (sink s) <> Unstarted)
          by (intro H'; rewrite H' in Halive; discriminate).
        pose proof (Hquiet eq_refl Hex) as Hs.
        split; [exact Hw|]. unfold client_inv. cbn.
        split; [exact Hlen|]. split; [discriminate|]. split; [auto|]. congruence.
      * apply raise_keeps_client_inv; assumption.
    + (* stop *)
      split.
      * unfold worker_inv in *. cbn. repeat split; try tauto.
      * unfold client_inv. cbn. split; [exact Hlen|]. split; [discriminate|].
        split; [intros f0 [H|H]; discriminate|]. auto.
  - (* WriteFull *)
    destruct (full (Q (sink s))) eqn:Hfull; [split; assumption|].
    split; [exact Hw|]. unfold client_inv. cbn. repeat split; auto.
    + intros f0 _. unfold full in Hfull. apply Nat.eqb_neq in Hfull. lia.
    + apply (Hwrite f). left; reflexivity.
    + apply (Hwrite f). left; reflexivity.
    + intro H. destruct (Hwrite f (or_introl eq_refl)) as [H' _]. congruence.
  - (* WritePut *)
    destruct (full (Q (sink s))) eqn:Hfull; [split; assumption|].
    destruct (Hwrite f (or_intror eq_refl)) as [Hs Hu].
    pose proof (SinkRuns.not_draining Hw Hs) as Hnd.
    split.
    + unfold worker_inv. cbn. rewrite Hacc, !app_assoc.
      repeat split; try tauto.
      * intros _. destruct (Q (sink s)); discriminate.
      * intros [T|T]; rewrite T in Hnd; discriminate.
    + unfold client_inv. cbn. rewrite length_app. cbn [length].
      specialize (Hput f eq_refl).
      split; [lia|]. split; [discriminate|].
      split; [intros f0 [H|H]; discriminate|]. intro H. congruence.
  - (* Join *)
    destruct (t (sink s)) eqn:Ht; try (split; assumption).
    + apply raise_keeps_client_inv; assumption.
    + split; [exact Hw|]. unfold client_inv. cbn. split; [exact Hlen|].
      split; [discriminate|]. split; [intros f [H|H]; discriminate|]. auto.
  - split; assumption.
Qed.

Lemma run_keeps_client_inv (schedule : list thread) (s : system pixel) :
  worker_inv s -> client_inv s ->
  worker_inv (run schedule s) /\ client_inv (run schedule s).
Proof.
  revert s. induction schedule as [|who rest IH]; intros s Hw Hc; cbn [run]; auto.
  destruct who; cbn [step].
  - destruct (caller_keeps_client_inv Hw Hc) as [Hw' Hc']. apply IH; assumption.
  - apply IH; [apply SinkRuns.worker_keeps_worker_inv
              | apply worker_keeps_client_inv]; assumption.
Qed.

Lemma worker_keeps_writes_inv (self0 : VideoWriter pixel) (calls : list (call pixel))
  (s : system pixel) :
  writes_inv self0 calls s -> writes_inv self0 calls (worker_step s).
Proof.
  unfold writes_inv, worker_step. cbn [sink caller todo accepted].
  destruct (SinkRuns.writer_keeps_shape (sink s)) as (Ho & Hd & _).
  rewrite Ho, Hd. tauto.
Qed.

Lemma caller_keeps_writes_inv (self0 : VideoWriter pixel) (calls : list (call pixel))
  (s : system pixel) :
  writes_inv self0 calls s -> writes_inv self0 calls (caller_step s).
Proof.
  intros (Ho & Hd & done & rest & Hall & Hacc & Hrest).
  unfold caller_step.
  destruct (caller s) eqn:Hcaller; cbn [in_progress app] in Hrest.
  - (* Between *)
    destruct (todo s) as [|[|f|] more] eqn:Htodo.
    + unfold writes_inv. rewrite Hcaller, Htodo. eauto 10.
    + destruct (t (sink s)); unfold writes_inv; cbn; eauto 10.
    + destruct (is_alive (t (sink s))); unfold writes_inv; cbn; eauto 10.
    + unfold writes_inv; cbn; eauto 10.
  - (* WriteFull *)
    destruct (full (Q (sink s))).
    + unfold writes_inv. rewrite Hcaller. eauto 10.
    + unfold writes_inv; cbn; eauto 10.
  - (* WritePut *)
    destruct (full (Q (sink s))).
    + unfold writes_inv. rewrite Hcaller. eauto 10.
    + unfold writes_inv. cbn. split; [exact Ho|]. split; [exact Hd|].
      exists (done ++ [f]), (written_frames (todo s)).
      rewrite <- app_assoc, map_app, <- Hacc. cbn.
      rewrite SinkRuns.queued_form_shape with (self0 := self0) by assumption.
      rewrite Hall, Hrest. auto.
  - (* Join *)
    destruct (t (sink s)); unfold writes_inv; cbn; try rewrite Hcaller; eauto 10.
  - unfold writes_inv. rewrite Hcaller. eauto 10.
Qed.

Lemma run_keeps_writes_inv (self0 : VideoWriter pixel) (calls : list (call pixel))
  (schedule : list thread) (s : system pixel) :
  writes_inv self0 calls s -> writes_inv self0 calls (run schedule s).
Proof.
  revert s. induction schedule as [|who rest IH]; intros s H; cbn [run]; auto.
  apply IH. destruct who; cbn [step].
  - apply caller_keeps_writes_inv, H.
  - apply worker_keeps_writes_inv, H.
Qed.

Lemma boot_client_inv (self0 : VideoWriter pixel) (calls : list (call pixel)) :
  fresh self0 ->
  worker_inv (boot self0 calls) /\ client_inv (boot self0 calls)
  /\ writes_inv self0 calls (boot self0 calls).
Proof.
  intros (A & B & C & D & E & F). split; [|split].
  - unfold worker_inv, boot. cbn. rewrite A, B, C, E, F. cbn.
    repeat split; try tauto; try congruence; intros [H|H]; discriminate.
  - unfold client_inv, boot. cbn. rewrite B, D. cbn. unfold maxsize.
    split; [lia|]. split; [discriminate|].
    split; [intros f [H|H]; discriminate|]. discriminate.
  - unfold writes_inv, boot. cbn. split; [reflexivity|]. split; [reflexivity|].
    exists [], (written_frames calls). auto.
Qed.

(** X1: a sink used by one client, whatever calls the client makes and
    however the two threads interleave, never holds more than 128 frames
    in its queue; the [put] of [write] always finds room and the [get]
    of the worker always finds a frame, so that neither ever waits on
    the queue. *)
Theorem queue_operations_never_wait (self0 : VideoWriter pixel)
  (calls : list (call pixel)) (schedule : list thread) :
  fresh self0 ->
  let s := run schedule (boot self0 calls) in
  (length (Q (sink s)) <= 128)%nat
  /\ (forall f, caller s = WritePut f -> full (Q (sink s)) = false)
  /\ (t (sink s) = Get \/ t (sink s) = DrainGet -> Q (sink s) <> []).
Proof.
  intros Hfresh s.
  destruct (boot_client_inv calls Hfresh) as (Hw & Hc & _).
  destruct (run_keeps_client_inv schedule Hw Hc) as [Hw' Hc'].
  fold s in Hw', Hc'.
  destruct Hw' as (_ & _ & Hget & _). destruct Hc' as (Hlen & Hput & _).
  split; [exact Hlen|]. split; [|exact Hget].
  intros f Hf. specialize (Hput f Hf). unfold full. apply Nat.eqb_neq. lia.
Qed.

(** X2: a client makes calls on a sink one after the other and ends at
    the first call that raises, if any. Whatever its calls are and
    however the threads interleave, the frames handed to the encoder,
    followed by the frame the worker holds and by the queue, are at every
    moment the first of the frames the client's calls of [write] pass,
    in call order and in their queued form: no frame is encoded twice,
    out of order, or without having been written. The counter
    [frame_number] follows the encoder, and once the handle is released
    the queue is empty and every accepted frame has been encoded. The
    last part needs the client to end at its first exception: a client
    that catches the [RuntimeError] of a [stop] made before [start], and
    then starts the sink and writes a frame, can have that frame
    accepted and left in the queue of a released sink, never encoded. *)
Theorem frames_reach_the_encoder_in_call_order (self0 : VideoWriter pixel)
  (calls : list (call pixel)) (schedule : list thread) (f : frame) :
  fresh self0 ->
  (let s := run schedule (boot self0 calls) in
   (exists later,
       map (queued_form self0) (written_frames calls)
       = encoded (sink s) ++ in_hand (t (sink s)) ++ Q (sink s) ++ later)
   /\ accepted s = encoded (sink s) ++ in_hand (t (sink s)) ++ Q (sink s)
   /\ frame_number (sink s)
      = Z.of_nat (length (encoded (sink s))) + counted (t (sink s))
   /\ (released (sink s) = true ->
       Q (sink s) = [] /\ encoded (sink s) = accepted s))
  /\ (let s := write_after_caught_stop self0 f in
      released (sink s) = true
      /\ t (sink s) = Exited
      /\ accepted s = [queued_form self0 f]
      /\ Q (sink s) = [queued_form self0 f]
      /\ encoded (sink s) = []).
Proof.
  intros Hfresh. split.
  - intro s.
    destruct (boot_client_inv calls Hfresh) as (Hw & Hc & Hwr).
    destruct (run_keeps_client_inv schedule Hw Hc) as [Hw' _].
    pose proof (run_keeps_writes_inv schedule Hwr) as Hwr'.
    fold s in Hw', Hwr'.
    destruct Hw' as (Hacc & Hnum & _ & Hrel & Hreleased & _).
    destruct Hwr' as (_ & _ & done & rest & Hall & Hdone & _).
    split; [|split; [exact Hacc|split; [exact Hnum|]]].
    + exists (map (queued_form self0) rest).
      rewrite Hall, map_app, <- Hdone, Hacc, <- !app_assoc. reflexivity.
    + intro H. apply Hreleased in H. rewrite Hacc, H, Hrel by auto. cbn.
      rewrite app_nil_r. auto.
  - destruct self0 as [name code size rate col org enc rel q st pc num].
    destruct Hfresh as (Ht & Hq & He & Hs & Hr & Hn). cbn in Ht, Hq, He, Hs, Hr, Hn.
    subst. repeat split.
Qed.

(** *** A sink whose worker has ended *)

Lemma step_keeps_ended (s0 s : system pixel) (who : thread) :
  t (sink s0) = Exited ->
  same_output s0 s /\ outside_write (caller s) ->
  same_output s0 (step who s) /\ outside_write (caller (step who s)).
Proof.
  intros Hend ((He & Hr & Hq & Hn & Ht & Ha) & Hout).
  rewrite Hend in Ht.
  destruct who; cbn [step].
  - unfold caller_step.
    destruct (caller s) eqn:Hc; cbn in Hout; try contradiction.
    + destruct (todo s) as [|[|f|] more].
      * rewrite Hc. unfold same_output. rewrite Hend. auto 10.
      * rewrite Ht. unfold same_output. cbn. rewrite Hend. auto 10.
      * rewrite Ht. cbn. unfold same_output. cbn. rewrite Hend. auto 10.
      * unfold same_output. cbn. rewrite Hend. auto 10.
    + rewrite Ht. unfold same_output. cbn. rewrite Hend. auto 10.
    + rewrite Hc. unfold same_output. rewrite Hend. auto 10.
  - unfold worker_step.
    destruct (SinkRuns.writer_keeps_started (sink s)) as (_ & _ & Hsame).
    rewrite (Hsame Ht). unfold same_output. cbn. rewrite Hend. auto 10.
Qed.

Lemma run_keeps_ended (s0 : system pixel) (schedule : list thread) (s : system pixel) :
  t (sink s0) = Exited ->
  same_output s0 s /\ outside_write (caller s) ->
  same_output s0 (run schedule s) /\ outside_write (caller (run schedule s)).
Proof.
  intro Hend. revert s.
  induction schedule as [|who rest IH]; intros s H; cbn [run]; auto.
  apply IH, step_keeps_ended; assumption.
Qed.

Lemma raised_stays (e : exn) (schedule : list thread) (s : system pixel) :
  caller s = Raised e -> caller (run schedule s) = Raised e.
Proof.
  revert s. induction schedule as [|who rest IH]; intros s H; cbn [run]; auto.
  apply IH. destruct who; cbn [step]; [|exact H].
  unfold caller_step. rewrite H. exact H.
Qed.

Lemma first_call_on_ended (schedule : list thread) :
  forall s : system pixel,
    t (sink s) = Exited -> caller s = Between ->
    (1 <= caller_turns schedule)%nat ->
    (forall f rest, todo s = Write f :: rest ->
       caller (run schedule s) = Raised (IOError "The writer is not ready"))
    /\ (forall rest, todo s = Start :: rest ->
          caller (run schedule s) = Raised RuntimeError).
Proof.
  induction schedule as [|who more IH]; intros s Ht Hc Hturns; cbn in Hturns; [lia|].
  destruct who; cbn [run step].
  - split.
    + intros f rest Htodo. apply raised_stays.
      unfold caller_step. rewrite Hc, Htodo, Ht. reflexivity.
    + intros rest Htodo. apply raised_stays.
      unfold caller_step. rewrite Hc, Htodo, Ht. reflexivity.
  - destruct (SinkRuns.writer_keeps_started (sink s)) as (_ & _ & Hsame).
    unfold worker_step. rewrite (Hsame Ht).
    apply (IH (mkSystem (sink s) (caller s) (todo s) (accepted s))); assumption.
Qed.

Lemma stop_on_ended (schedule : list thread) :
  forall s : system pixel,
    t (sink s) = Exited -> todo s = [] ->
    (caller s = Join /\ (1 <= caller_turns schedule)%nat) \/ caller s = Between ->
    finished (run schedule s) = true.
Proof.
  induction schedule as [|who more IH]; intros s Ht Htodo Hc; cbn [run].
  - destruct Hc as [[_ H]|Hc]; [cbn in H; lia|].
    unfold finished. rewrite Hc, Htodo. reflexivity.
  - destruct who; cbn [step].
    + apply IH.
      * unfold caller_step. destruct Hc as [[Hc _]|Hc]; rewrite Hc.
        -- rewrite Ht. exact Ht.
        -- rewrite Htodo. exact Ht.
      * unfold caller_step. destruct Hc as [[Hc _]|Hc]; rewrite Hc.
        -- rewrite Ht. exact Htodo.
        -- rewrite Htodo. exact Htodo.
      * right. unfold caller_step. destruct Hc as [[Hc _]|Hc]; rewrite Hc.
        -- rewrite Ht. reflexivity.
        -- rewrite Htodo. exact Hc.
    + destruct (SinkRuns.writer_keeps_started (sink s)) as (_ & _ & Hsame).
      unfold worker_step. rewrite (Hsame Ht).
      apply (IH (mkSystem (sink s) (caller s) (todo s) (accepted s))); auto.
Qed.

(** X3: once the worker of a sink has ended, which is how [stop] leaves
    it, the output is final. Whatever calls follow and however the
    threads interleave, the encoded frames, the queue, the counter and
    the handle stay as they are; a [write] raises [IOError], a [start]
    raises [RuntimeError], and a second [stop] returns without an
    error. *)
Theorem ended_sink_is_final (s : system pixel) (schedule : list thread) :
  t (sink s) = Exited ->
  caller s = Between ->
  let s' := run schedule s in
  same_output s s'
  /\ ((1 <= caller_turns schedule)%nat ->
      (forall f rest, todo s = Write f :: rest ->
         caller s' = Raised (IOError "The writer is not ready"))
      /\ (forall rest, todo s = Start :: rest -> caller s' = Raised RuntimeError))
  /\ ((2 <= caller_turns schedule)%nat -> todo s = [Stop] -> finished s' = true).
Proof.
  intros Ht Hc s'. split; [|split].
  - apply run_keeps_ended; [exact Ht|]. split.
    + unfold same_output. auto 10.
    + rewrite Hc. exact I.
  - intro Hturns. apply first_call_on_ended; assumption.
  - intros Hturns Htodo. subst s'. clear - Ht Hc Hturns Htodo.
    revert s Ht Hc Htodo Hturns.
    induction schedule as [|who more IH]; intros s Ht Hc Htodo Hturns;
      cbn in Hturns; [lia|].
    destruct who; cbn [run step].
    + apply stop_on_ended.
      * unfold caller_step. rewrite Hc, Htodo. exact Ht.
      * unfold caller_step. rewrite Hc, Htodo. reflexivity.
      * left. split; [|cbn in Hturns; unfold caller_turns; lia].
        unfold caller_step. rewrite Hc, Htodo. reflexivity.
    + destruct (SinkRuns.writer_keeps_started (sink s)) as (_ & _ & Hsame).
      unfold worker_step. rewrite (Hsame Ht).
      apply (IH (mkSystem (sink s) (caller s) (todo s) (accepted s))); auto.
Qed.

Lemma stop_on_unstarted (schedule : list thread) :
  forall s : system pixel,
    t (sink s) = Unstarted -> caller s = Join ->
    (1 <= caller_turns schedule)%nat ->
    caller (run schedule s) = Raised RuntimeError
    /\ sink (run schedule s) = sink s /\ accepted (run schedule s) = accepted s.
Proof.
  induction schedule as [|who more IH]; intros s Ht Hc Hturns; cbn in Hturns; [lia|].
  destruct (SinkRuns.writer_keeps_started (sink s)) as (Hsame & _).
  destruct who; cbn [run step].
  - unfold caller_step. rewrite Hc, Ht.
    clear IH Hturns. generalize (accepted s) (todo s). intros a l.
    assert (H : forall sch (x : system pixel),
               t (sink x) = Unstarted -> caller x = Raised RuntimeError ->
               caller (run sch x) = Raised RuntimeError
               /\ sink (run sch x) = sink x /\ accepted (run sch x) = accepted x).
    { clear. induction sch as [|who more IH]; intros x Ht Hc; cbn [run]; auto.
      destruct (SinkRuns.writer_keeps_started (sink x)) as (Hsame & _).
      destruct who; cbn [step].
      - unfold caller_step. rewrite Hc. apply IH; assumption.
      - unfold worker_step. rewrite (Hsame Ht).
        apply (IH (mkSystem (sink x) (caller x) (todo x) (accepted x))); assumption. }
    apply (H more (mkSystem (sink s) (Raised RuntimeError) l a)); [exact Ht | reflexivity].
  - unfold worker_step. rewrite (Hsame Ht).
    apply (IH (mkSystem (sink s) (caller s) (todo s) (accepted s))); assumption.
Qed.

(** X4: [stop] called on a sink that was never started sets the stop
    flag and then raises [RuntimeError] from [join], however the threads
    are scheduled; nothing else of the sink changes, and no frame is
    accepted. *)
Theorem stop_before_start_raises (s : system pixel) (rest : list (call pixel))
  (schedule : list thread) :
  t (sink s) = Unstarted ->
  caller s = Between ->
  todo s = Stop :: rest ->
  (2 <= caller_turns schedule)%nat ->
  let s' := run schedule s in
  caller s' = Raised RuntimeError
  /\ sink s' = with_stopped (sink s) true
  /\ accepted s' = accepted s.
Proof.
  intros Ht Hc Htodo Hturns s'. subst s'.
  revert s Ht Hc Htodo Hturns.
  induction schedule as [|who more IH]; intros s Ht Hc Htodo Hturns;
    cbn in Hturns; [lia|].
  destruct (SinkRuns.writer_keeps_started (sink s)) as (Hsame & _).
  destruct who; cbn [run step].
  - unfold caller_step. rewrite Hc, Htodo.
    apply (@stop_on_unstarted more
             (mkSystem (with_stopped (sink s) true) Join rest (accepted s)));
      [exact Ht | reflexivity | cbn in Hturns; unfold caller_turns; lia].
  - unfold worker_step. rewrite (Hsame Ht).
    apply (IH (mkSystem (sink s) (caller s) (todo s) (accepted s))); assumption.
Qed.

End Facts.

(** The session of three frames on the small writer, the threads taking
    turns, stopped half way. *)
Lemma queue_operations_never_wait_witness :
  let s := run (in_turn 9) (boot small_writer (session three_small_frames)) in
  fresh small_writer
  /\ (length (Q (sink s)) <= 128)%nat
  /\ (forall f, caller s = WritePut f -> full (Q (sink s)) = false)
  /\ (t (sink s) = Get \/ t (sink s) = DrainGet -> Q (sink s) <> []).
Proof.
  intro s.
  assert (Hfresh : fresh small_writer) by (repeat split).
  split; [exact Hfresh|].
  exact (queue_operations_never_wait (session three_small_frames) (in_turn 9) Hfresh).
Defined.

(** A client that writes a frame, stops the small writer, and writes
    again: the file holds the first frame only. And a client that
    catches the exception of an early [stop]: its frame stays in the
    queue. *)
Lemma frames_reach_the_encoder_in_call_order_witness :
  let s := run (in_turn 40) (boot small_writer wrong_order) in
  let s' := write_after_caught_stop small_writer (small_frame 1) in
  fresh small_writer
  /\ encoded (sink s) = [small_frame 1]
  /\ accepted s = [small_frame 1]
  /\ frame_number (sink s) = 1
  /\ written_frames wrong_order = [small_frame 1; small_frame 2]
  /\ caller s = Raised (IOError "The writer is not ready")
  /\ released (sink s') = true
  /\ Q (sink s') = [small_frame 1]
  /\ encoded (sink s') = [].
Proof.
  intros s s'.
  assert (Hfresh : fresh small_writer) by (repeat split).
  split; [exact Hfresh|].
  destruct (@frames_reach_the_encoder_in_call_order nat small_writer wrong_order (in_turn 40)
              (small_frame 1) Hfresh)
    as ((_ & Hacc & Hnum & Hrel) & Hlost & _ & _ & Hqueue & Hnone).
  assert (Hreleased : released (sink s) = true) by (vm_compute; reflexivity).
  assert (Hencoded : encoded (sink s) = [small_frame 1]) by (vm_compute; reflexivity).
  destruct (Hrel Hreleased) as (_ & Hall).
  split; [exact Hencoded|]. split; [rewrite <- Hencoded; symmetry; exact Hall|].
  split; [fold s in Hnum; rewrite Hnum; vm_compute; reflexivity|].
  split; [vm_compute; reflexivity|]. split; [vm_compute; reflexivity|].
  split; [exact Hlost|]. split; [exact Hqueue | exact Hnone].
Defined.

(** A fourth [write] and a second [stop] on the writer of the closed
    session. *)
Lemma ended_sink_is_final_witness :
  t (sink late_write) = Exited
  /\ caller late_write = Between
  /\ encoded (sink (run (in_turn 3) late_write)) = three_small_frames
  /\ caller (run (in_turn 3) late_write) = Raised (IOError "The writer is not ready")
  /\ finished (run (in_turn 3) second_stop) = true.
Proof.
  assert (Ht : t (sink late_write) = Exited) by (vm_compute; reflexivity).
  assert (Ht' : t (sink second_stop) = Exited) by (vm_compute; reflexivity).
  destruct (ended_sink_is_final late_write (in_turn 3) Ht eq_refl)
    as ((He & _) & Hraise & _).
  destruct (ended_sink_is_final second_stop (in_turn 3) Ht' eq_refl)
    as (_ & _ & Hstop).
  assert (Hturns : (2 <= caller_turns (in_turn 3))%nat) by (cbn; lia).
  assert (Hturn : (1 <= caller_turns (in_turn 3))%nat) by (cbn; lia).
  split; [exact Ht|]. split; [reflexivity|].
  split; [rewrite He; vm_compute; reflexivity|].
  split; [exact (proj1 (Hraise Hturn) (small_frame 4) [] eq_refl)|].
  exact (Hstop Hturns eq_refl).
Defined.

(** [stop] as the first call on the small writer. *)
Lemma stop_before_start_raises_witness :
  t (sink early_stop) = Unstarted
  /\ caller (run (in_turn 2) early_stop) = Raised RuntimeError
  /\ stopped (sink (run (in_turn 2) early_stop)) = true
  /\ encoded (sink (run (in_turn 2) early_stop)) = [].
Proof.
  assert (Hturns : (2 <= caller_turns (in_turn 2))%nat) by (cbn; lia).
  destruct (@stop_before_start_raises nat early_stop [Start] (in_turn 2)
              eq_refl eq_refl eq_refl Hturns) as (Hc & Hs & _).
  split; [reflexivity|]. split; [exact Hc|].
  rewrite Hs. split; reflexivity.
Defined.

End SinkClientRuns.

(** ** FrameSource: any client, any schedule *)

Module SourceClientRuns.
Import Source SourceState SourceClient.

Ltac branches :=
  repeat match goal with
         | |- context [if ?b then _ else _] => destruct b eqn:?
         | |- context [match end_ ?x with _ => _ end] => destruct (end_ x) eqn:?
         | |- context [let (_, _) := cam_grab ?c in _] =>
             destruct (cam_grab c) as [[|] ?] eqn:?
         end.

Lemma not_full_room (q : list frame) :
  (List.length q <= maxsize)%nat -> full q = false -> (List.length q < maxsize)%nat.
Proof. unfold full. intros H E. apply Nat.eqb_neq in E. lia. Qed.

Lemma worker_keeps_queue_inv (s : system) :
  queue_inv s -> queue_inv (worker_step s).
Proof.
  unfold queue_inv, worker_step, obtained. cbn [stream caller returned].
  intros (Hlen & Hroom & Htake & Hnum).
  unfold reader.
  destruct (t (stream s)) eqn:Ht; cbn [past_full_test] in *; branches;
    cbn; rewrite ?Ht; cbn; repeat split; auto; try discriminate; try lia.
  - intros _. apply not_full_room; [exact Hlen|]. destruct (full (Q (stream s))); auto.
  - rewrite length_app. cbn. specialize (Hroom eq_refl). lia.
  - intros _. destruct (Q (stream s)); discriminate.
Qed.

Lemma setters_keep_queue (self self' : VideoStream) (ts : option Time.expression) :
  set_beginning self ts = Ok self' \/ set_end self ts = Ok self' ->
  Q self' = Q self /\ t self' = t self /\ frame_number self' = frame_number self
  /\ stopped self' = stopped self /\ released self' = released self.
Proof.
  unfold set_beginning, set_end. intros [H|H].
  - destruct (Time.VideoTime_init _ (fps self)); cbn in H; inversion H. cbn. auto.
  - destruct ts.
    + destruct (Time.VideoTime_init _ (fps self)); cbn in H; inversion H. cbn. auto.
    + destruct (Time.frame_videotime _ (fps self)); cbn in H; inversion H. cbn. auto.
Qed.

Lemma caller_keeps_queue_inv (s : system) :
  queue_inv s -> queue_inv (caller_step s).
Proof.
  intro Hs. pose proof Hs as (Hlen & Hroom & Htake & Hnum).
  unfold obtained in Hnum.
  unfold caller_step, read_returns.
  destruct (caller s) as [|l|l|l|l|l| |x] eqn:Hc; cbn [taking counted] in *.
  - (* Between *)
    destruct (todo s) as [|c rest] eqn:Htodo; [exact Hs|].
    destruct c.
    + destruct (t (stream s)) eqn:Ht; unfold queue_inv, obtained; cbn;
        rewrite ?Ht; cbn; repeat split; auto; discriminate.
    + unfold queue_inv, obtained; cbn; repeat split; auto; discriminate.
    + unfold queue_inv, obtained; cbn; repeat split; auto; discriminate.
    + unfold queue_inv, obtained; cbn; repeat split; auto; discriminate.
    + destruct (set_beginning (stream s) timestamp) as [self'| |] eqn:Hset.
      * destruct (@setters_keep_queue (stream s) self' timestamp (or_introl Hset))
          as (HQ & Ht & Hn & _).
        unfold queue_inv, obtained; cbn. rewrite HQ, Ht, Hn.
        repeat split; auto; discriminate.
      * unfold queue_inv, obtained; cbn; repeat split; auto; discriminate.
      * exact Hs.
    + destruct (set_end (stream s) timestamp) as [self'| |] eqn:Hset.
      * destruct (@setters_keep_queue (stream s) self' timestamp (or_intror Hset))
          as (HQ & Ht & Hn & _).
        unfold queue_inv, obtained; cbn. rewrite HQ, Ht, Hn.
        repeat split; auto; discriminate.
      * unfold queue_inv, obtained; cbn; repeat split; auto; discriminate.
      * exact Hs.
  - (* ReadWhileEmpty *)
    destruct (Nat.eqb (qsize (Q (stream s))) 0) eqn:Hq;
      unfold queue_inv, obtained; cbn; repeat split; auto; try discriminate.
    intros _ HQ. rewrite HQ in Hq. discriminate.
  - (* ReadIfDead *)
    destruct (negb (is_alive (t (stream s)))); [destruct l|];
      unfold queue_inv, obtained; cbn; rewrite ?SourceRuns.frames_of_app; cbn;
      rewrite ?app_nil_r; repeat split; auto; discriminate.
  - (* ReadIfStopped *)
    destruct (stopped (stream s)); [destruct l|];
      unfold queue_inv, obtained; cbn; rewrite ?SourceRuns.frames_of_app; cbn;
      rewrite ?app_nil_r; repeat split; auto; discriminate.
  - (* ReadCount *)
    unfold queue_inv, obtained; cbn. unfold frames_of in Hnum. repeat split; auto; lia.
  - (* ReadGet *)
    destruct (Q (stream s)) as [|f q] eqn:HQ; [exfalso; apply Htake; auto|].
    cbn [List.length] in *.
    destruct l; unfold queue_inv, obtained; cbn;
      rewrite SourceRuns.frames_of_app, length_app; cbn;
      repeat split; try discriminate; try lia;
      intro H; specialize (Hroom H); lia.
  - (* Join *)
    destruct (t (stream s)) eqn:Ht; try exact Hs;
      unfold queue_inv, obtained; cbn; rewrite ?Ht; repeat split; auto; discriminate.
  - exact Hs.
Qed.

Lemma run_keeps_queue_inv (schedule : list thread) (s : system) :
  queue_inv s -> queue_inv (run schedule s).
Proof.
  revert s. induction schedule as [|who rest IH]; intros s H; cbn [run]; auto.
  apply IH. destruct who; cbn [step].
  - apply caller_keeps_queue_inv, H.
  - apply worker_keeps_queue_inv, H.
Qed.

Lemma init_fields (name : string) (cam : Camera)
  (b e : option Time.expression) (q : bool) (vs : VideoStream) :
  VideoStream_init name cam b e q = Ok vs ->
  Q vs = [] /\ t vs = Unstarted /\ frame_number vs = 0 /\ stopped vs = false
  /\ released vs = false
  /\ cam_frame_count (camera vs) = cam_frame_count cam
  /\ cap_position vs = Time.frame_number (beginning vs)
  /\ fps vs = cam_fps cam
  /\ Time.VideoTime_init (match b with
                          | None => Time.OfStr "0:0:0"
                          | Some x => x
                          end) (cam_fps cam) = Ok (beginning vs)
  /\ camera vs = cam_set cam (Time.frame_number (beginning vs)).
Proof.
  intro H. unfold VideoStream_init in H.
  match type of H with context [Time.VideoTime_init ?x ?r] =>
    destruct (Time.VideoTime_init x r) as [v0| |] eqn:Hv0 end; cbn [bind] in H;
    try discriminate.
  unfold set_beginning in H. cbn [fps] in H. rewrite Hv0 in H. cbn [bind] in H.
  unfold set_end in H. destruct e.
  - match type of H with context [Time.VideoTime_init ?x ?r] =>
      destruct (Time.VideoTime_init x r) as [v2| |] end; cbn [bind] in H; try discriminate.
    inversion H. cbn. unfold cam_set. destruct (cam_seekable cam); cbn; auto 12.
  - match type of H with context [Time.frame_videotime ?x ?r] =>
      destruct (Time.frame_videotime x r) as [v2| |] end; cbn [bind] in H; try discriminate.
    inversion H. cbn. unfold cam_set. destruct (cam_seekable cam); cbn; auto 12.
Qed.

(** X5: a source used by one client, whatever calls the client makes and
    however the two threads interleave, never holds more than 128 frames
    in its queue; the [put] of the worker always finds room and the
    [get] of [read] always finds a frame, so that neither waits on the
    queue; and [frame_number] counts the frames [read] has returned. *)
Theorem stream_queue_operations_never_wait (name : string) (cam : Camera)
  (b e : option Time.expression) (q : bool) (vs : VideoStream)
  (calls : list call) (schedule : list thread) :
  VideoStream_init name cam b e q = Ok vs ->
  let s := run schedule (boot vs calls) in
  (List.length (Q (stream s)) <= 128)%nat
  /\ (forall f, t (stream s) = Put f -> full (Q (stream s)) = false)
  /\ (forall l, caller s = ReadGet l -> Q (stream s) <> [])
  /\ frame_number (stream s)
     = Z.of_nat (List.length (obtained s)) + counted (caller s).
Proof.
  intros Hinit s.
  destruct (init_fields _ _ _ _ _ Hinit) as (HQ & Ht & Hn & _).
  assert (H0 : queue_inv (boot vs calls)).
  { unfold queue_inv, boot, obtained. cbn. rewrite HQ, Ht, Hn. cbn. unfold maxsize.
    repeat split; try lia; discriminate. }
  pose proof (run_keeps_queue_inv schedule H0) as (Hlen & Hroom & Htake & Hnum).
  fold s in Hlen, Hroom, Htake, Hnum.
  split; [exact Hlen|]. split; [|split; [|exact Hnum]].
  - intros f Hf. rewrite Hf in Hroom. specialize (Hroom eq_refl).
    unfold full. apply Nat.eqb_neq. lia.
  - intros l Hl. apply Htake. rewrite Hl. reflexivity.
Qed.

(** *** The order of the frames *)

Lemma interval_snoc (lo : Z) (n : nat) :
  interval lo n ++ [lo + Z.of_nat n] = interval lo (S n).
Proof.
  unfold interval. rewrite seq_S, map_app. reflexivity.
Qed.

Lemma interval_In (lo : Z) (n : nat) (f : frame) :
  In f (interval lo n) <-> lo <= f < lo + Z.of_nat n.
Proof.
  unfold interval. rewrite in_map_iff. split.
  - intros (i & Hi & Hin). apply in_seq in Hin. lia.
  - intro H. exists (Z.to_nat (f - lo)). split; [lia|]. apply in_seq. lia.
Qed.

Lemma cam_grab_count (c : Camera) :
  cam_frame_count (snd (cam_grab c)) = cam_frame_count c
  /\ (fst (cam_grab c) = true -> cam_pos c < cam_frame_count c).
Proof.
  unfold cam_grab. destruct (cam_frame_count c <=? cam_pos c) eqn:E; cbn.
  - split; [reflexivity | discriminate].
  - apply Z.leb_gt in E. destruct (cam_glitches c) as [|[|] g]; cbn; auto.
Qed.

Lemma worker_keeps_order_inv (count p0 B E : Z) (s : system) :
  order_inv count p0 B E s -> order_inv count p0 B E (worker_step s).
Proof.
  unfold order_inv, worker_step, obtained. cbn [stream todo returned caller].
  intros (HB & (e & He & HE) & Hp & Hcount & Hp0 & n & Hlist & Hpos & Hup & Hpc).
  unfold decode_position in Hpos.
  unfold reader, after, before.
  destruct (t (stream s)) eqn:Ht.
  - (* Unstarted *)
    rewrite Ht. unfold decode_position. rewrite Ht.
    repeat split; eauto; exists n; auto.
  - (* WhileNotStopped *)
    destruct (stopped (stream s)); cbn; repeat split; eauto; exists n; auto.
  - (* IfNotFull *)
    destruct (full (Q (stream s))); cbn; repeat split; eauto; exists n; auto.
  - (* IfReachedEnd *)
    rewrite He. destruct (Time.frame_number e <=? cap_position (stream s)); cbn;
      repeat split; eauto; exists n; auto.
  - (* SetStopped *) cbn. repeat split; eauto; exists n; auto.
  - (* ReadPosition *) cbn. repeat split; eauto; exists n; auto.
  - (* IfAfter *)
    rewrite He.
    destruct (Time.frame_number e <=? cap_position (stream s)) eqn:Hcmp; cbn;
      repeat split; eauto; exists n; repeat split; auto.
    apply Z.leb_gt in Hcmp. lia.
  - (* Grab *)
    destruct Hpc as (Hcap & Hlt).
    pose proof (SourceRuns.cam_grab_pos (camera (stream s))) as [Hok Hfail].
    pose proof (cam_grab_count (camera (stream s))) as [Hsame Hin].
    destruct (cam_grab (camera (stream s))) as [[|] cam]; cbn in *.
    + specialize (Hok eq_refl). specialize (Hin eq_refl).
      repeat split; eauto; try lia. exists n. rewrite Hcap. repeat split; auto; lia.
    + specialize (Hfail eq_refl).
      repeat split; eauto; try lia. exists n. rewrite Hfail. repeat split; auto; lia.
  - (* WhileNotGrabbed *)
    destruct grabbed; cbn.
    + repeat split; eauto; exists n; auto.
    + destruct Hpc as (Hcap & Hlt).
      pose proof (SourceRuns.cam_grab_pos (camera (stream s))) as [Hok Hfail].
      pose proof (cam_grab_count (camera (stream s))) as [Hsame Hin].
      destruct (cam_grab (camera (stream s))) as [[|] cam]; cbn in *.
      * specialize (Hok eq_refl). specialize (Hin eq_refl).
        repeat split; eauto; try lia. exists n. rewrite Hcap. repeat split; auto; lia.
      * specialize (Hfail eq_refl).
        repeat split; eauto; try lia. exists n. rewrite Hfail. repeat split; auto; lia.
  - (* Retrieve *)
    cbn. repeat split; eauto. exists n. unfold cam_retrieve.
    destruct Hpc as (H1 & H2 & H3 & H4). repeat split; auto; lia.
  - (* IfNotBefore *)
    destruct Hpc as (H1 & H2 & H3 & H4 & H5).
    destruct (cap_position (stream s) <? Time.frame_number (beginning (stream s))) eqn:Hb;
      cbn; repeat split; eauto; exists n.
    + apply Z.ltb_lt in Hb. repeat split; auto. lia.
    + apply Z.ltb_ge in Hb. repeat split; auto. lia.
  - (* Put *)
    destruct Hpc as (H1 & H2 & H3 & H4 & H5 & H6).
    destruct (full (Q (stream s))); cbn.
    + rewrite Ht. unfold decode_position. rewrite Ht.
      repeat split; eauto; exists n; repeat split; auto.
    + repeat split; eauto. exists (S n).
      rewrite app_assoc, Hlist, <- interval_snoc.
      assert (Hf : f = Z.max B p0 + Z.of_nat n) by lia.
      rewrite Hf. repeat split; auto; lia.
  - (* ReleaseCamera *) cbn. repeat split; eauto; exists n; auto.
  - (* SetReleased *) cbn. repeat split; eauto; exists n; auto.
  - (* Exited *)
    rewrite Ht. unfold decode_position. rewrite Ht. repeat split; eauto; exists n; auto.
  - (* Died *)
    rewrite Ht. unfold decode_position. rewrite Ht. repeat split; eauto; exists n; auto.
Qed.

Lemma caller_keeps_order_inv (count p0 B E : Z) (s : system) :
  order_inv count p0 B E s -> order_inv count p0 B E (caller_step s).
Proof.
  intro Hs.
  pose proof Hs as (HB & He & Hp & Hcount & Hp0 & n & Hlist & Hpos & Hup & Hpc).
  assert (Hsame : forall pc l r,
             Forall passive l -> frames_of r = frames_of (returned s) ->
             order_inv count p0 B E (mkSystem (stream s) pc l r)).
  { intros pc l r Hl Hr. unfold order_inv, obtained. cbn [stream todo returned].
    rewrite Hr. repeat split; auto. exists n. auto. }
  assert (Hnone : frames_of (returned s ++ [None]) = frames_of (returned s)).
  { rewrite SourceRuns.frames_of_app. cbn. apply app_nil_r. }
  unfold caller_step, read_returns.
  destruct (caller s) as [|l|l|l|l|l| |x] eqn:Hc.
  - (* Between *)
    destruct (todo s) as [|c rest] eqn:Htodo; [exact Hs|].
    inversion Hp as [|? ? Hpc' Hrest]; subst.
    destruct c; cbn in Hpc'; try contradiction; try (apply Hsame; auto).
    + (* Start *)
      destruct (t (stream s)) eqn:Ht; try (apply Hsame; auto).
      unfold order_inv, obtained, decode_position in *. cbn. rewrite Ht in Hpos.
      repeat split; auto. exists n. auto.
    + (* Stop *)
      unfold order_inv, obtained, decode_position in *. cbn.
      repeat split; auto. exists n. auto.
  - destruct (Nat.eqb (qsize (Q (stream s))) 0); apply Hsame; auto.
  - destruct (negb (is_alive (t (stream s)))); [destruct l|]; apply Hsame; auto.
  - destruct (stopped (stream s)); [destruct l|]; apply Hsame; auto.
  - (* ReadCount *)
    unfold order_inv, obtained, decode_position in *. cbn.
    repeat split; auto. exists n. auto.
  - (* ReadGet *)
    destruct (Q (stream s)) as [|f q] eqn:HQ; [exact Hs|].
    assert (Hmoved : frames_of (returned s ++ [Some f]) ++ q = interval (Z.max B p0) n).
    { rewrite SourceRuns.frames_of_app. cbn. rewrite <- app_assoc. exact Hlist. }
    destruct l; unfold order_inv, obtained, decode_position in *; cbn;
      repeat split; auto; exists n; auto.
  - (* Join *)
    destruct (t (stream s)) eqn:Ht; first [exact Hs | apply Hsame; auto].
  - exact Hs.
Qed.

Lemma run_keeps_order_inv (count p0 B E : Z) (schedule : list thread) (s : system) :
  order_inv count p0 B E s -> order_inv count p0 B E (run schedule s).
Proof.
  revert s. induction schedule as [|who rest IH]; intros s H; cbn [run]; auto.
  apply IH. destruct who; cbn [step].
  - apply caller_keeps_order_inv, H.
  - apply worker_keeps_order_inv, H.
Qed.

Lemma boot_order_inv (name : string) (cam : Camera)
  (b e : option Time.expression) (q : bool) (vs : VideoStream) (calls : list call) :
  VideoStream_init name cam b e q = Ok vs ->
  Forall passive calls ->
  exists v, end_ vs = Some v
    /\ order_inv (cam_frame_count cam) (cam_pos (camera vs))
         (Time.frame_number (beginning vs)) (Time.frame_number v) (boot vs calls).
Proof.
  intros Hinit Hcalls.
  destruct (EndFacts.init_sets_end _ _ _ _ _ Hinit) as ((v & Hv) & _).
  destruct (init_fields _ _ _ _ _ Hinit) as (HQ & Ht & _ & _ & _ & Hcount & _).
  exists v. split; [exact Hv|].
  unfold order_inv, boot, obtained, decode_position. cbn. rewrite Ht, HQ.
  repeat split; eauto; try lia. exists 0%nat. cbn. repeat split; auto; lia.
Qed.

(** X6: the frames a client has read from a source, followed by the
    frames waiting in the queue, are at every moment consecutive frames
    of the file in file order and without a gap, the first being the
    later of the beginning of the window and the position the decode
    handle started from; none of them lies at or beyond the end of the
    window or the end of the file. This holds whatever passive calls the
    client makes and however the threads interleave. *)
Theorem frames_come_in_file_order (name : string) (cam : Camera)
  (b e : option Time.expression) (q : bool) (vs : VideoStream)
  (calls : list call) (schedule : list thread) :
  VideoStream_init name cam b e q = Ok vs ->
  Forall passive calls ->
  let s := run schedule (boot vs calls) in
  let first := Z.max (Time.frame_number (beginning vs)) (cam_pos (camera vs)) in
  exists (n : nat) (v : Time.VideoTime),
    end_ vs = Some v
    /\ obtained s ++ Q (stream s) = interval first n
    /\ (forall f, In f (obtained s ++ Q (stream s)) ->
          first <= f < Z.min (Time.frame_number v) (cam_frame_count cam)).
Proof.
  intros Hinit Hcalls s first.
  destruct (boot_order_inv _ _ _ _ _ Hinit Hcalls) as (v & Hv & H0).
  pose proof (run_keeps_order_inv schedule H0)
    as (_ & _ & _ & _ & _ & n & Hlist & _ & Hup & _).
  fold s in Hlist. exists n, v. split; [exact Hv|]. split; [exact Hlist|].
  intros f Hf. rewrite Hlist in Hf. apply interval_In in Hf.
  fold first in Hup. assert (0 < n)%nat by lia. specialize (Hup H). lia.
Qed.

Lemma VideoTime_init_number (x : Time.expression) (rate : QArith_base.Q)
  (v : Time.VideoTime) :
  Time.VideoTime_init x rate = Ok v ->
  Time.frame_number v = PyText.int (Time.seconds (Time.stamp v) * rate) + 1.
Proof.
  unfold Time.VideoTime_init.
  destruct (Time.TimeStamp_init x); cbn [bind]; try discriminate.
  intro H. inversion H. reflexivity.
Qed.

Lemma int_nonneg (x : QArith_base.Q) : (0 <= x)%Q -> 0 <= PyText.int x.
Proof.
  intro H. rewrite TimeFacts.int_floor by exact H.
  change 0 with (Qfloor 0). apply Qfloor_resp_le. exact H.
Qed.

(** X7: a source whose window begins at a time that is not negative, as
    it does by default, never hands its client the first frame of the
    file, the one at decode position 0: the frame number of the beginning
    is at least 1 and frames below it are decoded and dropped. *)
Theorem first_frame_is_never_read (name : string) (cam : Camera)
  (b e : option Time.expression) (q : bool) (vs : VideoStream)
  (calls : list call) (schedule : list thread) :
  VideoStream_init name cam b e q = Ok vs ->
  Forall passive calls ->
  (0 <= Time.seconds (Time.stamp (beginning vs)))%Q ->
  (0 <= cam_fps cam)%Q ->
  let s := run schedule (boot vs calls) in
  1 <= Time.frame_number (beginning vs)
  /\ ~ In 0 (obtained s) /\ ~ In 0 (Q (stream s)).
Proof.
  intros Hinit Hcalls Hsec Hfps s.
  destruct (init_fields _ _ _ _ _ Hinit) as (_ & _ & _ & _ & _ & _ & _ & _ & Hb & _).
  pose proof (VideoTime_init_number _ _ Hb) as Hnum.
  assert (HB : 1 <= Time.frame_number (beginning vs)).
  { rewrite Hnum.
    assert (0 <= PyText.int (Time.seconds (Time.stamp (beginning vs)) * cam_fps cam)).
    { apply int_nonneg. apply Qmult_le_0_compat; assumption. }
    lia. }
  split; [exact HB|].
  destruct (boot_order_inv _ _ _ _ _ Hinit Hcalls) as (v & Hv & H0).
  pose proof (run_keeps_order_inv schedule H0)
    as (_ & _ & _ & _ & _ & n & Hlist & _).
  fold s in Hlist.
  assert (Hno : ~ In 0 (obtained s ++ Q (stream s))).
  { rewrite Hlist. intro Hin. apply interval_In in Hin. lia. }
  split; intro Hin; apply Hno, in_or_app; auto.
Qed.

(** *** A window that ends beyond the file *)

Lemma worker_keeps_stuck_inv (E : Z) (s : system) :
  stuck_inv E s -> stuck_inv E (worker_step s).
Proof.
  unfold stuck_inv, worker_step, in_loop. cbn [stream todo returned caller].
  intros ((e & He & HE) & Hs & Hr & Hret & Hloop & Hcount & Hpos & Hcap & Hin).
  assert (Hgo : t (stream s) <> Unstarted ->
                forall pc, pc <> Unstarted ->
                (pc = Unstarted /\ caller s = Between /\ todo s = [Start; Iterate])
                \/ (pc <> Unstarted /\ caller s = Between /\ todo s = [Iterate])
                \/ (pc <> Unstarted /\ todo s = []
                    /\ match caller s with
                       | ReadWhileEmpty true | ReadIfDead true | ReadIfStopped true
                       | ReadCount true | ReadGet true => True
                       | _ => False
                       end)).
  { intros Hn pc Hpc. destruct Hin as [(A & B)|[(A & B)|(A & B)]];
      [contradiction | right; left | right; right]; auto. }
  pose proof (SourceRuns.cam_grab_pos (camera (stream s))) as [Hok Hfail].
  pose proof (cam_grab_count (camera (stream s))) as [Hsame Hgrab].
  unfold reader, after, before.
  destruct (t (stream s)) eqn:Ht; cbn [looping] in Hloop; try discriminate.
  - (* Unstarted *) rewrite Ht. repeat split; eauto.
  - (* WhileNotStopped *)
    rewrite Hs. cbn. repeat split; eauto; apply Hgo; discriminate.
  - (* IfNotFull *)
    destruct (full (Q (stream s))); cbn; repeat split; eauto; apply Hgo; discriminate.
  - (* IfReachedEnd *)
    rewrite He. destruct (Time.frame_number e <=? cap_position (stream s)) eqn:Hcmp.
    + apply Z.leb_le in Hcmp. lia.
    + cbn. repeat split; eauto; apply Hgo; discriminate.
  - (* ReadPosition *)
    cbn. repeat split; eauto; apply Hgo; discriminate.
  - (* IfAfter *)
    rewrite He. destruct (Time.frame_number e <=? cap_position (stream s)) eqn:Hcmp.
    + apply Z.leb_le in Hcmp. lia.
    + cbn. repeat split; eauto; apply Hgo; discriminate.
  - (* Grab *)
    destruct (cam_grab (camera (stream s))) as [[|] cam]; cbn in *;
      repeat split; eauto; try lia; try (apply Hgo; discriminate).
    all: try (specialize (Hok eq_refl); specialize (Hgrab eq_refl); lia).
  - (* WhileNotGrabbed *)
    destruct grabbed; cbn.
    + repeat split; eauto; apply Hgo; discriminate.
    + destruct (cam_grab (camera (stream s))) as [[|] cam]; cbn in *;
        repeat split; eauto; try lia; try (apply Hgo; discriminate).
      all: try (specialize (Hok eq_refl); specialize (Hgrab eq_refl); lia).
  - (* Retrieve *)
    cbn. repeat split; eauto; apply Hgo; discriminate.
  - (* IfNotBefore *)
    destruct (cap_position (stream s) <? Time.frame_number (beginning (stream s)));
      cbn; repeat split; eauto; apply Hgo; discriminate.
  - (* Put *)
    destruct (full (Q (stream s))); cbn.
    + rewrite Ht. repeat split; eauto.
    + repeat split; eauto; apply Hgo; discriminate.
Qed.

Lemma caller_keeps_stuck_inv (E : Z) (s : system) :
  stuck_inv E s -> stuck_inv E (caller_step s).
Proof.
  intro H. pose proof H as (He & Hs & Hr & Hret & Hloop & Hcount & Hpos & Hcap & Hin).
  assert (Halive : t (stream s) <> Unstarted -> is_alive (t (stream s)) = true).
  { destruct (t (stream s)); cbn in *; congruence. }
  unfold caller_step, read_returns.
  destruct Hin as [(A & B & C)|[(A & B & C)|(A & B & C)]].
  - rewrite B, C, A. unfold stuck_inv, in_loop. cbn.
    repeat split; auto; right; left; repeat split; auto; discriminate.
  - rewrite B, C. unfold stuck_inv, in_loop. cbn.
    repeat split; auto; right; right; repeat split; auto.
  - destruct (caller s) as [|[|]|[|]|[|]|[|]|[|]| |x] eqn:Hc; try contradiction.
    + destruct (Nat.eqb (qsize (Q (stream s))) 0); unfold stuck_inv, in_loop; cbn;
        repeat split; auto; right; right; repeat split; auto.
    + rewrite (Halive A). cbn. unfold stuck_inv, in_loop; cbn.
      repeat split; auto; right; right; repeat split; auto.
    + rewrite Hs. unfold stuck_inv, in_loop; cbn.
      repeat split; auto; right; right; repeat split; auto.
    + unfold stuck_inv, in_loop; cbn.
      repeat split; auto; right; right; repeat split; auto.
    + destruct (Q (stream s)) as [|f q]; [exact H|].
      unfold stuck_inv, in_loop; cbn. repeat split; auto;
        try (right; right; repeat split; auto; fail).
      apply Forall_app. split; [exact Hret|]. constructor; [discriminate|constructor].
Qed.

Lemma run_keeps_stuck_inv (E : Z) (schedule : list thread) (s : system) :
  stuck_inv E s -> stuck_inv E (run schedule s).
Proof.
  revert s. induction schedule as [|who rest IH]; intros s H; cbn [run]; auto.
  apply IH. destruct who; cbn [step].
  - apply caller_keeps_stuck_inv, H.
  - apply worker_keeps_stuck_inv, H.
Qed.

(** X8: when the window of a source ends beyond the last frame of the
    file, the loop [for frame in stream] never ends. However the threads
    interleave, the worker never sets the stop flag and never releases
    the decode handle, and [read] never returns the end of the stream:
    past the last frame the worker repeats a [grab] that cannot
    succeed. *)
Theorem end_beyond_file_never_ends (name : string) (cam : Camera)
  (b e : option Time.expression) (q : bool) (vs : VideoStream) (v : Time.VideoTime)
  (schedule : list thread) :
  VideoStream_init name cam b e q = Ok vs ->
  end_ vs = Some v ->
  cam_frame_count cam < Time.frame_number v ->
  cam_pos (camera vs) < Time.frame_number v ->
  Time.frame_number (beginning vs) < Time.frame_number v ->
  let s := run schedule (boot vs [Start; Iterate]) in
  finished s = false
  /\ stopped (stream s) = false
  /\ released (stream s) = false
  /\ ~ In None (returned s)
  /\ t (stream s) <> Exited.
Proof.
  intros Hinit Hv Hcount Hpos Hbegin s.
  destruct (init_fields _ _ _ _ _ Hinit)
    as (HQ & Ht & _ & Hs & Hr & Hc & Hcap & _).
  assert (H0 : stuck_inv (Time.frame_number v) (boot vs [Start; Iterate])).
  { unfold stuck_inv, in_loop, boot. cbn. rewrite Ht, Hs, Hr, Hc, Hcap. cbn.
    repeat split; eauto. }
  pose proof (run_keeps_stuck_inv schedule H0)
    as (_ & Hs' & Hr' & Hret & Hloop & _ & _ & _ & Hin).
  fold s in Hs', Hr', Hret, Hloop, Hin.
  split; [|split; [exact Hs'|split; [exact Hr'|split]]].
  - unfold finished.
    destruct Hin as [(A & B & C)|[(A & B & C)|(A & B & C)]]; try (rewrite B, C; reflexivity).
    destruct (caller s) as [|[|]|[|]|[|]|[|]|[|]| |x]; try contradiction; reflexivity.
  - intro Hnone. rewrite Forall_forall in Hret. apply (Hret None Hnone). reflexivity.
  - intro H. rewrite H in Hloop. discriminate.
Qed.

(** *** Stopping a source *)

Lemma worker_keeps_shutdown_inv (s : system) :
  shutdown_inv s -> shutdown_inv (worker_step s).
Proof.
  unfold shutdown_inv, worker_step. cbn [stream todo returned caller].
  intros ((e & He) & Hp & Hcam & Hstop & Hend & Hsound & Hcalls).
  rewrite EndFacts.reader_keeps_end.
  assert (Hmove : t (stream s) <> Exited ->
                  forall pc : reader_pc,
                    (exists before, todo s = before ++ [Stop])
                    \/ (todo s = []
                        /\ (caller s = Join \/ (exists x, caller s = Raised x)
                            \/ (caller s = Between /\ pc = Exited)))).
  { intros Hn pc. destruct Hcalls as [H|(H & [H'|[H'|(H' & H'')]])]; auto 10.
    contradiction. }
  split; [eauto|]. split; [exact Hp|].
  unfold reader, after, before.
  destruct (t (stream s)) eqn:Ht.
  - (* Unstarted *) rewrite Ht. auto 10.
  - (* WhileNotStopped *)
    destruct (stopped (stream s)) eqn:Hs; cbn; rewrite ?Hs;
      repeat split; try discriminate; try (intros [?|[?|?]]; discriminate); auto;
      apply Hmove; discriminate.
  - (* IfNotFull *)
    destruct (full (Q (stream s))); cbn;
      repeat split; try discriminate; try (intros [?|[?|?]]; discriminate);
      apply Hmove; discriminate.
  - (* IfReachedEnd *)
    rewrite He. destruct (Time.frame_number e <=? cap_position (stream s)); cbn;
      repeat split; try discriminate; try (intros [?|[?|?]]; discriminate);
      apply Hmove; discriminate.
  - (* SetStopped *)
    cbn. repeat split; try discriminate; auto. apply Hmove; discriminate.
  - (* ReadPosition *)
    cbn. repeat split; try discriminate; try (intros [?|[?|?]]; discriminate).
    apply Hmove; discriminate.
  - (* IfAfter *)
    rewrite He. destruct (Time.frame_number e <=? cap_position (stream s)); cbn;
      repeat split; try discriminate; try (intros [?|[?|?]]; discriminate);
      apply Hmove; discriminate.
  - (* Grab *)
    destruct (cam_grab (camera (stream s))) as [g cam]. cbn.
    repeat split; try discriminate; try (intros [?|[?|?]]; discriminate).
    apply Hmove; discriminate.
  - (* WhileNotGrabbed *)
    destruct grabbed; cbn; [|destruct (cam_grab (camera (stream s))) as [g cam]; cbn];
      repeat split; try discriminate; try (intros [?|[?|?]]; discriminate);
      apply Hmove; discriminate.
  - (* Retrieve *)
    cbn. repeat split; try discriminate; try (intros [?|[?|?]]; discriminate).
    apply Hmove; discriminate.
  - (* IfNotBefore *)
    destruct (cap_position (stream s) <? Time.frame_number (beginning (stream s)));
      cbn; repeat split; try discriminate; try (intros [?|[?|?]]; discriminate);
      apply Hmove; discriminate.
  - (* Put *)
    destruct (full (Q (stream s))); cbn; rewrite ?Ht;
      repeat split; try discriminate; try (intros [?|[?|?]]; discriminate);
      apply Hmove; discriminate.
  - (* ReleaseCamera *)
    cbn. repeat split; try discriminate; auto. apply Hmove; discriminate.
  - (* SetReleased *)
    cbn. repeat split; try discriminate; auto. apply Hmove; discriminate.
  - (* Exited *) rewrite Ht. auto 10.
  - (* Died *) exfalso. apply (Hsound e0). reflexivity.
Qed.

Lemma suffix_tail (c : call) (rest : list call) :
  (exists before, c :: rest = before ++ [Stop]) ->
  (rest = [] /\ c = Stop) \/ (exists before, rest = before ++ [Stop]).
Proof.
  intros ([|c' before] & H); inversion H; subst; eauto.
Qed.

Lemma caller_keeps_shutdown_inv (s : system) :
  shutdown_inv s -> shutdown_inv (caller_step s).
Proof.
  intro Hs. pose proof Hs as (He & Hp & Hcam & Hstop & Hend & Hsound & Hcalls).
  assert (Hsame : forall pc r,
             (todo s = [] ->
              pc = Join \/ (exists x, pc = Raised x)
              \/ (pc = Between /\ t (stream s) = Exited)) ->
             shutdown_inv (mkSystem (stream s) pc (todo s) r)).
  { intros pc r Hpc. unfold shutdown_inv. cbn [stream todo caller].
    repeat split; auto; try apply Hend; auto.
    destruct Hcalls as [H|(H & _)]; auto. }
  assert (Hbusy : (exists before, todo s = before ++ [Stop]) ->
                  forall pc r, shutdown_inv (mkSystem (stream s) pc (todo s) r)).
  { intros (before & H) pc r. apply Hsame. rewrite H. intro H'.
    destruct before; discriminate. }
  unfold caller_step, read_returns.
  destruct (caller s) as [|l|l|l|l|l| |x] eqn:Hc.
  - (* Between *)
    destruct (todo s) as [|c rest] eqn:Htodo; [exact Hs|].
    destruct Hcalls as [Hsuffix|(H & _)]; [|discriminate].
    inversion Hp as [|? ? Hpc Hrest]; subst.
    destruct (suffix_tail Hsuffix) as [(Hnil & Hstop')|Hmore].
    + (* the last call, [stop] *)
      subst. unfold shutdown_inv. cbn. repeat split; auto; apply Hend; auto.
    + destruct c; cbn in Hpc; try contradiction.
      * (* Start *)
        destruct (t (stream s)) eqn:Ht;
          unfold shutdown_inv; cbn; rewrite ?Ht;
          repeat split; auto; try discriminate; try (apply Hend; auto; fail);
          intros [?|[?|?]]; discriminate.
      * unfold shutdown_inv; cbn; repeat split; auto; apply Hend; auto.
      * unfold shutdown_inv; cbn; repeat split; auto; apply Hend; auto.
      * unfold shutdown_inv; cbn; repeat split; auto; apply Hend; auto.
  - destruct Hcalls as [H|(_ & [H|[(x & H)|(H & _)]])]; try discriminate.
    destruct (Nat.eqb (qsize (Q (stream s))) 0); apply Hbusy; exact H.
  - destruct Hcalls as [H|(_ & [H|[(x & H)|(H & _)]])]; try discriminate.
    destruct (negb (is_alive (t (stream s)))); [destruct l|]; apply Hbusy; exact H.
  - destruct Hcalls as [H|(_ & [H|[(x & H)|(H & _)]])]; try discriminate.
    destruct (stopped (stream s)); [destruct l|]; apply Hbusy; exact H.
  - destruct Hcalls as [H|(_ & [H|[(x & H)|(H & _)]])]; try discriminate.
    unfold shutdown_inv; cbn; repeat split; auto; apply Hend; auto.
  - destruct Hcalls as [H|(_ & [H|[(x & H)|(H & _)]])]; try discriminate.
    destruct (Q (stream s)) as [|f q]; [exact Hs|].
    destruct l; unfold shutdown_inv; cbn; repeat split; auto; apply Hend; auto.
  - (* Join *)
    destruct (t (stream s)) eqn:Ht; try exact Hs.
    + apply Hsame. eauto.
    + apply Hsame. auto.
    + exfalso. apply (Hsound e). reflexivity.
  - exact Hs.
Qed.

Lemma run_keeps_shutdown_inv (schedule : list thread) (s : system) :
  shutdown_inv s -> shutdown_inv (run schedule s).
Proof.
  revert s. induction schedule as [|who rest IH]; intros s H; cbn [run]; auto.
  apply IH. destruct who; cbn [step].
  - apply caller_keeps_shutdown_inv, H.
  - apply worker_keeps_shutdown_inv, H.
Qed.

(** X9: when the last call of a client is [stop] and that call has
    returned, the worker has ended, the decode handle is closed and both
    events are set, whatever passive calls came before and however the
    threads interleaved; [stop] does not return earlier. *)
Theorem stop_returns_after_release (name : string) (cam : Camera)
  (b e : option Time.expression) (q : bool) (vs : VideoStream)
  (before : list call) (schedule : list thread) :
  VideoStream_init name cam b e q = Ok vs ->
  Forall passive before ->
  let s := run schedule (boot vs (before ++ [Stop])) in
  finished s = true ->
  closed_down (stream s).
Proof.
  intros Hinit Hcalls s Hfin.
  destruct (EndFacts.init_sets_end _ _ _ _ _ Hinit) as (Hend & _).
  destruct (init_fields _ _ _ _ _ Hinit) as (_ & Ht & _).
  assert (H0 : shutdown_inv (boot vs (before ++ [Stop]))).
  { unfold shutdown_inv, boot. cbn. rewrite Ht.
    repeat split; try discriminate; eauto.
    - apply Forall_app. split; [exact Hcalls|]. constructor; [exact I|constructor].
    - intros [H|[H|H]]; discriminate. }
  pose proof (run_keeps_shutdown_inv schedule H0)
    as (_ & _ & _ & Hstop & Hexit & _ & Hshape).
  fold s in Hstop, Hexit, Hshape.
  unfold finished in Hfin.
  destruct (caller s) eqn:Hc; try discriminate.
  destruct (todo s) eqn:Htodo; try discriminate.
  destruct Hshape as [(pre & H)|(_ & [H|[(x & H)|(_ & H)]])]; try discriminate.
  - destruct pre; discriminate.
  - destruct (Hexit H) as (Hr & Hcam).
    unfold closed_down. repeat split; auto.
Qed.

(** The file of three frames read to its end, the threads taking turns. *)
Lemma stream_queue_operations_never_wait_witness :
  let s := run (in_turn 17) (boot whole_of_three [Start; Iterate]) in
  VideoStream_init "three.avi" three_frames None None true = Ok whole_of_three
  /\ (List.length (Q (stream s)) <= 128)%nat
  /\ (forall f, t (stream s) = Put f -> full (Q (stream s)) = false)
  /\ (forall l, caller s = ReadGet l -> Q (stream s) <> [])
  /\ frame_number (stream s)
     = Z.of_nat (List.length (obtained s)) + counted (caller s).
Proof.
  intro s.
  assert (Hinit : VideoStream_init "three.avi" three_frames None None true
                  = Ok whole_of_three) by (vm_compute; reflexivity).
  split; [exact Hinit|].
  exact (@stream_queue_operations_never_wait _ _ _ _ _ _ [Start; Iterate] (in_turn 17)
           Hinit).
Defined.

Lemma frames_come_in_file_order_witness :
  let s := run (in_turn 60) (boot whole_of_three [Start; Iterate]) in
  VideoStream_init "three.avi" three_frames None None true = Ok whole_of_three
  /\ Forall passive [Start; Iterate]
  /\ obtained s = [1; 2]
  /\ exists n, obtained s ++ Q (stream s) = interval 1 n.
Proof.
  intro s.
  assert (Hinit : VideoStream_init "three.avi" three_frames None None true
                  = Ok whole_of_three) by (vm_compute; reflexivity).
  assert (Hcalls : Forall passive [Start; Iterate]) by (repeat constructor).
  split; [exact Hinit|]. split; [exact Hcalls|].
  split; [vm_compute; reflexivity|].
  destruct (@frames_come_in_file_order _ _ _ _ _ _ _ (in_turn 60) Hinit Hcalls)
    as (n & v & _ & Hlist & _).
  exists n. exact Hlist.
Defined.

Lemma first_frame_is_never_read_witness :
  let s := run (in_turn 60) (boot whole_of_three [Start; Iterate]) in
  VideoStream_init "three.avi" three_frames None None true = Ok whole_of_three
  /\ (0 <= Time.seconds (Time.stamp (beginning whole_of_three)))%Q
  /\ (0 <= cam_fps three_frames)%Q
  /\ 1 <= Time.frame_number (beginning whole_of_three)
  /\ ~ In 0 (obtained s) /\ ~ In 0 (Q (stream s)).
Proof.
  intro s.
  assert (Hinit : VideoStream_init "three.avi" three_frames None None true
                  = Ok whole_of_three) by (vm_compute; reflexivity).
  assert (Hcalls : Forall passive [Start; Iterate]) by (repeat constructor).
  assert (Hsec : (0 <= Time.seconds (Time.stamp (beginning whole_of_three)))%Q)
    by (vm_compute; discriminate).
  assert (Hfps : (0 <= cam_fps three_frames)%Q) by (vm_compute; discriminate).
  split; [exact Hinit|]. split; [exact Hsec|]. split; [exact Hfps|].
  exact (@first_frame_is_never_read _ _ _ _ _ _ _ (in_turn 60) Hinit Hcalls Hsec Hfps).
Defined.

(** The file of three frames with a window that ends at one second. *)
Lemma end_beyond_file_never_ends_witness :
  let s := run (in_turn 200) (boot beyond_three [Start; Iterate]) in
  VideoStream_init "three.avi" three_frames None (Some (Time.OfStr "0:0:1")) true
  = Ok beyond_three
  /\ option_map Time.frame_number (end_ beyond_three) = Some 26
  /\ finished s = false
  /\ stopped (stream s) = false
  /\ released (stream s) = false
  /\ ~ In None (returned s)
  /\ t (stream s) <> Exited.
Proof.
  intro s.
  assert (Hinit : VideoStream_init "three.avi" three_frames None
                    (Some (Time.OfStr "0:0:1")) true = Ok beyond_three)
    by (vm_compute; reflexivity).
  split; [exact Hinit|]. split; [vm_compute; reflexivity|].
  destruct (end_ beyond_three) as [v|] eqn:Hv; [|vm_compute in Hv; discriminate].
  assert (Hnum : Time.frame_number v = 26).
  { assert (H : option_map Time.frame_number (end_ beyond_three) = Some 26)
      by (vm_compute; reflexivity).
    rewrite Hv in H. cbn in H. congruence. }
  apply (@end_beyond_file_never_ends _ _ _ _ _ _ v (in_turn 200) Hinit Hv);
    rewrite Hnum; vm_compute; reflexivity.
Defined.

Lemma stop_returns_after_release_witness :
  let s := run (in_turn 70) (boot whole_of_three ([Start; Iterate] ++ [Stop])) in
  VideoStream_init "three.avi" three_frames None None true = Ok whole_of_three
  /\ finished s = true
  /\ closed_down (stream s).
Proof.
  intro s.
  assert (Hinit : VideoStream_init "three.avi" three_frames None None true
                  = Ok whole_of_three) by (vm_compute; reflexivity).
  assert (Hcalls : Forall passive [Start; Iterate]) by (repeat constructor).
  assert (Hfin : finished s = true) by (vm_compute; reflexivity).
  split; [exact Hinit|]. split; [exact Hfin|].
  exact (@stop_returns_after_release _ _ _ _ _ _ _ (in_turn 70) Hinit Hcalls Hfin).
Defined.

End SourceClientRuns.
(** ** Digits and separators *)

Module TextFacts.
Import PyText Text.

Lemma all_digits_uint (d : Decimal.uint) :
  all_digits (NilEmpty.string_of_uint d) = true.
Proof. induction d; cbn; auto. Qed.

Lemma str_uint_not_empty (n : Z) : str_uint n <> EmptyString.
Proof.
  unfold str_uint, NilZero.string_of_uint.
  destruct (N.to_uint (Z.to_N n)); discriminate.
Qed.

Lemma to_uint_not_Nil (n : N) : N.to_uint n <> Decimal.Nil.
Proof.
  destruct n; cbn; [discriminate|]. apply DecimalPos.Unsigned.to_uint_nonnil.
Qed.

Lemma str_uint_digits (n : Z) : all_digits (str_uint n) = true.
Proof.
  unfold str_uint, NilZero.string_of_uint.
  pose proof (to_uint_not_Nil (Z.to_N n)) as H.
  destruct (N.to_uint (Z.to_N n)) eqn:E; try contradiction;
    rewrite <- E; apply all_digits_uint.
Qed.

Lemma all_digits_lacks (c : ascii) (s : string) :
  is_digit c = false -> all_digits s = true -> lacks c s = true.
Proof.
  intros Hc. induction s as [|a s IH]; cbn; [reflexivity|].
  intro H. apply andb_prop in H. destruct H as [Ha Hs].
  rewrite IH by exact Hs. rewrite andb_true_r.
  destruct (Ascii.eqb a c) eqn:E; [|reflexivity].
  apply Ascii.eqb_eq in E. subst. congruence.
Qed.

Lemma lacks_app (c : ascii) (s s' : string) :
  lacks c (s ++ s') = lacks c s && lacks c s'.
Proof.
  induction s as [|a s IH]; cbn; [reflexivity|]. rewrite IH. apply andb_assoc.
Qed.

Lemma split_on_lacks (c : ascii) (s : string) :
  lacks c s = true -> split_on c s = [s].
Proof.
  induction s as [|a s IH]; cbn; [reflexivity|].
  intro H. apply andb_prop in H. destruct H as [Ha Hs].
  destruct (Ascii.eqb a c); [discriminate|]. rewrite IH by exact Hs. reflexivity.
Qed.

Lemma split_on_app (c : ascii) (s rest : string) :
  lacks c s = true -> split_on c (s ++ String c rest) = s :: split_on c rest.
Proof.
  induction s as [|a s IH]; cbn.
  - intros _. rewrite Ascii.eqb_refl. reflexivity.
  - intro H. apply andb_prop in H. destruct H as [Ha Hs].
    destruct (Ascii.eqb a c); [discriminate|]. rewrite IH by exact Hs. reflexivity.
Qed.

Lemma digits_str_uint (n : Z) : 0 <= n -> digits (str_uint n) = Ok n.
Proof.
  intro Hn. unfold digits, str_uint, NilZero.string_of_uint.
  pose proof (to_uint_not_Nil (Z.to_N n)) as Hnil.
  assert (H : NilEmpty.uint_of_string (NilEmpty.string_of_uint (N.to_uint (Z.to_N n)))
              = Some (N.to_uint (Z.to_N n))) by apply NilEmpty.usu.
  destruct (N.to_uint (Z.to_N n)) eqn:E; try contradiction; rewrite H, <- E;
    unfold Z.of_uint; rewrite DecimalN.Unsigned.of_to; f_equal; lia.
Qed.

Lemma str_int_nonneg (n : Z) : 0 <= n -> str_int n = str_uint n.
Proof.
  intro H. unfold str_int, str_uint, NilZero.string_of_int.
  destruct n; [reflexivity|reflexivity|lia].
Qed.

Lemma str_int_lacks_colon (n : Z) : lacks ":"%char (str_int n) = true.
Proof.
  destruct n as [|p|p].
  - reflexivity.
  - rewrite str_int_nonneg by lia.
    apply all_digits_lacks; [reflexivity | apply str_uint_digits].
  - assert (Htext : str_int (Zneg p) = ("-" ++ str_uint (Zpos p))%string).
    { unfold str_int, str_uint, NilZero.string_of_int, NilZero.string_of_uint.
      cbn [Z.to_int Z.to_N N.to_uint].
      pose proof (DecimalPos.Unsigned.to_uint_nonnil p).
      destruct (Pos.to_uint p); try contradiction; reflexivity. }
    rewrite Htext. cbn [append lacks].
    rewrite all_digits_lacks; [reflexivity | reflexivity | apply str_uint_digits].
Qed.

Lemma str_uint_lacks (c : ascii) (n : Z) :
  is_digit c = false -> lacks c (str_uint n) = true.
Proof. intro H. apply all_digits_lacks; [exact H | apply str_uint_digits]. Qed.

End TextFacts.

(** ** Dictionaries *)

Module DictFacts.
Import PyDict.

Section Keys.
Variable V : Type.

Lemma lookup_dict_set (k k' : string) (v : V) (d : dict V) :
  lookup k (dict_set k' v d) = if String.eqb k' k then Some v else lookup k d.
Proof.
  induction d as [|[k0 v0] d IH]; cbn [dict_set lookup].
  - reflexivity.
  - destruct (String.eqb k0 k') eqn:E0; cbn [lookup].
    + apply String.eqb_eq in E0. subst k0.
      destruct (String.eqb k' k); reflexivity.
    + destruct (String.eqb k0 k) eqn:E1.
      * apply String.eqb_eq in E1. subst k0.
        rewrite String.eqb_sym, E0. reflexivity.
      * exact IH.
Qed.

Lemma keys_dict_set (k k' : string) (v : V) (d : dict V) :
  In k (map fst (dict_set k' v d)) <-> k = k' \/ In k (map fst d).
Proof.
  induction d as [|[k0 v0] d IH]; cbn [dict_set map fst In].
  - intuition congruence.
  - destruct (String.eqb k0 k') eqn:E0; cbn [map fst In].
    + apply String.eqb_eq in E0. subst k0. intuition congruence.
    + rewrite IH. intuition congruence.
Qed.

Lemma NoDup_dict_set (k : string) (v : V) (d : dict V) :
  NoDup (map fst d) -> NoDup (map fst (dict_set k v d)).
Proof.
  induction d as [|[k0 v0] d IH]; cbn [dict_set map fst]; intro H.
  - constructor; [intros [] | constructor].
  - inversion H as [|? ? Hnot Hrest]; subst.
    destruct (String.eqb k0 k) eqn:E0; cbn [map fst].
    + apply String.eqb_eq in E0. subst k0. constructor; assumption.
    + constructor; [|apply IH, Hrest].
      rewrite keys_dict_set. intros [->|Hin]; [|contradiction].
      rewrite String.eqb_refl in E0. discriminate.
Qed.

Lemma lookup_store (k : string) (items : list (string * V)) :
  forall d, lookup k (store d items)
            = match last_value k items with
              | Some v => Some v
              | None => lookup k d
              end.
Proof.
  induction items as [|[k0 v0] items IH]; intro d.
  - reflexivity.
  - change (store d ((k0, v0) :: items)) with (store (dict_set k0 v0 d) items).
    rewrite IH. cbn [last_value].
    destruct (last_value k items); [reflexivity|].
    rewrite lookup_dict_set. destruct (String.eqb k0 k); reflexivity.
Qed.

Lemma NoDup_store (items : list (string * V)) :
  forall d, NoDup (map fst d) -> NoDup (map fst (store d items)).
Proof.
  induction items as [|[k0 v0] items IH]; intros d H; [exact H|].
  apply IH, NoDup_dict_set, H.
Qed.

Lemma last_value_NoDup (k : string) (items : list (string * V)) :
  NoDup (map fst items) -> last_value k items = lookup k items.
Proof.
  induction items as [|[k0 v0] items IH]; cbn [map fst last_value lookup]; intro H.
  - reflexivity.
  - inversion H as [|? ? Hnot Hrest]; subst. rewrite IH by exact Hrest.
    destruct (String.eqb k0 k) eqn:E0; [|destruct (lookup k items); reflexivity].
    apply String.eqb_eq in E0. subst k0.
    destruct (lookup k items) eqn:El; [|reflexivity].
    exfalso. apply Hnot. clear - El.
    induction items as [|[k1 v1] items IH]; [discriminate|].
    cbn [lookup] in El. cbn [map fst In].
    destruct (String.eqb k1 k) eqn:E1; [left; apply String.eqb_eq, E1 | right; auto].
Qed.

Lemma lookup_absent (k : string) (d : dict V) :
  lookup k d = None <-> ~ In k (map fst d).
Proof.
  induction d as [|[k0 v0] d IH]; cbn [lookup map fst In].
  - tauto.
  - destruct (String.eqb k0 k) eqn:E.
    + apply String.eqb_eq in E. split; [discriminate | intro H; exfalso; auto].
    + apply String.eqb_neq in E. rewrite IH. tauto.
Qed.

Lemma dict_del_set (k : string) (v : V) (d : dict V) :
  lookup k d = None -> dict_del k (dict_set k v d) = d.
Proof.
  induction d as [|[k0 v0] d IH]; cbn [lookup dict_set dict_del].
  - rewrite String.eqb_refl. reflexivity.
  - destruct (String.eqb k0 k) eqn:E; [discriminate|].
    intro H. cbn [dict_del]. rewrite E, IH by exact H. reflexivity.
Qed.

Lemma lookup_dict_del (k : string) (d : dict V) :
  NoDup (map fst d) -> lookup k (dict_del k d) = None.
Proof.
  induction d as [|[k0 v0] d IH]; cbn [map fst dict_del]; intro H; [reflexivity|].
  inversion H as [|? ? Hnot Hrest]; subst.
  destruct (String.eqb k0 k) eqn:E.
  - apply String.eqb_eq in E. subst k0. apply lookup_absent, Hnot.
  - cbn [lookup]. rewrite E. apply IH, Hrest.
Qed.

End Keys.

End DictFacts.

(** ** The table of regions *)

Module CropsFacts.
Import PyText Text PyDict CropsFile DictFacts.

(** *** [strip] *)

Lemma digit_not_space (c : ascii) : is_digit c = true -> is_space c = false.
Proof.
  destruct c as [[] [] [] [] [] [] [] []]; vm_compute; congruence.
Qed.

Lemma all_space_lstrip (s : string) : all_space s = true -> lstrip s = EmptyString.
Proof.
  induction s as [|a s IH]; cbn; [reflexivity|].
  intro H. apply andb_prop in H. destruct H as [Ha Hs]. rewrite Ha. auto.
Qed.

Lemma all_space_rstrip (s : string) : all_space s = true -> rstrip s = EmptyString.
Proof.
  induction s as [|a s IH]; cbn; [reflexivity|].
  intro H. apply andb_prop in H. destruct H as [Ha Hs].
  rewrite IH by exact Hs. rewrite Ha. reflexivity.
Qed.

Lemma rstrip_app_space (s t : string) :
  all_space t = true -> rstrip (s ++ t) = rstrip s.
Proof.
  intro Ht. induction s as [|a s IH]; cbn [append rstrip].
  - apply all_space_rstrip. exact Ht.
  - rewrite IH. reflexivity.
Qed.

Lemma rstrip_last (s : string) (a : ascii) :
  is_space (last_char s a) = false -> rstrip (String a s) = String a s.
Proof.
  revert a. induction s as [|b s IH]; intros a H.
  - cbn in *. rewrite H. reflexivity.
  - change (rstrip (String a (String b s)))
      with (match rstrip (String b s) with
            | EmptyString => if is_space a then EmptyString else String a EmptyString
            | kept => String a kept
            end).
    rewrite IH by exact H. reflexivity.
Qed.

Lemma last_char_app (s t : string) (d : ascii) :
  last_char (s ++ t) d = last_char t (last_char s d).
Proof.
  revert d. induction s as [|a s IH]; intro d; cbn; [reflexivity | apply IH].
Qed.

Lemma last_char_digit (s : string) (d : ascii) :
  all_digits s = true -> is_digit d = true -> is_digit (last_char s d) = true.
Proof.
  revert d. induction s as [|a s IH]; intros d Hs Hd; cbn in *; [exact Hd|].
  apply andb_prop in Hs. destruct Hs as [Ha Hs]. apply IH; assumption.
Qed.

Lemma strip_ends (a : ascii) (s : string) :
  is_space a = false -> is_space (last_char s a) = false ->
  strip (String a s) = String a s.
Proof.
  intros Ha Hl. unfold strip. cbn [lstrip]. rewrite Ha. apply rstrip_last. exact Hl.
Qed.

Lemma lacks_lstrip (c : ascii) (s : string) :
  lacks c s = true -> lacks c (lstrip s) = true.
Proof.
  induction s as [|a s IH]; cbn [lstrip]; [auto|].
  intro H. destruct (is_space a); [|exact H].
  cbn in H. apply andb_prop in H. apply IH, H.
Qed.

Lemma lacks_rstrip (c : ascii) (s : string) :
  lacks c s = true -> lacks c (rstrip s) = true.
Proof.
  induction s as [|a s IH]; cbn [rstrip]; [auto|].
  intro H. cbn in H. apply andb_prop in H. destruct H as [Ha Hs].
  specialize (IH Hs). destruct (rstrip s) as [|b kept].
  - destruct (is_space a); [reflexivity|]. cbn. rewrite Ha. reflexivity.
  - cbn [lacks]. rewrite Ha. exact IH.
Qed.

Lemma lacks_strip (c : ascii) (s : string) :
  lacks c s = true -> lacks c (strip s) = true.
Proof. intro H. apply lacks_rstrip, lacks_lstrip, H. Qed.

Lemma all_space_strip (s : string) : all_space s = true -> strip s = EmptyString.
Proof. intro H. unfold strip. rewrite all_space_lstrip by exact H. reflexivity. Qed.

(** *** Integers *)

Lemma str_int_negative (p : positive) :
  str_int (Zneg p) = String "-"%char (str_uint (Zpos p)).
Proof.
  unfold str_int, str_uint, NilZero.string_of_int, NilZero.string_of_uint.
  cbn [Z.to_int Z.to_N N.to_uint].
  pose proof (DecimalPos.Unsigned.to_uint_nonnil p).
  destruct (Pos.to_uint p); try contradiction; reflexivity.
Qed.

Lemma str_uint_head (n : Z) :
  exists a s, str_uint n = String a s /\ is_digit a = true /\ all_digits s = true.
Proof.
  pose proof (TextFacts.str_uint_digits n) as H.
  pose proof (@TextFacts.str_uint_not_empty n) as Hne.
  destruct (str_uint n) as [|a s]; [contradiction|].
  cbn in H. apply andb_prop in H. exists a, s. tauto.
Qed.

Lemma strip_str_uint (n : Z) : strip (str_uint n) = str_uint n.
Proof.
  destruct (str_uint_head n) as (a & s & -> & Ha & Hs).
  apply strip_ends; apply digit_not_space; [exact Ha|].
  apply last_char_digit; assumption.
Qed.

Lemma int_of_str_uint (n : Z) : 0 <= n -> int_of_str (str_uint n) = Ok n.
Proof.
  intro Hn. unfold int_of_str. rewrite strip_str_uint.
  pose proof (TextFacts.digits_str_uint Hn) as Hd.
  destruct (str_uint_head n) as (a & s & E & Ha & Hs). rewrite E in *.
  assert (Hm : a <> "-"%char) by (intro; subst; discriminate).
  assert (Hp : a <> "+"%char) by (intro; subst; discriminate).
  destruct a as [[] [] [] [] [] [] [] []]; try exact Hd; congruence.
Qed.

Lemma int_of_str_int (n : Z) : int_of_str (str_int n) = Ok n.
Proof.
  destruct n as [|p|p].
  - reflexivity.
  - rewrite TextFacts.str_int_nonneg by lia. apply int_of_str_uint. lia.
  - rewrite str_int_negative. unfold int_of_str.
    destruct (str_uint_head (Zpos p)) as (a & s & E & Ha & Hs).
    rewrite strip_ends.
    + rewrite E, <- E. rewrite TextFacts.digits_str_uint by lia. reflexivity.
    + reflexivity.
    + rewrite E. cbn [last_char]. apply digit_not_space.
      apply last_char_digit; assumption.
Qed.

Lemma str_int_head (n : Z) :
  exists a s, str_int n = String a s /\ is_space a = false
              /\ is_space (last_char s a) = false.
Proof.
  destruct n as [|p|p].
  - exists "0"%char, EmptyString. repeat split.
  - rewrite TextFacts.str_int_nonneg by lia.
    destruct (str_uint_head (Zpos p)) as (a & s & E & Ha & Hs).
    exists a, s. split; [exact E|]. split; [apply digit_not_space, Ha|].
    apply digit_not_space, last_char_digit; assumption.
  - rewrite str_int_negative.
    destruct (str_uint_head (Zpos p)) as (a & s & E & Ha & Hs).
    eexists _, _. split; [reflexivity|]. split; [reflexivity|].
    rewrite E. cbn [last_char].
    apply digit_not_space, last_char_digit; assumption.
Qed.

Lemma str_int_lacks_tab (n : Z) : lacks tab (str_int n) = true.
Proof.
  destruct n as [|p|p].
  - reflexivity.
  - rewrite TextFacts.str_int_nonneg by lia.
    apply TextFacts.str_uint_lacks. reflexivity.
  - rewrite str_int_negative. cbn [lacks].
    rewrite TextFacts.str_uint_lacks by reflexivity. reflexivity.
Qed.

(** *** A line *)

Lemma append_tail (a b c : string) : (a ++ (b ++ c) = (a ++ b) ++ c)%string.
Proof. induction a as [|x a IH]; cbn [append]; [reflexivity | rewrite IH; reflexivity]. Qed.

Lemma coordinates_text_lacks_tab (r : Z * Z * Z * Z) :
  lacks tab (coordinates_text r) = true.
Proof.
  destruct r as [[[x y] w] h]. unfold coordinates_text.
  repeat (rewrite TextFacts.lacks_app; cbn [lacks]).
  rewrite !str_int_lacks_tab. reflexivity.
Qed.

Lemma coordinates_text_ends (r : Z * Z * Z * Z) :
  exists a s, coordinates_text r = String a s /\ is_space a = false
              /\ is_space (last_char s a) = false.
Proof.
  destruct r as [[[x y] w] h]. unfold coordinates_text.
  destruct (str_int_head x) as (a & s & E & Ha & _).
  destruct (str_int_head h) as (b & u & F & Hb & Hu).
  rewrite E, F. cbn [append]. eexists _, _. split; [reflexivity|].
  split; [exact Ha|].
  rewrite last_char_app. cbn [last_char]. rewrite last_char_app. cbn [last_char].
  rewrite last_char_app. cbn [last_char]. exact Hu.
Qed.

Lemma coordinates_read (r : Z * Z * Z * Z) :
  for_each int_of_str (split_on ":"%char (strip (coordinates_text r)))
  = Ok (let '(x, y, w, h) := r in [x; y; w; h]).
Proof.
  destruct (coordinates_text_ends r) as (a & s & E & Ha & Hs).
  rewrite E, strip_ends, <- E by assumption. clear.
  destruct r as [[[x y] w] h]. unfold coordinates_text.
  rewrite !TextFacts.split_on_app by apply TextFacts.str_int_lacks_colon.
  rewrite TextFacts.split_on_lacks by apply TextFacts.str_int_lacks_colon.
  cbn [for_each]. rewrite !int_of_str_int. reflexivity.
Qed.

Lemma strip_crop_line (item : string * (Z * Z * Z * Z)) :
  plain_name (fst item) ->
  strip (crop_line item) = (coordinates_text (snd item) ++ String tab (fst item))%string.
Proof.
  destruct item as [name r]. cbn [fst snd]. intros (_ & Hfirst & Hlast).
  unfold crop_line. cbn [fst snd].
  destruct (coordinates_text_ends r) as (a & s & E & Ha & _).
  rewrite E. cbn [append]. unfold strip. cbn [lstrip]. rewrite Ha.
  change (String a (s ++ String tab (name ++ String line_feed EmptyString)))%string
    with (String a s ++ String tab (name ++ String line_feed EmptyString))%string.
  change (String tab (name ++ String line_feed EmptyString))%string
    with (String tab name ++ String line_feed EmptyString)%string.
  rewrite (append_tail (String a s)). rewrite rstrip_app_space by reflexivity.
  cbn [append]. apply rstrip_last.
  rewrite last_char_app. cbn [last_char].
  destruct name as [|c rest]; [contradiction|]. exact Hlast.
Qed.

Lemma read_crop_line (item : string * (Z * Z * Z * Z)) :
  plain_name (fst item) -> read_crop (crop_line item) = Ok item.
Proof.
  intro Hname. unfold read_crop. rewrite strip_crop_line by exact Hname.
  rewrite TextFacts.split_on_app by apply coordinates_text_lacks_tab.
  rewrite TextFacts.split_on_lacks by apply Hname.
  rewrite coordinates_read. destruct item as [name [[[x y] w] h]]. reflexivity.
Qed.

Lemma read_crop_without_tab (line : string) :
  all_space line = true \/ lacks tab line = true -> read_crop line = Raise ValueError.
Proof.
  intro H. unfold read_crop.
  assert (Hl : lacks tab (strip line) = true).
  { destruct H as [H|H]; [rewrite all_space_strip by exact H; reflexivity|].
    apply lacks_strip, H. }
  rewrite TextFacts.split_on_lacks by exact Hl. reflexivity.
Qed.

Lemma read_crops_from_items (f : list string) :
  forall d table,
    read_crops_from d f = Ok table <->
    exists items, for_each read_crop f = Ok items /\ table = store d items.
Proof.
  induction f as [|line f IH]; intros d table; cbn [read_crops_from for_each].
  - split.
    + intro H. injection H as <-. exists []. split; reflexivity.
    + intros (items & H & ->). injection H as <-. reflexivity.
  - destruct (read_crop line) as [item| |]; cbn [bind].
    + rewrite IH. split.
      * intros (items & H & ->). exists (item :: items). rewrite H. auto.
      * intros (items & H & ->).
        destruct (for_each read_crop f) as [rest| |]; try discriminate.
        injection H as <-. exists rest. auto.
    + split; [discriminate | intros (items & H & _); discriminate].
    + split; [discriminate | intros (items & H & _); discriminate].
Qed.

Lemma read_crops_from_raises (before after : list string) (line : string)
  (items : list (string * (Z * Z * Z * Z))) (e : exn) :
  for_each read_crop before = Ok items -> read_crop line = Raise e ->
  forall d, read_crops_from d (before ++ line :: after) = Raise e.
Proof.
  revert items. induction before as [|l before IH]; intros items Hb Hl d;
    cbn [app read_crops_from].
  - rewrite Hl. reflexivity.
  - cbn [for_each] in Hb. destruct (read_crop l) as [item| |]; try discriminate.
    cbn [bind]. destruct (for_each read_crop before) as [rest| |]; try discriminate.
    apply (IH rest); [reflexivity | exact Hl].
Qed.

Lemma for_each_crop_lines (table : list (string * (Z * Z * Z * Z))) :
  Forall (fun item => plain_name (fst item)) table ->
  for_each read_crop (map crop_line table) = Ok table.
Proof.
  induction 1 as [|item table Hitem _ IH]; cbn [map for_each]; [reflexivity|].
  rewrite read_crop_line by exact Hitem. rewrite IH. reflexivity.
Qed.

(** X15. [read_crops]: when the file is read to its end, every line had
    a rectangle and a name, the dictionary has each name once, and the
    rectangle of a name is the one of the last line that names it. *)
Theorem read_crops_keeps_the_last_line (f : list string)
  (table : dict (Z * Z * Z * Z)) :
  read_crops f = Ok table ->
  exists items,
    for_each read_crop f = Ok items
    /\ NoDup (map fst table)
    /\ forall name, lookup name table = last_value name items.
Proof.
  intro H. apply read_crops_from_items in H. destruct H as (items & Hitems & ->).
  exists items. split; [exact Hitems|]. split.
  - apply NoDup_store. constructor.
  - intro name. rewrite lookup_store. destruct (last_value name items); reflexivity.
Qed.

(** X16. [read_crops] reads back a table written one entry a line as
    [X:Y:W:H], a tab and the file name, whatever the integers are and for
    any file names without a tab and without a blank at either end: each
    name gets the rectangle it was last written with, and the one it was
    written with when no name is repeated. *)
Theorem written_table_reads_back (table : list (string * (Z * Z * Z * Z))) :
  Forall (fun item => plain_name (fst item)) table ->
  exists d,
    read_crops (map crop_line table) = Ok d
    /\ (forall name, lookup name d = last_value name table)
    /\ (NoDup (map fst table) -> forall name, lookup name d = lookup name table).
Proof.
  intro Hnames. exists (store [] table). split; [|split].
  - apply read_crops_from_items. exists table. split; [|reflexivity].
    apply for_each_crop_lines, Hnames.
  - intro name. rewrite lookup_store. destruct (last_value name table); reflexivity.
  - intros Hkeys name. rewrite lookup_store, last_value_NoDup by exact Hkeys.
    destruct (lookup name table); reflexivity.
Qed.

(** X17. [read_crops] raises [ValueError] at the first line that is
    blank or has no tab, whatever follows it: a file of regions cannot
    hold an empty line, not even as its last one. *)
Theorem line_without_tab_is_refused (before after : list string) (line : string)
  (items : list (string * (Z * Z * Z * Z))) :
  for_each read_crop before = Ok items ->
  all_space line = true \/ lacks tab line = true ->
  read_crops (before ++ line :: after) = Raise ValueError.
Proof.
  intros Hbefore Hline. unfold read_crops.
  apply read_crops_from_raises with (items := items); [exact Hbefore|].
  apply read_crop_without_tab, Hline.
Qed.

Lemma read_crops_keeps_the_last_line_witness :
  exists items,
    for_each read_crop repeated_name_file = Ok items
    /\ NoDup (map fst [("a.avi"%string, (1, 0, 1, 3)); ("b.avi"%string, (1, 1, 2, 2))])
    /\ forall name,
         lookup name [("a.avi"%string, (1, 0, 1, 3)); ("b.avi"%string, (1, 1, 2, 2))]
         = last_value name items.
Proof.
  apply (@read_crops_keeps_the_last_line repeated_name_file). vm_compute. reflexivity.
Defined.

Lemma written_table_reads_back_witness :
  exists d,
    read_crops (map crop_line odd_table) = Ok d
    /\ (forall name, lookup name d = last_value name odd_table)
    /\ (NoDup (map fst odd_table) -> forall name, lookup name d = lookup name odd_table).
Proof.
  apply (@written_table_reads_back odd_table).
  repeat constructor.
Defined.

(** A file whose last line is empty. *)
Lemma line_without_tab_is_refused_witness :
  read_crops (map crop_line odd_table ++ [String line_feed EmptyString])
  = Raise ValueError.
Proof.
  apply (@line_without_tab_is_refused (map crop_line odd_table) []
           (String line_feed EmptyString) odd_table).
  - vm_compute. reflexivity.
  - left. reflexivity.
Defined.

End CropsFacts.

(** ** A run without [--splits] *)

Module UnsplitRuns.
Import Image Sink SinkState Orchestrator OrchestratorState Unsplit.

Section Whole.
Variable pixel : Type.
Local Abbreviation frame := (image pixel) (only parsing).

Variable options : Options.
Variable crops : crops_table.
Hypothesis four_characters : String.length (fourcc options) = 4%nat.

Lemma consume_whole (input : footage pixel) :
  forall (current : list frame) (st : state pixel),
    group_open crops EmptyString current (croppers st) ->
    remaining_splits st = [] ->
    Forall (fun shot => ~ (fst shot == 0)%Q) input ->
    exists st',
      consume options crops st input = Ok st'
      /\ group_open crops EmptyString (current ++ map snd input) (croppers st')
      /\ closed st' = closed st.
Proof.
  induction input as [|[rate f] rest IH]; intros current st Hopen Hsplits Hrates.
  - exists st. cbn. rewrite app_nil_r. auto.
  - inversion Hrates as [|? ? Hrate Hrest]; subst. cbn [fst] in Hrate.
    cbn [consume]. unfold on_frame.
    destruct (Qeq_bool rate 0) eqn:E; [apply Qeq_bool_iff in E; contradiction|].
    rewrite Hsplits. cbn [bind croppers remaining_splits j elapsed_seconds closed].
    destruct (OrchestratorRuns.write_group f Hopen) as (group & Hgroup & Hopen').
    rewrite Hgroup. cbn [bind].
    match goal with
    | |- context [consume options crops ?s rest] =>
        destruct (IH (current ++ [f]) s) as (st' & Hst' & Hopen'' & Hclosed);
          [exact Hopen' | cbn; assumption || reflexivity | exact Hrest |]
    end.
    exists st'. split; [exact Hst'|]. split; [|exact Hclosed].
    cbn [map snd]. rewrite <- app_assoc in Hopen''. exact Hopen''.
Qed.

Lemma written_closed (prefix : string) (frames : list frame)
  (group : list (VideoWriter pixel)) :
  group_closed crops prefix frames group ->
  written group
  = map (fun entry => ((prefix ++ fst entry)%string, map (cropped entry) frames)) crops.
Proof.
  unfold written. induction 1 as [|entry c table group (Hname & Hfile & _) _ IH].
  - reflexivity.
  - cbn [map]. rewrite IH, Hname, Hfile. reflexivity.
Qed.

(** X18. [main] without [--splits]: whatever the number of frames and
    the rates of the streams they come from, the croppers built before
    the loop are never replaced. There is one file for each entry of the
    table, under the very name the table gives, and it holds the region
    of the entry cut out of every frame of the input, in order; each
    cropper ends stopped, its queue empty and its handle released. *)
Theorem run_without_splits_writes_one_group (input : footage pixel) :
  splits options = [] ->
  Forall (fun shot => ~ (fst shot == 0)%Q) input ->
  exists group,
    main options crops input = Ok [group]
    /\ group_closed crops EmptyString (map snd input) group
    /\ written group
       = map (fun entry => (fst entry, map (cropped entry) (map snd input))) crops.
Proof.
  intros Hsplits Hrates. unfold main, prepare. rewrite Hsplits.
  rewrite (OrchestratorRuns.get_croppers_array_ok pixel options four_characters).
  cbn [bind].
  destruct (OrchestratorRuns.start_group pixel options four_characters EmptyString crops)
    as (started & Hstarted & Hopen).
  rewrite Hstarted. cbn [bind].
  destruct (@consume_whole input []
              (mkState [] 1 started (start_seconds options) []) Hopen eq_refl Hrates)
    as (st' & Hst' & Hopen' & Hclosed).
  rewrite Hst'. cbn [bind].
  destruct (OrchestratorRuns.stop_group options four_characters Hopen')
    as (halted & Hhalted & Hlast).
  rewrite Hhalted. cbn [bind]. rewrite Hclosed. cbn [closed app].
  exists halted. split; [reflexivity|]. split; [exact Hlast|].
  apply written_closed in Hlast. exact Hlast.
Qed.

End Whole.

(** Three frames of three rows and three columns cut into two regions. *)
Lemma run_without_splits_writes_one_group_witness :
  let input := map shot (seq 1 3) in
  exists group,
    main plain_options two_regions input = Ok [group]
    /\ group_closed two_regions EmptyString (map snd input) group
    /\ written group
       = map (fun entry => (fst entry, map (cropped entry) (map snd input))) two_regions.
Proof.
  apply (@run_without_splits_writes_one_group nat plain_options two_regions eq_refl
           (map shot (seq 1 3)) eq_refl).
  repeat constructor; intro H; vm_compute in H; discriminate.
Defined.

End UnsplitRuns.

(** ** [open_video] *)

Module OpeningFacts.
Import PyDict Opening DictFacts.

(** X19. [open_video]: the mode given as the second positional argument
    and the mode given as the keyword [mode] lead to the same call, with
    the mode taken out of the arguments; the keyword, when present, is
    the one looked at, and the positional arguments are then all passed
    on. The constructor never receives a keyword [mode]. Without a mode
    the class is [VideoInput], and a mode that is not the string [r] or
    the string [w] raises [ValueError]. *)
Theorem open_video_mode (kwargs : dict object) :
  NoDup (map fst kwargs) ->
  (forall first second rest,
     lookup "mode" kwargs = None ->
     open_video (first :: second :: rest) kwargs
     = open_video (first :: rest) (dict_set "mode" second kwargs))
  /\ (forall args mode,
        lookup "mode" kwargs = Some mode ->
        open_video args kwargs
        = if equals mode "r" then Ok (VideoInput_new args (dict_del "mode" kwargs))
          else if equals mode "w" then Ok (VideoOutput_new args (dict_del "mode" kwargs))
          else Raise ValueError)
  /\ (forall args call,
        open_video args kwargs = Ok call -> lookup "mode" (keywords call) = None)
  /\ (forall args,
        lookup "mode" kwargs = None -> (length args <= 1)%nat ->
        open_video args kwargs = Ok (VideoInput_new args kwargs)).
Proof.
  intro Hkeys. split; [|split; [|split]].
  - intros first second rest Hnone. unfold open_video.
    rewrite Hnone, lookup_dict_set, String.eqb_refl.
    rewrite dict_del_set by exact Hnone. reflexivity.
  - intros args mode Hmode. unfold open_video. rewrite Hmode. reflexivity.
  - intros args call. unfold open_video.
    destruct (lookup "mode" kwargs) as [mode|] eqn:Hmode.
    + destruct (equals mode "r"); [|destruct (equals mode "w"); [|discriminate]];
        intro H; injection H as <-; apply lookup_dict_del, Hkeys.
    + destruct args as [|first [|second rest]]; cbn [equals String.eqb];
        try (intro H; injection H as <-; exact Hmode).
      destruct (equals second "r"); [|destruct (equals second "w"); [|discriminate]];
        intro H; injection H as <-; exact Hmode.
  - intros args Hnone Hlen. unfold open_video. rewrite Hnone.
    destruct args as [|first [|second rest]]; [reflexivity | reflexivity|].
    cbn [length] in Hlen. lia.
Qed.

Lemma open_video_mode_witness :
  open_video [Str "in.avi"; Str "w"; Str "MJPG"] [("fps"%string, NotStr 25)]
  = open_video [Str "in.avi"; Str "MJPG"]
      (dict_set "mode" (Str "w") [("fps"%string, NotStr 25)])
  /\ open_video [Str "in.avi"; Str "w"] [("mode"%string, Str "r")]
     = Ok (VideoInput_new [Str "in.avi"; Str "w"] []).
Proof.
  assert (Hkeys : NoDup (map fst [("fps"%string, NotStr 25)]))
    by (constructor; [intros [] | constructor]).
  assert (Hmode : NoDup (map fst [("mode"%string, Str "r")]))
    by (constructor; [intros [] | constructor]).
  split.
  - apply (proj1 (@open_video_mode _ Hkeys)). reflexivity.
  - apply (proj1 (proj2 (@open_video_mode _ Hmode)) _ (Str "r")). reflexivity.
Defined.

End OpeningFacts.
